(** * Safe-withdrawal-rate simulation: a shallow embedding of [simulation.cpp]

    The development follows the source file top to bottom:

    - [F32]: IEEE-754 binary32 arithmetic (the C++ [float]), taken from the
      Standard Library's executable specification [SpecFloat] at precision 24
      and maximal exponent 128, round-to-nearest-even, every operation rounded
      to binary32 (no extended precision, no fused multiply-add);
    - [SizeT]: 64-bit [size_t] arithmetic on [Z] with its wrap-around;
    - [outcome]: results of code that may read outside a vector (undefined
      behaviour in C++) or loop for longer than the fuel given;
    - [parse_rebalance], [print_rebalancing], [simulation],
      [compute_terminal_values], [simulations_ran]: the functions of the file.

    Theorems come after the definitions, grouped by the property they settle. *)

From Stdlib Require Import ZArith List String Bool Lia Arith QArith Qabs.
From Stdlib Require Import Lqa Qpower.
From Stdlib Require Import Sorting.Permutation Sorting.Sorted.
From Stdlib Require Import Floats.SpecFloat.
Import ListNotations.

Local Open Scope Z_scope.

(* ================================================================== *)
(** * Machine arithmetic *)

(** ** [size_t]: unsigned 64-bit integers *)

Module SizeT.

Definition modulus : Z := 2 ^ 64.
Definition max_value : Z := modulus - 1.

Definition wrap (z : Z) : Z := z mod modulus.

Definition add (a b : Z) : Z := wrap (a + b).
Definition sub (a b : Z) : Z := wrap (a - b).
Definition mul (a b : Z) : Z := wrap (a * b).
(** Division and remainder of in-range operands never leave the range. *)
Definition div (a b : Z) : Z := a / b.
Definition rem (a b : Z) : Z := a mod b.

Definition in_range (z : Z) : Prop := 0 <= z < modulus.

End SizeT.

(** ** [float]: IEEE-754 binary32 *)

Module F32.

Definition prec : Z := 24.
Definition emax : Z := 128.

Definition float : Type := spec_float.

Definition add : float -> float -> float := SFadd prec emax.
Definition sub : float -> float -> float := SFsub prec emax.
Definition mul : float -> float -> float := SFmul prec emax.
Definition div : float -> float -> float := SFdiv prec emax.
Definition abs : float -> float := SFabs.

Definition ltb : float -> float -> bool := SFltb.
Definition leb : float -> float -> bool := SFleb.
Definition gtb (a b : float) : bool := SFltb b a.
Definition geb (a b : float) : bool := SFleb b a.

(** Conversion of an integer ([float(n)], and the literals [1000.0f],
    [100.0f], [12.0f], [1.0f], which are all exact). *)
Definition of_Z (n : Z) : float := binary_normalize prec emax n 0 false.

Definition zero : float := S754_zero false.

(** A decimal literal without suffix is a [double]; [num / den] rounded to
    binary64 is the nearest double to the decimal fraction. *)
Definition double_literal (num den : Z) : spec_float :=
  SFdiv 53 1024 (binary_normalize 53 1024 num 0 false)
                (binary_normalize 53 1024 den 0 false).

(** Initialising a [float] from a [double] rounds to binary32. *)
Definition of_double (d : spec_float) : float :=
  match d with
  | S754_finite s m e => binary_round prec emax s m e
  | _ => d
  end.

(** [std::max(a, b)] is [(a < b) ? b : a]. *)
Definition max (a b : float) : float := if ltb a b then b else a.

(** [std::accumulate(first, last, 0.0f)] *)
Definition accumulate (l : list float) : float := fold_left add l zero.

(** The order that matters for the properties below: [0 <= x], which a NaN
    does not satisfy. *)
Definition nonneg (x : float) : Prop := leb zero x = true.

Definition is_nan (x : float) : bool :=
  match x with S754_nan => true | _ => false end.

Definition pos_finite (x : float) : Prop :=
  match x with S754_finite false _ _ => True | _ => False end.

(** The rational a finite float stands for (0 for the others). *)
Definition to_Q (x : float) : Q :=
  match x with
  | S754_finite s m e =>
      let mag := (inject_Z (Zpos m) * Qpower 2 e)%Q in
      if s then Qopp mag else mag
  | _ => 0%Q
  end.

End F32.

(* ================================================================== *)
(** * Outcomes of partial code *)

(** [Undefined] stands for an access outside a vector, which the source does
    not check; [OutOfFuel] for a loop that was still running when the fuel ran
    out. *)
Inductive outcome (A : Type) : Type :=
| Ok (a : A)
| Undefined
| OutOfFuel.

Arguments Ok {A} a.
Arguments Undefined {A}.
Arguments OutOfFuel {A}.

Definition bind {A B : Type} (x : outcome A) (f : A -> outcome B) : outcome B :=
  match x with
  | Ok a => f a
  | Undefined => Undefined
  | OutOfFuel => OutOfFuel
  end.

Notation "x <- c1 ;; c2" := (bind c1 (fun x => c2))
  (at level 61, c1 at next level, right associativity).
Notation "' pat <- c1 ;; c2" := (bind c1 (fun x => match x with pat => c2 end))
  (at level 61, pat pattern, c1 at next level, right associativity).

(** [for (size_t i = lo; i <= hi; ++i) body], the increment wrapping as
    [size_t] does. *)
Fixpoint for_le {S : Type} (fuel : nat) (i hi : Z)
         (body : Z -> S -> outcome S) (s : S) : outcome S :=
  if i <=? hi then
    match fuel with
    | O => OutOfFuel
    | Datatypes.S fuel' =>
        s' <- body i s ;;
        for_le fuel' (SizeT.add i 1) hi body s'
    end
  else Ok s.

(** Folding a body over an explicit list of indices. *)
Fixpoint foldM {A S : Type} (body : A -> S -> outcome S) (l : list A) (s : S)
  : outcome S :=
  match l with
  | [] => Ok s
  | a :: l' => s' <- body a s ;; foldM body l' s'
  end.

(** The integers [lo, lo + 1, ..., lo + n - 1]. *)
Fixpoint zrange (lo : Z) (n : nat) : list Z :=
  match n with
  | O => []
  | Datatypes.S n' => lo :: zrange (lo + 1) n'
  end.

(* ================================================================== *)
(** * Data model *)

(** Modelled from the spec: the declarations of [simulation.hpp] are missing;
    a rebalancing policy is one of four variants. *)
Inductive Rebalancing : Type := NONE | MONTHLY | YEARLY | THRESHOLD.

(** Modelled from the spec: the enumerators' underlying values, in the order
    of declaration. Only their being distinct matters. *)
Definition underlying (r : Rebalancing) : Z :=
  match r with
  | NONE => 0
  | MONTHLY => 1
  | YEARLY => 2
  | THRESHOLD => 3
  end.

(** Modelled from the spec: [swr::allocation], an asset and its weight in
    percent. *)
Record allocation : Type := mk_allocation {
  asset : string;
  allocation_ : F32.float
}.

(** Modelled from the spec: [swr::data], one monthly data point. *)
Record data : Type := mk_data {
  year : Z;
  month : Z;
  value : F32.float
}.

(** Modelled from the spec: [swr::results]; the counters start at zero. *)
Record results : Type := mk_results {
  successes : Z;
  failures : Z;
  success_rate : F32.float;
  tv_average : F32.float;
  tv_minimum : F32.float;
  tv_maximum : F32.float;
  tv_median : F32.float
}.

(** A [std::vector<swr::data>::const_iterator]: the vector it walks and a
    position in it. *)
Record cursor : Type := mk_cursor {
  series : list data;
  pos : nat
}.

(** [it->value] *)
Definition deref (c : cursor) : outcome F32.float :=
  match nth_error (series c) (pos c) with
  | Some d => Ok (value d)
  | None => Undefined
  end.

(** [++it] *)
Definition advance (c : cursor) : cursor :=
  mk_cursor (series c) (Datatypes.S (pos c)).

(** Modelled from the spec: [swr::get_start] is not in the source file. It
    returns a cursor positioned at the data point of the given (year, month);
    asking for a month the series does not have is undefined. *)
Fixpoint get_start_from (values : list data) (y m : Z) (at_ : nat)
  : outcome nat :=
  match values with
  | [] => Undefined
  | d :: rest =>
      if (year d =? y) && (month d =? m) then Ok at_
      else get_start_from rest y m (Datatypes.S at_)
  end.

Definition get_start (values : list data) (y m : Z) : outcome cursor :=
  p <- get_start_from values y m 0%nat ;;
  Ok (mk_cursor values p).

(* ================================================================== *)
(** * The rebalancing codec *)

Local Open Scope string_scope.

Definition parse_rebalance (str : string) : Rebalancing :=
  if String.eqb str "none" then NONE
  else if String.eqb str "monthly" then MONTHLY
  else if String.eqb str "yearly" then YEARLY
  else THRESHOLD.

(** The [switch] of [operator<<] on the underlying value; a value that is
    none of the four enumerators falls through to the last [return]. *)
Definition rebalancing_token (raw : Z) : string :=
  if (raw =? underlying NONE)%Z then "none"
  else if (raw =? underlying MONTHLY)%Z then "monthly"
  else if (raw =? underlying YEARLY)%Z then "yearly"
  else if (raw =? underlying THRESHOLD)%Z then "threshold"
  else "Unknown rebalancing".

(** [out << rebalance]: the stream is the text written so far. *)
Definition print_rebalancing (out : string) (rebalance : Rebalancing) : string :=
  out ++ rebalancing_token (underlying rebalance).

Local Close Scope string_scope.

(* ================================================================== *)
(** * Constants *)

(** [constexpr const float monthly_rebalancing_cost = 0.005;] and its
    siblings; the comment above them reads "In percent". *)
Definition monthly_rebalancing_cost : F32.float :=
  Eval vm_compute in F32.of_double (F32.double_literal 5 1000).
Definition yearly_rebalancing_cost : F32.float :=
  Eval vm_compute in F32.of_double (F32.double_literal 1 100).
Definition threshold_rebalancing_cost : F32.float :=
  Eval vm_compute in F32.of_double (F32.double_literal 1 100).

Definition f1000 : F32.float := Eval vm_compute in F32.of_Z 1000.
Definition f100 : F32.float := Eval vm_compute in F32.of_Z 100.
Definition f12 : F32.float := Eval vm_compute in F32.of_Z 12.
Definition f1 : F32.float := Eval vm_compute in F32.of_Z 1.

(** [const float start_value = 1000.0f;] *)
Definition start_value : F32.float := f1000.

(* ================================================================== *)
(** * Steps of one trial *)

(** The state a trial carries from month to month: the per-asset values, one
    return cursor per asset, the withdrawal amount and the inflation cursor. *)
Record trial_state : Type := mk_trial_state {
  current_values : list F32.float;
  returns : list cursor;
  withdrawal : F32.float;
  inflation : cursor
}.

(** [portfolio[i].allocation / 100.0f] *)
Definition target_weight (a : allocation) : F32.float :=
  F32.div (allocation_ a) f100.

(** The loop that fills [current_values] and [returns]; [values[i]] is read
    without a check. *)
Fixpoint init_assets (portfolio : list allocation) (values : list (list data))
         (y m : Z) : outcome (list F32.float * list cursor) :=
  match portfolio with
  | [] => Ok ([], [])
  | a :: portfolio' =>
      match values with
      | [] => Undefined
      | v :: values' =>
          c <- get_start v y m ;;
          '(vals, rets) <- init_assets portfolio' values' y m ;;
          Ok (F32.mul start_value (target_weight a) :: vals, c :: rets)
      end
  end.

(** [current_values[i] *= returns[i]->value; ++returns[i];] for every asset. *)
Fixpoint apply_returns (vals : list F32.float) (rets : list cursor)
  : outcome (list F32.float * list cursor) :=
  match vals, rets with
  | v :: vals', c :: rets' =>
      r <- deref c ;;
      '(vals'', rets'') <- apply_returns vals' rets' ;;
      Ok (F32.mul v r :: vals'', advance c :: rets'')
  | _, _ => Ok ([], [])
  end.

(** [current_values[i] *= 1.0f - cost / 100.0f;] for every asset. *)
Definition fee_factor (cost : F32.float) : F32.float :=
  F32.sub f1 (F32.div cost f100).

Definition pay_fees (cost : F32.float) (vals : list F32.float)
  : list F32.float :=
  map (fun v => F32.mul v (fee_factor cost)) vals.

(** [current_values[i] = total_value * (portfolio[i].allocation / 100.0f);]
    for every asset: the old values are overwritten. *)
Definition reset_to_targets (portfolio : list allocation) (total : F32.float)
           (vals : list F32.float) : list F32.float :=
  map (fun av => F32.mul total (target_weight (fst av))) (combine portfolio vals).

(** Monthly and yearly rebalancing: fees first, then the total of what is
    left, then the reset. *)
Definition rebalance_with_cost (cost : F32.float) (portfolio : list allocation)
           (vals : list F32.float) : list F32.float :=
  let paid := pay_fees cost vals in
  let total_value := F32.accumulate paid in
  reset_to_targets portfolio total_value paid.

(** The test of the threshold loop for one asset. *)
Definition deviates (threshold total_value : F32.float) (a : allocation)
           (v : F32.float) : bool :=
  F32.geb (F32.abs (F32.sub (target_weight a) (F32.div v total_value))) threshold.

(** The loop that sets the local flag [rebalance], leaving at the first
    asset that deviates. *)
Definition threshold_reached (threshold total_value : F32.float)
           (portfolio : list allocation) (vals : list F32.float) : bool :=
  existsb (fun av => deviates threshold total_value (fst av) (snd av))
          (combine portfolio vals).

(** Threshold rebalancing: the total is taken first, the fees are paid on
    the values, and the reset uses the total taken before the fees. *)
Definition threshold_rebalance (threshold : F32.float)
           (portfolio : list allocation) (vals : list F32.float)
  : list F32.float :=
  let total_value := F32.accumulate vals in
  if threshold_reached threshold total_value portfolio vals then
    let paid := pay_fees threshold_rebalancing_cost vals in
    reset_to_targets portfolio total_value paid
  else vals.

(** [value = std::max(0.0f, value - (value / total_value) * amount);] for
    every asset, the total taken before the loop. *)
Definition withdraw (amount : F32.float) (vals : list F32.float)
  : list F32.float :=
  let total_value := F32.accumulate vals in
  map (fun v => F32.max F32.zero
                 (F32.sub v (F32.mul (F32.div v total_value) amount))) vals.

(** The doubly nested loop over the years and months of a trial, for any
    month body and any end-of-year body. *)
Definition trial_loops {S : Type} (fuel : nat)
           (current_year current_month end_year end_month : Z)
           (month_body : Z -> Z -> S -> outcome S)
           (year_end : Z -> S -> outcome S) (s : S) : outcome S :=
  for_le fuel current_year end_year
    (fun y s =>
       s' <- for_le fuel (if y =? current_year then current_month else 1)
                         (if y =? end_year then end_month else 12)
                         (month_body y) s ;;
       year_end y s')
    s.

(** [size_t end_year = current_year + (current_month - 1 + months - 1) / 12;] *)
Definition trial_end_year (months current_year current_month : Z) : Z :=
  SizeT.add current_year
    (SizeT.div (SizeT.sub (SizeT.add (SizeT.sub current_month 1) months) 1) 12).

(** [size_t end_month = 1 + ((current_month - 1) + (months - 1) % 12) % 12;] *)
Definition trial_end_month (months current_month : Z) : Z :=
  SizeT.add 1
    (SizeT.rem (SizeT.add (SizeT.sub current_month 1)
                          (SizeT.rem (SizeT.sub months 1) 12)) 12).

(** The month handed to [get_start]: [(current_month % 12) + 1]. *)
Definition start_month (current_month : Z) : Z :=
  SizeT.add (SizeT.rem current_month 12) 1.

(* ================================================================== *)
(** * The simulation *)

(** What the two outer loops carry: the two counters of [res] and the
    terminal values pushed so far. *)
Record tally : Type := mk_tally {
  tally_successes : Z;
  tally_failures : Z;
  terminal_values : list F32.float
}.

(** [std::sort] with [operator<], as an insertion sort. Any sorting
    algorithm returns the same values in the same order when no value is a
    NaN, up to the order of [+0] and [-0]. *)
Fixpoint insert_sorted (x : F32.float) (l : list F32.float) : list F32.float :=
  match l with
  | [] => [x]
  | y :: l' => if F32.ltb x y then x :: l else y :: insert_sorted x l'
  end.

Definition sort (l : list F32.float) : list F32.float :=
  fold_right insert_sorted [] l.

(** [v[i]], [v.front()] and [v.back()], none of them checked. *)
Definition at_index (v : list F32.float) (i : Z) : outcome F32.float :=
  match nth_error v (Z.to_nat i) with
  | Some x => Ok x
  | None => Undefined
  end.

Definition front (v : list F32.float) : outcome F32.float :=
  match v with
  | x :: _ => Ok x
  | [] => Undefined
  end.

Definition back (v : list F32.float) : outcome F32.float :=
  match rev v with
  | x :: _ => Ok x
  | [] => Undefined
  end.

Definition size (v : list F32.float) : Z := Z.of_nat (List.length v).

(** [swr::results::compute_terminal_values] *)
Definition compute_terminal_values (res : results)
           (terminal_values : list F32.float) : outcome results :=
  let sorted := sort terminal_values in
  median <- at_index sorted (SizeT.add (SizeT.div (size sorted) 2) 1) ;;
  minimum <- front sorted ;;
  maximum <- back sorted ;;
  let average := F32.div (F32.accumulate sorted) (F32.of_Z (size sorted)) in
  Ok (mk_results (successes res) (failures res) (success_rate res)
                 average minimum maximum median).

Section Simulation.

Variable portfolio : list allocation.
Variable inflation_data : list data.
Variable values : list (list data).
Variable years : Z.
Variable wr : F32.float.
Variable start_year end_year : Z.
Variable monthly_wr : bool.
Variable rebalance : Rebalancing.
Variable threshold : F32.float.

(** [const size_t months = years * 12;] *)
Definition months : Z := SizeT.mul years 12.

(** The body of the loop over [m]. *)
Definition month_step (st : trial_state) : outcome trial_state :=
  '(vals, rets) <- apply_returns (current_values st) (returns st) ;;
  let vals :=
    match rebalance with
    | MONTHLY => rebalance_with_cost monthly_rebalancing_cost portfolio vals
    | _ => vals
    end in
  let vals :=
    match rebalance with
    | THRESHOLD => threshold_rebalance threshold portfolio vals
    | _ => vals
    end in
  factor <- deref (inflation st) ;;
  let withdrawal := F32.mul (withdrawal st) factor in
  let vals :=
    if monthly_wr then withdraw (F32.div withdrawal f12) vals else vals in
  Ok (mk_trial_state vals rets withdrawal (advance (inflation st))).

(** What the loop over [y] does after its loop over [m]. *)
Definition year_step (st : trial_state) : trial_state :=
  let vals := current_values st in
  let vals :=
    match rebalance with
    | YEARLY => rebalance_with_cost yearly_rebalancing_cost portfolio vals
    | _ => vals
    end in
  let vals :=
    if negb monthly_wr then withdraw (withdrawal st) vals else vals in
  mk_trial_state vals (returns st) (withdrawal st) (inflation st).

(** The state a trial starts from. *)
Definition trial_init (current_year current_month : Z) : outcome trial_state :=
  let withdrawal := F32.div (F32.mul start_value wr) f100 in
  '(vals, rets) <-
     init_assets portfolio values current_year (start_month current_month) ;;
  inflation <- get_start inflation_data current_year (start_month current_month) ;;
  Ok (mk_trial_state vals rets withdrawal inflation).

(** One trial: the body of the loop over [current_month], up to the
    terminal value. *)
Definition trial (fuel : nat) (current_year current_month : Z)
  : outcome F32.float :=
  let end_year := trial_end_year months current_year current_month in
  let end_month := trial_end_month months current_month in
  st <- trial_init current_year current_month ;;
  st <- trial_loops fuel current_year current_month end_year end_month
          (fun _ _ => month_step) (fun _ st => Ok (year_step st)) st ;;
  Ok (F32.accumulate (current_values st)).

(** The classification and the [push_back] that end the body. *)
Definition record_trial (final_value : F32.float) (t : tally) : tally :=
  if F32.gtb final_value F32.zero then
    mk_tally (SizeT.add (tally_successes t) 1) (tally_failures t)
             (terminal_values t ++ [final_value])
  else
    mk_tally (tally_successes t) (SizeT.add (tally_failures t) 1)
             (terminal_values t ++ [final_value]).

(** The two outer loops. *)
Definition run_trials (fuel : nat) : outcome tally :=
  for_le fuel start_year (SizeT.sub end_year years)
    (fun current_year t =>
       for_le fuel 1 12
         (fun current_month t =>
            final_value <- trial fuel current_year current_month ;;
            Ok (record_trial final_value t))
         t)
    (mk_tally 0 0 []).

(** [swr::simulation]. The file-level counter [simulations] is passed in and
    handed back updated. *)
Definition simulation (fuel : nat) (simulations : Z) : outcome (results * Z) :=
  t <- run_trials fuel ;;
  let rate :=
    F32.mul (F32.of_Z 100)
      (F32.div (F32.of_Z (tally_successes t))
               (F32.of_Z (SizeT.add (tally_successes t) (tally_failures t)))) in
  res <- compute_terminal_values
           (mk_results (tally_successes t) (tally_failures t) rate
                       F32.zero F32.zero F32.zero F32.zero)
           (terminal_values t) ;;
  Ok (res, SizeT.add simulations (size (terminal_values t))).

End Simulation.

(** [swr::simulations_ran] *)
Definition simulations_ran (simulations : Z) : Z := simulations.

(* ================================================================== *)
(** * Definitions used to state the properties *)


(** The order [std::sort] leaves between neighbours: the later one is not
    less than the earlier one. *)
Definition not_after (a b : F32.float) : Prop := F32.ltb b a = false.

(** The index [compute_terminal_values] reads the median at. *)
Definition median_index (n : Z) : Z := SizeT.add (SizeT.div n 2) 1.

(** ** The order of events in a trial *)

(** What the loops of a trial do, in the order they do it: a month body for
    month [m] of year [y], or the end-of-year actions of year [y]. *)
Inductive event : Type :=
| MonthStep (y m : Z)
| YearEnd (y : Z).

(** The loops of a trial with bodies that only log themselves. *)
Definition trial_trace (fuel : nat)
           (current_year current_month end_year end_month : Z)
  : outcome (list event) :=
  trial_loops fuel current_year current_month end_year end_month
    (fun y m log => Ok (log ++ [MonthStep y m]))
    (fun y log => Ok (log ++ [YearEnd y]))
    [].

(** Replaying one logged event with given bodies. *)
Definition run_event {S : Type} (month_body : Z -> Z -> S -> outcome S)
           (year_end : Z -> S -> outcome S) (e : event) (s : S) : outcome S :=
  match e with
  | MonthStep y m => month_body y m s
  | YearEnd y => year_end y s
  end.

(** The number of iterations of [for (i = lo; i <= hi; ++i)] when [hi] is
    not the largest [size_t]. *)
Definition trip_count (lo hi : Z) : nat := Z.to_nat (hi + 1 - lo).

(** The events of the iteration for year [y], and of the whole trial. *)
Definition year_events (current_year current_month end_year end_month y : Z)
  : list event :=
  let lo := if y =? current_year then current_month else 1 in
  let hi := if y =? end_year then end_month else 12 in
  map (MonthStep y) (zrange lo (trip_count lo hi)) ++ [YearEnd y].

Definition schedule (current_year current_month end_year end_month : Z)
  : list event :=
  flat_map (year_events current_year current_month end_year end_month)
           (zrange current_year (trip_count current_year end_year)).

Definition is_month_step (e : event) : bool :=
  match e with MonthStep _ _ => true | YearEnd _ => false end.

Definition is_year_end (e : event) : bool :=
  match e with MonthStep _ _ => false | YearEnd _ => true end.

(** The (year, month) pairs of the month steps of a log. *)
Fixpoint months_of (log : list event) : list (Z * Z) :=
  match log with
  | [] => []
  | MonthStep y m :: log' => (y, m) :: months_of log'
  | YearEnd _ :: log' => months_of log'
  end.

(** ** The calendar *)

(** The month after month [m] of year [y]. *)
Definition next_month (ym : Z * Z) : Z * Z :=
  let '(y, m) := ym in
  if m =? 12 then (y + 1, 1) else (y, m + 1).

(** [n] consecutive months, the first being [ym]. *)
Fixpoint calendar (ym : Z * Z) (n : nat) : list (Z * Z) :=
  match n with
  | O => []
  | Datatypes.S n' => ym :: calendar (next_month ym) n'
  end.

(** The number of month steps before the first end-of-year action. *)
Fixpoint months_before_first_year_end (log : list event) : nat :=
  match log with
  | [] => O
  | MonthStep _ _ :: log' => Datatypes.S (months_before_first_year_end log')
  | YearEnd _ :: _ => O
  end.

(** The events of a year that the trial goes through from January to
    December. *)
Definition full_year (y : Z) : list event :=
  map (MonthStep y) (zrange 1 12) ++ [YearEnd y].

(** The number of end-of-year actions in a log. *)
Definition year_ends (log : list event) : nat :=
  List.length (filter is_year_end log).

(** ** Series for examples *)

(** A series that holds the same factor [x] for [n] consecutive months, the
    first being [ym]. *)
Definition flat_series (ym : Z * Z) (n : nat) (x : F32.float) : list data :=
  map (fun ym => mk_data (fst ym) (snd ym) x) (calendar ym n).

(** The keys of a series. *)
Definition keys (s : list data) : list (Z * Z) :=
  map (fun d => (year d, month d)) s.

(** A series covers [n] consecutive months from January of year [y0] when
    these are its keys, in order. *)
Definition covers (s : list data) (y0 : Z) (n : nat) : Prop :=
  keys s = calendar (y0, 1) n.

(** The trial as a replay of a log of events. *)
Definition replay (portfolio : list allocation) (monthly_wr : bool)
           (rebalance : Rebalancing) (threshold : F32.float)
           (log : list event) (st : trial_state) : outcome trial_state :=
  foldM (run_event (fun _ _ => month_step portfolio monthly_wr rebalance threshold)
                   (fun _ st => Ok (year_step portfolio monthly_wr rebalance st)))
        log st.

(** The position of month [m] of year [y] in a series whose first point is
    January of year [y0]. *)
Definition month_index (y0 y m : Z) : nat := Z.to_nat (12 * (y - y0) + (m - 1)).

(** Months counted from year 0. *)
Definition ordinal (ym : Z * Z) : Z := 12 * fst ym + snd ym.

Definition valid_month (ym : Z * Z) : Prop := 1 <= snd ym <= 12.

(** ** Coverage *)

(** A cursor has room for [k] more reads. *)
Definition has_room (k : nat) (c : cursor) : Prop :=
  (pos c + k <= List.length (series c))%nat.

Definition state_has_room (k : nat) (st : trial_state) : Prop :=
  Forall (has_room k) (returns st) /\ has_room k (inflation st).

(** The number of trials of a run: twelve per start year. *)
Definition trial_count (years start_year end_year : Z) : Z :=
  12 * (end_year - years - start_year + 1).

(** The classification of a terminal value. *)
Definition is_success (final_value : F32.float) : bool :=
  F32.gtb final_value F32.zero.

(** The counters of a tally classify the terminal values pushed so far:
    each value counts once, as a success or as a failure. *)
Definition tally_classifies (t : tally) : Prop :=
  tally_successes t
    = Z.of_nat (List.length (filter is_success (terminal_values t))) /\
  tally_failures t
    = Z.of_nat (List.length (filter (fun v => negb (is_success v))
                                    (terminal_values t))).

(** The body of the loop over [current_month]. *)
Definition trial_body (portfolio : list allocation) (inflation_data : list data)
           (values : list (list data)) (years : Z) (wr : F32.float)
           (monthly_wr : bool) (rebalance : Rebalancing) (threshold : F32.float)
           (fuel : nat) (ym : Z * Z) (t : tally) : outcome tally :=
  final_value <- trial portfolio inflation_data values years wr monthly_wr
                       rebalance threshold fuel (fst ym) (snd ym) ;;
  Ok (record_trial final_value t).

(** ** Signs *)

(** A float that is a zero, a finite number or an infinity of sign [s]. *)
Definition has_sign (s : bool) (x : F32.float) : Prop :=
  match x with
  | S754_zero s' | S754_infinity s' | S754_finite s' _ _ => s' = s
  | S754_nan => False
  end.

(** The floats that are [>= 0]: both zeros, the positive finite numbers and
    [+infinity]. *)
Definition nonneg_shape (x : F32.float) : Prop :=
  match x with
  | S754_zero _ | S754_infinity false | S754_finite false _ _ => True
  | _ => False
  end.

(** Every factor of a series is a positive finite number. *)
Definition positive_series (s : list data) : Prop :=
  Forall (fun d => F32.pos_finite (value d)) s.

(** Every target share of a portfolio is a positive finite number. *)
Definition positive_targets (portfolio : list allocation) : Prop :=
  Forall (fun a => F32.pos_finite (target_weight a)) portfolio.

(** The invariant of a trial: no asset value is negative or a NaN, and the
    return cursors walk series of positive factors. *)
Definition values_nonneg (st : trial_state) : Prop :=
  Forall F32.nonneg (current_values st) /\
  Forall (fun c => positive_series (series c)) (returns st).

(** A portfolio of two assets, 60 and 40 percent, for examples. *)
Definition sixty_forty : list allocation :=
  [mk_allocation "stocks" (F32.of_Z 60); mk_allocation "bonds" (F32.of_Z 40)].

(** The factor 0.5: an asset that halves every month. *)
Definition one_half : F32.float := S754_finite false 8388608 (-24).

(** ** Rounding *)

(** [2^n] as a rational, for any integer [n]. *)
Definition pow2 (n : Z) : Q := Qpower 2 n.

(** What a location says about a rational [y] that was truncated to the
    integer [m]: [y] is [m], or lies below, at or above [m + 1/2]. *)
Definition inbetween (m : Z) (l : location) (y : Q) : Prop :=
  match l with
  | loc_Exact => (y == inject_Z m)%Q
  | loc_Inexact Lt => (inject_Z m < y /\ y < inject_Z m + (1#2))%Q
  | loc_Inexact Eq => (y == inject_Z m + (1#2))%Q
  | loc_Inexact Gt => (inject_Z m + (1#2) < y /\ y < inject_Z m + 1)%Q
  end.

Definition record_inbetween (mrs : shr_record) (y : Q) : Prop :=
  inbetween (shr_m mrs) (loc_of_shr_record mrs) y.

(** A finite float whose mantissa fits the 24 bits of binary32 and whose
    exponent is not below the smallest one. *)
Definition bounded_float (x : F32.float) : Prop :=
  match x with
  | S754_finite _ m e => Z.pos m < 2 ^ 24 /\ -149 <= e
  | _ => True
  end.

Definition finite_or_zero (x : F32.float) : Prop :=
  match x with
  | S754_zero _ | S754_finite _ _ _ => True
  | _ => False
  end.

(** [v] is not above [total], which may have overflowed to [+infinity]. *)
Definition dominated (v total : F32.float) : Prop :=
  total = S754_infinity false \/
  (finite_or_zero v /\ finite_or_zero total /\ (F32.to_Q v <= F32.to_Q total)%Q).

(** ** A threshold of one *)

(** What an asset can be worth when no factor is negative: a NaN, or a
    number that is [>= 0]. *)
Definition ok_value (x : F32.float) : Prop :=
  x = S754_nan \/ (nonneg_shape x /\ bounded_float x).

(** A target share that is a binary32 number in [[2^-24, 1 - 2^-24]]. *)
Definition share_in_range (t : F32.float) : Prop :=
  exists m e,
    t = S754_finite false m e /\
    canonical_mantissa F32.prec F32.emax m e = true /\
    (pow2 (-24) <= F32.to_Q t)%Q /\ (F32.to_Q t <= 1 - pow2 (-24))%Q.

(** Every factor of a series is [>= 0]. *)
Definition nonneg_series (s : list data) : Prop :=
  Forall (fun d => F32.nonneg (value d)) s.

(** A target share of exactly zero. *)
Definition zero_share (t : F32.float) : Prop := t = S754_zero false.

(** What an asset with a zero share is worth: nothing, or not a number. *)
Definition idle_value (v : F32.float) : Prop :=
  match v with
  | S754_zero _ | S754_nan => True
  | _ => False
  end.

(** One asset holds the whole portfolio: its share is [1.0f], every other
    share is zero. *)
Definition only_asset (portfolio : list allocation) : Prop :=
  exists l a r,
    portfolio = l ++ a :: r /\ target_weight a = f1 /\
    Forall (fun b => zero_share (target_weight b)) l /\
    Forall (fun b => zero_share (target_weight b)) r.

(** The portfolios for which a deviation of one is out of reach: every
    share is zero or in [[2^-24, 1 - 2^-24]], or one asset holds it all. *)
Definition targets_supported (portfolio : list allocation) : Prop :=
  Forall (fun a => zero_share (target_weight a) \/
                   share_in_range (target_weight a)) portfolio
  \/ only_asset portfolio.

Definition asset_ok (a : allocation) (v : F32.float) : Prop :=
  ok_value v /\ (zero_share (target_weight a) -> idle_value v).

(** The invariant of a trial without negative factors: one value per asset,
    none of them negative, those of the assets with a zero share idle, and
    one return cursor per value. *)
Definition values_ok (portfolio : list allocation) (st : trial_state) : Prop :=
  Forall2 asset_ok portfolio (current_values st) /\
  Forall (fun c => nonneg_series (series c)) (returns st) /\
  List.length (returns st) = List.length (current_values st).

(** ** Edge cases *)

(** A value of zero, of either sign. *)
Definition is_zero (v : F32.float) : Prop :=
  match v with S754_zero _ => True | _ => False end.

(** The four tokens of the formatter. *)
Definition rebalancing_tokens : list string :=
  ["none"; "monthly"; "yearly"; "threshold"]%string.

(** The tally before the first trial. *)
Definition empty_tally : tally := mk_tally 0 0 [].

(** The target share of each asset that has a value, times [total]. *)
Definition shares_of (total : F32.float) (portfolio : list allocation)
           (vals : list F32.float) : list F32.float :=
  map (fun a => F32.mul total (target_weight a))
      (firstn (List.length vals) portfolio).

(** A finite float within the range of binary32: a mantissa of at most 24
    bits and an exponent from -149 to 104. *)
Definition in_binary32_range (x : F32.float) : Prop :=
  match x with
  | S754_finite _ m e => Z.pos m < 2 ^ 24 /\ -149 <= e <= 104
  | _ => True
  end.

(** A NaN, or a number that is [>= 0]. *)
Definition nan_or_nonneg (x : F32.float) : Prop :=
  x = S754_nan \/ nonneg_shape x.

(** A finite value that is [>= 0], as an asset has it before overflow. *)
Definition holding (v : F32.float) : Prop :=
  nonneg_shape v /\ finite_or_zero v /\ in_binary32_range v.

(** [v'] is a finite number from 0 to [v]. *)
Definition not_raised (v v' : F32.float) : Prop :=
  finite_or_zero v' /\ (0 <= F32.to_Q v' <= F32.to_Q v)%Q.

(** The cursor [k] data points further on. *)
Definition skip (k : nat) (c : cursor) : cursor :=
  mk_cursor (series c) (pos c + k).

(** The [k] values that a cursor reads from where it stands (fewer when
    the series ends before). *)
Definition values_ahead (k : nat) (c : cursor) : list F32.float :=
  map value (firstn k (skipn (pos c) (series c))).

(** One value and one return cursor per asset. *)
Definition one_per_asset (portfolio : list allocation) (st : trial_state)
  : Prop :=
  List.length (current_values st) = List.length portfolio /\
  List.length (returns st) = List.length portfolio.

(** Every factor of a series is a finite number. *)
Definition finite_series (s : list data) : Prop :=
  Forall (fun d => finite_or_zero (value d)) s.

(** A trial state in which every asset is worth nothing, over series of
    finite factors. *)
Definition depleted (st : trial_state) : Prop :=
  Forall is_zero (current_values st) /\
  Forall (fun c => finite_series (series c)) (returns st).

(** ** The order of binary32 *)

(** A key whose lexicographic order is the order [SFcompare] puts on the
    floats that are not NaNs. *)
Definition order_key (x : F32.float) : Z * Z * Z :=
  match x with
  | S754_zero _ | S754_nan => (0, 0, 0)
  | S754_infinity s => (if s then -2 else 2, 0, 0)
  | S754_finite s m e =>
      if s then (-1, - e, - Z.pos m) else (1, e, Z.pos m)
  end.

Definition lex_compare (p q : Z * Z * Z) : comparison :=
  match fst (fst p) ?= fst (fst q) with
  | Eq =>
      match snd (fst p) ?= snd (fst q) with
      | Eq => snd p ?= snd q
      | c => c
      end
  | c => c
  end.

Definition lex_le (p q : Z * Z * Z) : Prop :=
  fst (fst p) < fst (fst q) \/
  (fst (fst p) = fst (fst q) /\
   (snd (fst p) < snd (fst q) \/
    (snd (fst p) = snd (fst q) /\ snd p <= snd q))).

Definition not_nan (x : F32.float) : Prop := x <> S754_nan.

(** [a <= b] between two floats that are not NaNs. *)
Definition ordered (a b : F32.float) : Prop :=
  not_nan a /\ not_nan b /\ F32.leb a b = true.

(** A series spans the years [first_year] to [last_year] when it holds
    consecutive months, one data point each, that begin in January of
    [first_year] or before and end in December of [last_year] or after. *)
Definition spans (s : list data) (first_year last_year : Z) : Prop :=
  exists ym n,
    keys s = calendar ym n /\ valid_month ym /\
    ordinal ym <= ordinal (first_year, 1) /\
    ordinal (last_year, 12) < ordinal ym + Z.of_nat n.

(** ** Part II: properties *)

(* ================================================================== *)
(** * The rebalancing codec: round trip *)

Local Open Scope string_scope.

(** C10. For each of the four variants the formatter appends one of the
    tokens "none", "monthly", "yearly", "threshold" to the stream, never the
    fallback text, and [parse_rebalance] maps that token back to the
    variant. *)
Theorem rebalancing_codec_round_trip : forall r : Rebalancing,
  let token := rebalancing_token (underlying r) in
  In token ["none"; "monthly"; "yearly"; "threshold"] /\
  token <> "Unknown rebalancing" /\
  (forall out, print_rebalancing out r = out ++ token) /\
  parse_rebalance token = r.
Proof.
  intros r; destruct r; cbn; repeat split; auto; discriminate.
Qed.

Local Close Scope string_scope.

(* ================================================================== *)
(** * Rebalancing fees *)





(* ================================================================== *)
(** * Terminal value statistics *)

Lemma ltb_asym : forall x y, F32.ltb x y = true -> F32.ltb y x = false.
Proof.
  intros x y. unfold F32.ltb, SFltb, SFcompare.
  destruct x as [[]|[]| |[] m1 e1], y as [[]|[]| |[] m2 e2];
    try discriminate; try reflexivity;
    rewrite (Z.compare_antisym e1 e2);
    assert (Hm : Pos.compare_cont Eq m2 m1 = CompOpp (Pos.compare_cont Eq m1 m2))
      by (symmetry; apply (Pos.compare_cont_antisym m1 m2 Eq));
    rewrite Hm;
    destruct (e1 ?= e2)%Z; cbn; try discriminate; try reflexivity;
    destruct (Pos.compare_cont Eq m1 m2); cbn; try discriminate; reflexivity.
Qed.

Lemma insert_sorted_perm : forall x l, Permutation (x :: l) (insert_sorted x l).
Proof.
  intros x l; induction l as [|y l IH]; cbn.
  - apply Permutation_refl.
  - destruct (F32.ltb x y).
    + apply Permutation_refl.
    + eapply perm_trans; [apply perm_swap|]. apply perm_skip, IH.
Qed.

Lemma sort_perm : forall l, Permutation l (sort l).
Proof.
  induction l as [|x l IH]; cbn.
  - apply perm_nil.
  - eapply perm_trans; [apply perm_skip, IH|]. apply insert_sorted_perm.
Qed.

Lemma sort_length : forall l, List.length (sort l) = List.length l.
Proof. intros l. symmetry. apply Permutation_length, sort_perm. Qed.

Lemma insert_sorted_locally_sorted : forall x l,
  LocallySorted not_after l -> LocallySorted not_after (insert_sorted x l).
Proof.
  intros x l H; induction H as [|y|y z l Hl IH Hyz]; cbn.
  - constructor.
  - destruct (F32.ltb x y) eqn:E.
    + constructor; [constructor|]. unfold not_after. now apply ltb_asym.
    + constructor; [constructor|]. exact E.
  - destruct (F32.ltb x y) eqn:E.
    + constructor.
      * constructor; assumption.
      * unfold not_after. now apply ltb_asym.
    + cbn in IH. destruct (F32.ltb x z) eqn:E'.
      * constructor; [exact IH | exact E].
      * constructor; [exact IH | exact Hyz].
Qed.

Lemma sort_locally_sorted : forall l, LocallySorted not_after (sort l).
Proof.
  induction l as [|x l IH]; cbn.
  - constructor.
  - now apply insert_sorted_locally_sorted.
Qed.

Lemma at_index_spec : forall v i,
  0 <= i ->
  (i < size v -> exists x, at_index v i = Ok x /\ nth_error v (Z.to_nat i) = Some x)
  /\ (size v <= i -> at_index v i = Undefined).
Proof.
  intros v i Hi. unfold at_index, size. split; intros H.
  - destruct (nth_error v (Z.to_nat i)) as [x|] eqn:E.
    + now exists x.
    + apply nth_error_None in E. lia.
  - assert (E : nth_error v (Z.to_nat i) = None)
      by (apply nth_error_None; lia).
    now rewrite E.
Qed.

Lemma front_spec : forall v,
  (v <> [] -> exists x, front v = Ok x /\ nth_error v 0 = Some x).
Proof.
  intros [|x v] H; [congruence|]. now exists x.
Qed.

Lemma back_spec : forall v,
  v <> [] ->
  exists x, back v = Ok x /\ nth_error v (List.length v - 1) = Some x.
Proof.
  intros v H. unfold back.
  destruct (rev v) as [|x r] eqn:E.
  - apply (f_equal (@rev _)) in E. rewrite rev_involutive in E. now subst.
  - exists x. split; [reflexivity|].
    assert (Hv : v = rev r ++ [x]).
    { rewrite <- (rev_involutive v), E. reflexivity. }
    rewrite Hv, length_app, nth_error_app2; cbn; [|lia].
    replace (List.length (rev r) + 1 - 1 - List.length (rev r))%nat with 0%nat
      by lia.
    reflexivity.
Qed.

Lemma median_index_small : forall n,
  0 <= n < SizeT.modulus -> median_index n = n / 2 + 1.
Proof.
  intros n Hn. unfold median_index, SizeT.add, SizeT.div, SizeT.wrap.
  apply Z.mod_small. unfold SizeT.modulus in *.
  change (2 ^ 64) with 18446744073709551616 in *.
  Z.to_euclidean_division_equations; lia.
Qed.

(** C6, amended. [compute_terminal_values] sorts the [n] terminal values
    ascending and reads the median at index [n / 2 + 1] of the sorted
    sequence. The access is out of bounds when [n] is 0, 1 or 2, and the
    call is undefined then; for every [n >= 3] it is in bounds, the minimum
    and the maximum are the two ends of the sorted sequence and the average
    is its sum divided by [n]. *)
Theorem compute_terminal_values_median_bounds :
  forall (res : results) (tvs : list F32.float),
    size tvs < SizeT.modulus ->
    let n := size tvs in
    let sorted := sort tvs in
    Permutation tvs sorted /\
    LocallySorted not_after sorted /\
    median_index n = n / 2 + 1 /\
    (n <= 2 ->
       at_index sorted (median_index n) = Undefined /\
       compute_terminal_values res tvs = Undefined) /\
    (3 <= n ->
       exists median minimum maximum,
         nth_error sorted (Z.to_nat (n / 2 + 1)) = Some median /\
         nth_error sorted 0 = Some minimum /\
         nth_error sorted (Z.to_nat (n - 1)) = Some maximum /\
         compute_terminal_values res tvs =
           Ok (mk_results (successes res) (failures res) (success_rate res)
                 (F32.div (F32.accumulate sorted) (F32.of_Z n))
                 minimum maximum median)).
Proof.
  intros res tvs Hn n sorted.
  assert (Hsz : size sorted = n).
  { unfold size, sorted, n. now rewrite sort_length. }
  assert (Hn0 : 0 <= n) by (unfold n, size; lia).
  assert (Hidx : median_index n = n / 2 + 1)
    by (apply median_index_small; fold n in Hn; lia).
  split; [apply sort_perm|].
  split; [apply sort_locally_sorted|].
  split; [exact Hidx|].
  assert (Hhalf : 0 <= n / 2) by (Z.to_euclidean_division_equations; lia).
  split.
  - intros Hle.
    assert (Hoob : at_index sorted (median_index n) = Undefined).
    { rewrite Hidx. apply at_index_spec; [lia|]. rewrite Hsz.
      assert (n = 0 \/ n = 1 \/ n = 2) as [->| [->| ->]] by lia;
        cbn; lia. }
    split; [exact Hoob|].
    unfold compute_terminal_values. fold sorted. rewrite Hsz.
    unfold median_index in Hoob. now rewrite Hoob.
  - intros Hge.
    assert (Hin : n / 2 + 1 < size sorted).
    { rewrite Hsz. Z.to_euclidean_division_equations; lia. }
    destruct (proj1 (at_index_spec sorted (n / 2 + 1) ltac:(lia)) Hin)
      as (median & Hmed & Hmed').
    assert (Hne : sorted <> []).
    { intros E. rewrite E in Hsz. cbn in Hsz. lia. }
    destruct (front_spec sorted Hne) as (minimum & Hmin & Hmin').
    destruct (back_spec sorted Hne) as (maximum & Hmax & Hmax').
    exists median, minimum, maximum.
    split; [exact Hmed'|]. split; [exact Hmin'|].
    split.
    + rewrite <- Hmax'. f_equal. unfold size in Hsz. lia.
    + unfold compute_terminal_values. fold sorted. rewrite Hsz.
      unfold median_index in Hidx. rewrite Hidx, Hmed. cbn.
      rewrite Hmin, Hmax. cbn. reflexivity.
Qed.

(** With two terminal values the median index is 2, one past the end. *)
Lemma median_of_two_is_out_of_bounds :
  let tvs := [f1000; f1] in
  size tvs = 2 /\
  median_index (size tvs) = 2 /\
  at_index (sort tvs) (median_index (size tvs)) = Undefined /\
  compute_terminal_values
    (mk_results 2 0 f100 F32.zero F32.zero F32.zero F32.zero) tvs = Undefined.
Proof. vm_compute. repeat split. Qed.

(** An instance with three terminal values: the median read is the largest
    of them. *)
Lemma compute_terminal_values_median_bounds_witness :
  let res := mk_results 3 0 f100 F32.zero F32.zero F32.zero F32.zero in
  let tvs := [f1000; f1; f100] in
  size tvs < SizeT.modulus /\
  3 <= size tvs /\
  exists median minimum maximum,
    nth_error (sort tvs) (Z.to_nat (size tvs / 2 + 1)) = Some median /\
    nth_error (sort tvs) 0 = Some minimum /\
    nth_error (sort tvs) (Z.to_nat (size tvs - 1)) = Some maximum /\
    compute_terminal_values res tvs =
      Ok (mk_results (successes res) (failures res) (success_rate res)
            (F32.div (F32.accumulate (sort tvs)) (F32.of_Z (size tvs)))
            minimum maximum median).
Proof.
  intros res tvs.
  assert (Hsize : size tvs < SizeT.modulus) by (vm_compute; reflexivity).
  assert (Hthree : 3 <= size tvs) by (vm_compute; discriminate).
  split; [exact Hsize|]. split; [exact Hthree|].
  exact (proj2 (proj2 (proj2 (proj2
           (compute_terminal_values_median_bounds res tvs Hsize)))) Hthree).
Defined.

(* ================================================================== *)
(** * Loops *)

Lemma bind_Ok : forall {A B : Type} (a : A) (f : A -> outcome B),
  bind (Ok a) f = f a.
Proof. reflexivity. Qed.

Lemma foldM_app : forall {A S : Type} (body : A -> S -> outcome S) l1 l2 s,
  foldM body (l1 ++ l2) s = (s' <- foldM body l1 s ;; foldM body l2 s').
Proof.
  intros A S body l1; induction l1 as [|a l1 IH]; intros l2 s; cbn.
  - reflexivity.
  - destruct (body a s); cbn; auto.
Qed.

Lemma foldM_ext_in : forall {A S : Type} (f g : A -> S -> outcome S) l s,
  (forall a s, In a l -> f a s = g a s) -> foldM f l s = foldM g l s.
Proof.
  intros A S f g l; induction l as [|a l IH]; intros s H; cbn.
  - reflexivity.
  - rewrite (H a s (or_introl eq_refl)).
    destruct (g a s); cbn; auto. apply IH. intros; apply H; now right.
Qed.

Lemma zrange_length : forall n lo, List.length (zrange lo n) = n.
Proof. induction n; intros; cbn; auto. Qed.

Lemma zrange_In : forall n lo i, In i (zrange lo n) <-> lo <= i < lo + Z.of_nat n.
Proof.
  induction n as [|n IH]; intros lo i; cbn -[Z.of_nat].
  - split; [tauto|lia].
  - rewrite IH. lia.
Qed.

Lemma zrange_app : forall n1 n2 lo,
  zrange lo (n1 + n2) = zrange lo n1 ++ zrange (lo + Z.of_nat n1) n2.
Proof.
  induction n1 as [|n1 IH]; intros n2 lo.
  - cbn. now rewrite Z.add_0_r.
  - cbn -[Z.of_nat]. rewrite IH. do 3 f_equal. lia.
Qed.

Lemma size_t_succ : forall i hi,
  0 <= i -> i <= hi -> hi < SizeT.max_value -> SizeT.add i 1 = i + 1.
Proof.
  intros i hi H0 H1 H2. unfold SizeT.add, SizeT.wrap.
  apply Z.mod_small. unfold SizeT.max_value in H2. lia.
Qed.

(** A counting loop whose bound is below the largest [size_t] runs its body
    on [lo], [lo + 1], ..., [hi] in turn, given fuel for that many rounds. *)
Lemma for_le_zrange : forall {S : Type} fuel lo hi (body : Z -> S -> outcome S) s,
  0 <= lo -> hi < SizeT.max_value -> (trip_count lo hi <= fuel)%nat ->
  for_le fuel lo hi body s = foldM body (zrange lo (trip_count lo hi)) s.
Proof.
  intros S fuel; induction fuel as [|fuel IH]; intros lo hi body s Hlo Hhi Hf;
    unfold trip_count in *.
  - cbn. destruct (lo <=? hi) eqn:E.
    + apply Z.leb_le in E. lia.
    + apply Z.leb_gt in E. replace (Z.to_nat (hi + 1 - lo)) with 0%nat by lia.
      reflexivity.
  - cbn. destruct (lo <=? hi) eqn:E.
    + apply Z.leb_le in E.
      replace (Z.to_nat (hi + 1 - lo))
        with (Datatypes.S (Z.to_nat (hi + 1 - (lo + 1)))) by lia.
      cbn. rewrite (size_t_succ lo hi) by assumption.
      destruct (body lo s); cbn; auto.
      apply IH; lia.
    + apply Z.leb_gt in E. replace (Z.to_nat (hi + 1 - lo)) with 0%nat by lia.
      reflexivity.
Qed.

Lemma foldM_flat_map : forall {A B S : Type} (f : A -> list B)
                              (body : B -> S -> outcome S) l s,
  foldM body (flat_map f l) s = foldM (fun a s => foldM body (f a) s) l s.
Proof.
  intros A B S f body l; induction l as [|a l IH]; intros s; cbn.
  - reflexivity.
  - rewrite foldM_app. destruct (foldM body (f a) s); cbn; auto.
Qed.

Lemma foldM_map : forall {A B S : Type} (f : A -> B)
                         (body : B -> S -> outcome S) l s,
  foldM body (map f l) s = foldM (fun a => body (f a)) l s.
Proof.
  intros A B S f body l; induction l as [|a l IH]; intros s; cbn.
  - reflexivity.
  - destruct (body (f a) s); cbn; auto.
Qed.

(** The loops of a trial run their bodies in the order of [schedule]. *)
Lemma trial_loops_schedule :
  forall {S : Type} fuel cy cm ey em
         (month_body : Z -> Z -> S -> outcome S)
         (year_end : Z -> S -> outcome S) s,
    0 <= cy -> ey < SizeT.max_value -> 1 <= cm -> 1 <= em <= 12 ->
    (trip_count cy ey <= fuel)%nat -> (12 <= fuel)%nat ->
    trial_loops fuel cy cm ey em month_body year_end s =
    foldM (run_event month_body year_end) (schedule cy cm ey em) s.
Proof.
  intros S fuel cy cm ey em mb ye s Hcy Hey Hcm Hem Hf Hf12.
  unfold trial_loops, schedule.
  rewrite for_le_zrange by assumption.
  rewrite foldM_flat_map.
  apply foldM_ext_in. intros y s' Hy.
  unfold year_events. rewrite foldM_app, foldM_map.
  set (lo := if y =? cy then cm else 1).
  set (hi := if y =? ey then em else 12).
  assert (Hlo : 1 <= lo) by (unfold lo; destruct (y =? cy); lia).
  assert (Hhi : hi <= 12) by (unfold hi; destruct (y =? ey); lia).
  rewrite for_le_zrange.
  - cbn. destruct (foldM _ _ s'); cbn; auto. destruct (ye y a); reflexivity.
  - lia.
  - unfold SizeT.max_value, SizeT.modulus. cbn. lia.
  - unfold trip_count. lia.
Qed.

Lemma foldM_log : forall l log0,
  foldM (run_event (fun y m log => Ok (log ++ [MonthStep y m]))
                   (fun y log => Ok (log ++ [YearEnd y]))) l log0
  = Ok (log0 ++ l).
Proof.
  induction l as [|e l IH]; intros log0; cbn.
  - now rewrite app_nil_r.
  - destruct e; cbn; rewrite IH, <- app_assoc; reflexivity.
Qed.

(** In particular the log of a trial is its schedule. *)
Lemma trial_trace_schedule : forall fuel cy cm ey em,
  0 <= cy -> ey < SizeT.max_value -> 1 <= cm -> 1 <= em <= 12 ->
  (trip_count cy ey <= fuel)%nat -> (12 <= fuel)%nat ->
  trial_trace fuel cy cm ey em = Ok (schedule cy cm ey em).
Proof.
  intros. unfold trial_trace.
  rewrite trial_loops_schedule by assumption. apply foldM_log.
Qed.

(* ================================================================== *)
(** * The horizon of a trial *)

Ltac div_arith := Z.to_euclidean_division_equations; lia.

(** Removes the reductions modulo [2 ^ 64] that do nothing, innermost
    first, then finishes by linear arithmetic. *)
Ltac size_t_arith :=
  unfold SizeT.add, SizeT.sub, SizeT.mul, SizeT.div, SizeT.rem, SizeT.wrap,
    SizeT.max_value, SizeT.modulus in *;
  change (2 ^ 64) with 18446744073709551616 in *;
  repeat match goal with
         | |- context [?a mod 18446744073709551616] =>
             rewrite (Z.mod_small a 18446744073709551616) by div_arith
         end;
  div_arith.

Lemma months_no_wrap : forall years,
  0 <= years -> 12 * years < SizeT.modulus -> months years = 12 * years.
Proof. intros. unfold months. size_t_arith. Qed.

(** Where a trial of [years >= 1] years ends. *)
Lemma trial_end_spec : forall years cy cm,
  1 <= years -> 1 <= cm <= 12 -> 0 <= cy ->
  cy + years < SizeT.max_value -> 12 * years + 12 <= SizeT.modulus ->
  trial_end_year (months years) cy cm
    = (if cm =? 1 then cy + years - 1 else cy + years) /\
  trial_end_month (months years) cm = (if cm =? 1 then 12 else cm - 1).
Proof.
  intros years cy cm Hy Hcm Hcy Hov Hov'.
  rewrite months_no_wrap by lia.
  assert (Hm : 12 * years + 12 <= 18446744073709551616) by exact Hov'.
  assert (Hlast : SizeT.rem (SizeT.sub (12 * years) 1) 12 = 11).
  { unfold SizeT.rem, SizeT.sub, SizeT.wrap, SizeT.modulus in *.
    rewrite (Z.mod_small (12 * years - 1)) by lia.
    replace (12 * years - 1) with (11 + (years - 1) * 12) by lia.
    now rewrite Z.mod_add. }
  unfold trial_end_year, trial_end_month. rewrite Hlast. clear Hlast.
  destruct (cm =? 1) eqn:E; [apply Z.eqb_eq in E | apply Z.eqb_neq in E];
    split; size_t_arith.
Qed.

(** A trial that starts in January goes through [years] full years. *)
Lemma schedule_january : forall cy years,
  1 <= years ->
  schedule cy 1 (cy + years - 1) 12 = flat_map full_year (zrange cy (Z.to_nat years)).
Proof.
  intros cy years Hy. unfold schedule, trip_count.
  replace (cy + years - 1 + 1 - cy) with years by lia.
  apply flat_map_ext. intros y. unfold year_events, full_year.
  destruct (y =? cy), (y =? cy + years - 1); reflexivity.
Qed.

Lemma flat_map_ext_in : forall {A B : Type} (f g : A -> list B) l,
  (forall a, In a l -> f a = g a) -> flat_map f l = flat_map g l.
Proof.
  intros A B f g l; induction l as [|a l IH]; intros H; cbn.
  - reflexivity.
  - rewrite (H a (or_introl eq_refl)), IH; auto.
    intros; apply H; now right.
Qed.

(** A trial that starts later in the year goes through the rest of its
    first year, [years - 1] full years, and the months of a last year up to
    the month before its start month: [years + 1] calendar years in all. *)
Lemma schedule_mid_year : forall cy cm years,
  1 <= years -> 2 <= cm <= 12 ->
  schedule cy cm (cy + years) (cm - 1) =
    (map (MonthStep cy) (zrange cm (Z.to_nat (13 - cm))) ++ [YearEnd cy])
    ++ flat_map full_year (zrange (cy + 1) (Z.to_nat (years - 1)))
    ++ (map (MonthStep (cy + years)) (zrange 1 (Z.to_nat (cm - 1)))
        ++ [YearEnd (cy + years)]).
Proof.
  intros cy cm years Hy Hcm. unfold schedule, trip_count.
  replace (Z.to_nat (cy + years + 1 - cy))
    with (1 + (Z.to_nat (years - 1) + 1))%nat by lia.
  rewrite zrange_app, zrange_app, !flat_map_app.
  f_equal; [|f_equal].
  - cbn. rewrite app_nil_r. unfold year_events, trip_count.
    rewrite Z.eqb_refl.
    replace (cy =? cy + years) with false by (symmetry; apply Z.eqb_neq; lia).
    replace (12 + 1 - cm) with (13 - cm) by lia. reflexivity.
  - apply flat_map_ext_in. intros y Hin. apply zrange_In in Hin.
    unfold year_events, full_year.
    replace (y =? cy) with false by (symmetry; apply Z.eqb_neq; lia).
    replace (y =? cy + years) with false by (symmetry; apply Z.eqb_neq; lia).
    reflexivity.
  - cbn -[Z.of_nat]. rewrite app_nil_r. unfold year_events, trip_count.
    replace (cy + Z.of_nat 1 + Z.of_nat (Z.to_nat (years - 1)))
      with (cy + years) by lia.
    rewrite Z.eqb_refl.
    replace (cy + years =? cy) with false by (symmetry; apply Z.eqb_neq; lia).
    replace (cm - 1 + 1 - 1) with (cm - 1) by lia. reflexivity.
Qed.

Lemma months_of_app : forall l1 l2,
  months_of (l1 ++ l2) = months_of l1 ++ months_of l2.
Proof.
  induction l1 as [|[y m|y] l1 IH]; intros l2; cbn; auto. now rewrite IH.
Qed.

Lemma months_of_month_steps : forall y l,
  months_of (map (MonthStep y) l) = map (pair y) l.
Proof. induction l as [|m l IH]; cbn; auto. now rewrite IH. Qed.

Lemma months_of_full_year : forall y,
  months_of (full_year y) = map (pair y) (zrange 1 12).
Proof.
  intros y. unfold full_year.
  now rewrite months_of_app, months_of_month_steps, app_nil_r.
Qed.

Lemma calendar_app : forall n1 n2 ym,
  calendar ym (n1 + n2) = calendar ym n1 ++ calendar (Nat.iter n1 next_month ym) n2.
Proof.
  induction n1 as [|n1 IH]; intros n2 ym.
  - reflexivity.
  - cbn [Nat.add calendar app]. rewrite IH, Nat.iter_succ_r. reflexivity.
Qed.

(** Months within one calendar year. *)
Lemma calendar_within_year : forall k y m,
  1 <= m <= 12 -> m + Z.of_nat k <= 13 ->
  calendar (y, m) k = map (pair y) (zrange m k) /\
  Nat.iter k next_month (y, m)
    = (if m + Z.of_nat k =? 13 then (y + 1, 1) else (y, m + Z.of_nat k)).
Proof.
  induction k as [|k IH]; intros y m Hm Hk.
  - cbn. rewrite Z.add_0_r. split; [reflexivity|].
    replace (m =? 13) with false by (symmetry; apply Z.eqb_neq; lia).
    reflexivity.
  - destruct (Z.eq_dec m 12) as [->|Hne].
    + assert (k = 0%nat) by lia. subst k. cbn. split; reflexivity.
    + assert (Hneb : (m =? 12) = false) by (apply Z.eqb_neq; lia).
      destruct (IH y (m + 1)) as [IH1 IH2]; [lia | lia |].
      split.
      * cbn [calendar zrange map]. f_equal. unfold next_month at 1.
        rewrite Hneb. exact IH1.
      * rewrite Nat.iter_succ_r. unfold next_month at 2.
        rewrite Hneb, IH2.
        replace (m + 1 + Z.of_nat k) with (m + Z.of_nat (Datatypes.S k)) by lia.
        reflexivity.
Qed.

Lemma calendar_full_years : forall j y,
  months_of (flat_map full_year (zrange y j)) = calendar (y, 1) (12 * j) /\
  Nat.iter (12 * j) next_month (y, 1) = (y + Z.of_nat j, 1).
Proof.
  induction j as [|j IH]; intros y.
  - cbn. now rewrite Z.add_0_r.
  - destruct (IH (y + 1)) as [IH1 IH2].
    destruct (calendar_within_year 12 y 1) as [C1 C2]; [lia | lia |].
    change (1 + Z.of_nat 12 =? 13) with true in C2. cbv iota in C2.
    replace (12 * Datatypes.S j)%nat with (12 + 12 * j)%nat by lia.
    split.
    + cbn [zrange flat_map]. rewrite months_of_app, months_of_full_year.
      rewrite calendar_app, C1, C2, IH1. reflexivity.
    + rewrite Nat.add_comm, Nat.iter_add, C2, IH2. f_equal. lia.
Qed.

Lemma calendar_length : forall n ym, List.length (calendar ym n) = n.
Proof. induction n; intros; cbn; auto. Qed.

Lemma months_of_length : forall log,
  List.length (months_of log) = List.length (filter is_month_step log).
Proof.
  induction log as [|[y m|y] log IH]; cbn; auto.
Qed.

Lemma year_ends_app : forall l1 l2,
  year_ends (l1 ++ l2) = (year_ends l1 + year_ends l2)%nat.
Proof. intros. unfold year_ends. now rewrite filter_app, length_app. Qed.

Lemma year_ends_month_steps : forall y l, year_ends (map (MonthStep y) l) = 0%nat.
Proof. induction l; cbn; auto. Qed.

Lemma year_ends_full_years : forall j y,
  year_ends (flat_map full_year (zrange y j)) = j.
Proof.
  induction j as [|j IH]; intros y; cbn [zrange flat_map].
  - reflexivity.
  - unfold full_year at 1.
    rewrite !year_ends_app, year_ends_month_steps, IH. reflexivity.
Qed.

Lemma months_before_first_year_end_steps : forall y l rest,
  months_before_first_year_end (map (MonthStep y) l ++ YearEnd y :: rest)
  = List.length l.
Proof. induction l; intros; cbn; auto. Qed.

(** The events of a trial of [years >= 1] years, in both cases. *)
Lemma trial_schedule_cases : forall years cy cm,
  1 <= years -> 1 <= cm <= 12 -> 0 <= cy ->
  cy + years < SizeT.max_value -> 12 * years + 12 <= SizeT.modulus ->
  let log := schedule cy cm (trial_end_year (months years) cy cm)
                            (trial_end_month (months years) cm) in
  months_of log = calendar (cy, cm) (Z.to_nat (12 * years)) /\
  year_ends log = (if cm =? 1 then Z.to_nat years else Z.to_nat (years + 1)) /\
  months_before_first_year_end log = Z.to_nat (13 - cm).
Proof.
  intros years cy cm Hy Hcm Hcy Hov Hov' log. subst log.
  destruct (trial_end_spec years cy cm Hy Hcm Hcy Hov Hov') as [-> ->].
  destruct (cm =? 1) eqn:E.
  - apply Z.eqb_eq in E. subst cm.
    rewrite schedule_january by assumption.
    destruct (calendar_full_years (Z.to_nat years) cy) as [C _].
    split; [|split].
    + rewrite C. f_equal. lia.
    + apply year_ends_full_years.
    + destruct (Z.to_nat years) as [|j] eqn:Ej; [lia|].
      cbn [zrange flat_map]. unfold full_year at 1.
      rewrite <- app_assoc. cbn [app].
      rewrite months_before_first_year_end_steps. reflexivity.
  - apply Z.eqb_neq in E.
    rewrite schedule_mid_year by lia.
    split; [|split].
    + rewrite !months_of_app, !months_of_month_steps. cbn [months_of].
      rewrite !app_nil_r.
      destruct (calendar_full_years (Z.to_nat (years - 1)) (cy + 1)) as [C I].
      rewrite C.
      replace (Z.to_nat (12 * years))
        with (Z.to_nat (13 - cm) + (12 * Z.to_nat (years - 1) + Z.to_nat (cm - 1)))%nat
        by lia.
      destruct (calendar_within_year (Z.to_nat (13 - cm)) cy cm) as [C1 I1];
        [lia | lia |].
      replace (cm + Z.of_nat (Z.to_nat (13 - cm)) =? 13) with true in I1
        by (symmetry; apply Z.eqb_eq; lia).
      rewrite calendar_app, C1, I1. f_equal.
      rewrite calendar_app, I. f_equal.
      replace (cy + 1 + Z.of_nat (Z.to_nat (years - 1))) with (cy + years) by lia.
      symmetry.
      apply (calendar_within_year (Z.to_nat (cm - 1)) (cy + years) 1); lia.
    + rewrite !year_ends_app, !year_ends_month_steps, year_ends_full_years.
      cbn. lia.
    + rewrite <- app_assoc. cbn [app].
      rewrite months_before_first_year_end_steps, zrange_length. reflexivity.
Qed.

Lemma trial_fuel_enough : forall years cy cm fuel,
  1 <= years -> 1 <= cm <= 12 -> 0 <= cy ->
  cy + years < SizeT.max_value -> 12 * years + 12 <= SizeT.modulus ->
  (Z.to_nat years + 12 <= fuel)%nat ->
  let ey := trial_end_year (months years) cy cm in
  let em := trial_end_month (months years) cm in
  ey < SizeT.max_value /\ 1 <= em <= 12 /\ (trip_count cy ey <= fuel)%nat
  /\ (12 <= fuel)%nat.
Proof.
  intros years cy cm fuel Hy Hcm Hcy Hov Hov' Hf ey em. subst ey em.
  destruct (trial_end_spec years cy cm Hy Hcm Hcy Hov Hov') as [-> ->].
  unfold trip_count. destruct (cm =? 1) eqn:E;
    [apply Z.eqb_eq in E | apply Z.eqb_neq in E]; repeat split; lia.
Qed.

(** C4. For a horizon of [years >= 1] years and a start month from 1 to 12,
    the end year and end month computed by the trial make its nested loop
    run the month body exactly [years * 12] times, on the consecutive
    calendar months that begin with the start month; December is followed
    by January of the next year. *)
Theorem trial_runs_twelve_months_per_year :
  forall fuel years cy cm,
    1 <= years -> 1 <= cm <= 12 -> 0 <= cy ->
    cy + years < SizeT.max_value -> 12 * years + 12 <= SizeT.modulus ->
    (Z.to_nat years + 12 <= fuel)%nat ->
    let ey := trial_end_year (months years) cy cm in
    let em := trial_end_month (months years) cm in
    exists log,
      trial_trace fuel cy cm ey em = Ok log /\
      months_of log = calendar (cy, cm) (Z.to_nat (years * 12)) /\
      List.length (filter is_month_step log) = Z.to_nat (years * 12) /\
      forall (S : Type) (month_body : Z -> Z -> S -> outcome S)
             (year_end : Z -> S -> outcome S) (s : S),
        trial_loops fuel cy cm ey em month_body year_end s
        = foldM (run_event month_body year_end) log s.
Proof.
  intros fuel years cy cm Hy Hcm Hcy Hov Hov' Hf ey em.
  destruct (trial_fuel_enough years cy cm fuel Hy Hcm Hcy Hov Hov' Hf)
    as (Hey & Hem & Hf1 & Hf2).
  destruct (trial_schedule_cases years cy cm Hy Hcm Hcy Hov Hov')
    as (Hmonths & _ & _).
  exists (schedule cy cm ey em).
  replace (years * 12) with (12 * years) by lia.
  split; [apply trial_trace_schedule; auto; lia|].
  split; [exact Hmonths|].
  split.
  - rewrite <- months_of_length. fold ey em in Hmonths.
    rewrite Hmonths. apply calendar_length.
  - intros. apply trial_loops_schedule; auto; lia.
Qed.

(** A two-year trial that starts in November 2000. *)
Lemma trial_runs_twelve_months_per_year_witness :
  exists log,
    trial_trace 20 2000 11 (trial_end_year (months 2) 2000 11)
                (trial_end_month (months 2) 11) = Ok log /\
    months_of log = calendar (2000, 11) 24 /\
    List.length (filter is_month_step log) = 24%nat.
Proof.
  destruct (trial_runs_twelve_months_per_year 20 2 2000 11)
    as (log & H1 & H2 & H3 & _);
    [lia | lia | lia | vm_compute; reflexivity | vm_compute; discriminate
     | vm_compute; lia |].
  exists log. split; [exact H1|]. split; [exact H2 | exact H3].
Defined.

(* ================================================================== *)
(** * Yearly actions *)

(** A trial is its initial state, the replay of its schedule, and the sum of
    what is left. *)
Lemma trial_by_schedule :
  forall portfolio inflation_data values wr monthly_wr rebalance threshold
         fuel years cy cm,
    1 <= years -> 1 <= cm <= 12 -> 0 <= cy ->
    cy + years < SizeT.max_value -> 12 * years + 12 <= SizeT.modulus ->
    (Z.to_nat years + 12 <= fuel)%nat ->
    trial portfolio inflation_data values years wr monthly_wr rebalance
          threshold fuel cy cm
    = (st <- trial_init portfolio inflation_data values wr cy cm ;;
       st' <- replay portfolio monthly_wr rebalance threshold
                (schedule cy cm (trial_end_year (months years) cy cm)
                                (trial_end_month (months years) cm)) st ;;
       Ok (F32.accumulate (current_values st'))).
Proof.
  intros portfolio inflation_data values wr monthly_wr rebalance threshold
         fuel years cy cm Hy Hcm Hcy Hov Hov' Hf.
  destruct (trial_fuel_enough years cy cm fuel Hy Hcm Hcy Hov Hov' Hf)
    as (Hey & Hem & Hf1 & Hf2).
  unfold trial, replay.
  destruct (trial_init _ _ _ _ _ _) as [st| |]; cbn; auto.
  rewrite trial_loops_schedule by (auto; lia). reflexivity.
Qed.

(** C1, what the code does. The end-of-year actions (yearly rebalancing and,
    in annual mode, the full withdrawal) run at the end of every calendar
    year the trial touches. A trial that starts in January has [years] of
    them, each after twelve months; a trial that starts in month [cm >= 2]
    has [years + 1]: the first after only [13 - cm] months, the last after
    the [cm - 1] months of its final calendar year. *)
Theorem yearly_actions_follow_calendar_years :
  forall fuel years cy cm,
    1 <= years -> 1 <= cm <= 12 -> 0 <= cy ->
    cy + years < SizeT.max_value -> 12 * years + 12 <= SizeT.modulus ->
    (Z.to_nat years + 12 <= fuel)%nat ->
    let ey := trial_end_year (months years) cy cm in
    let em := trial_end_month (months years) cm in
    exists log,
      trial_trace fuel cy cm ey em = Ok log /\
      (forall portfolio inflation_data values wr monthly_wr rebalance threshold,
          trial portfolio inflation_data values years wr monthly_wr rebalance
                threshold fuel cy cm
          = (st <- trial_init portfolio inflation_data values wr cy cm ;;
             st' <- replay portfolio monthly_wr rebalance threshold log st ;;
             Ok (F32.accumulate (current_values st')))) /\
      year_ends log = (if cm =? 1 then Z.to_nat years else Z.to_nat (years + 1)) /\
      months_before_first_year_end log = Z.to_nat (13 - cm).
Proof.
  intros fuel years cy cm Hy Hcm Hcy Hov Hov' Hf ey em.
  destruct (trial_fuel_enough years cy cm fuel Hy Hcm Hcy Hov Hov' Hf)
    as (Hey & Hem & Hf1 & Hf2).
  destruct (trial_schedule_cases years cy cm Hy Hcm Hcy Hov Hov')
    as (_ & Hends & Hfirst).
  exists (schedule cy cm ey em).
  split; [apply trial_trace_schedule; auto; lia|].
  split; [intros; apply trial_by_schedule; assumption|].
  split; assumption.
Qed.

(** A one-year trial that starts in July 2000: two end-of-year actions, the
    first after six months. *)
Lemma yearly_actions_follow_calendar_years_witness :
  exists log,
    trial_trace 20 2000 7 (trial_end_year (months 1) 2000 7)
                (trial_end_month (months 1) 7) = Ok log /\
    year_ends log = 2%nat /\
    months_before_first_year_end log = 6%nat.
Proof.
  destruct (yearly_actions_follow_calendar_years 20 1 2000 7)
    as (log & H1 & _ & H2 & H3);
    [lia | lia | lia | vm_compute; reflexivity | vm_compute; discriminate
     | vm_compute; lia |].
  exists log. split; [exact H1|]. split; [exact H2 | exact H3].
Defined.

(** The same trial on figures: one asset of weight 100, flat returns and
    inflation, a withdrawal rate of 10 percent taken annually and no
    rebalancing. Two withdrawals of 100 leave 800 after one year; the trial
    that starts in January leaves 900. *)
Lemma two_annual_withdrawals_in_one_year :
  let portfolio := [mk_allocation "a" f100] in
  let flat := flat_series (2000, 1) 36 f1 in
  trial_trace 20 2000 7 (trial_end_year (months 1) 2000 7)
              (trial_end_month (months 1) 7)
  = Ok [MonthStep 2000 7; MonthStep 2000 8; MonthStep 2000 9;
        MonthStep 2000 10; MonthStep 2000 11; MonthStep 2000 12;
        YearEnd 2000;
        MonthStep 2001 1; MonthStep 2001 2; MonthStep 2001 3;
        MonthStep 2001 4; MonthStep 2001 5; MonthStep 2001 6;
        YearEnd 2001] /\
  trial portfolio flat [flat] 1 (F32.of_Z 10) false NONE F32.zero 20 2000 7
  = Ok (F32.of_Z 800) /\
  trial portfolio flat [flat] 1 (F32.of_Z 10) false NONE F32.zero 20 2000 1
  = Ok (F32.of_Z 900).
Proof. vm_compute. repeat split. Qed.

(* ================================================================== *)
(** * Cursors *)

Lemma next_month_valid : forall ym, valid_month ym -> valid_month (next_month ym).
Proof.
  intros [y m] H. unfold valid_month, next_month in *. cbn [fst snd] in *.
  destruct (m =? 12) eqn:E; cbn [fst snd]; [lia|]. apply Z.eqb_neq in E. lia.
Qed.

Lemma next_month_ordinal : forall ym,
  valid_month ym -> ordinal (next_month ym) = ordinal ym + 1.
Proof.
  intros [y m] H. unfold valid_month, next_month, ordinal in *.
  cbn [fst snd] in *.
  destruct (m =? 12) eqn:E; cbn [fst snd]; [apply Z.eqb_eq in E|]; lia.
Qed.

Lemma iter_next_month_valid : forall k ym,
  valid_month ym ->
  valid_month (Nat.iter k next_month ym) /\
  ordinal (Nat.iter k next_month ym) = ordinal ym + Z.of_nat k.
Proof.
  induction k as [|k IH]; intros ym H.
  - cbn. split; [assumption|lia].
  - rewrite Nat.iter_succ. destruct (IH ym H) as [V O]. split.
    + now apply next_month_valid.
    + rewrite next_month_ordinal by assumption. lia.
Qed.

Lemma ordinal_inj : forall a b,
  valid_month a -> valid_month b -> ordinal a = ordinal b -> a = b.
Proof.
  intros [y m] [y' m']. unfold valid_month, ordinal. cbn [fst snd]. intros.
  assert (y = y') by lia. subst. f_equal. lia.
Qed.

(** In a series of consecutive months the search finds the [k]-th month at
    position [k]. *)
Lemma get_start_from_calendar : forall s n ym at_ k,
  keys s = calendar ym n -> valid_month ym -> (k < n)%nat ->
  let target := Nat.iter k next_month ym in
  get_start_from s (fst target) (snd target) at_ = Ok (at_ + k)%nat.
Proof.
  induction s as [|d s IH]; intros n ym at_ k Hk Hv Hlt target.
  - destruct n; [lia|discriminate].
  - destruct n as [|n]; [lia|]. cbn in Hk. injection Hk as Hym Hrest.
    cbn [get_start_from].
    destruct (iter_next_month_valid k ym Hv) as [Vt Ot]. fold target in Vt, Ot.
    destruct k as [|k].
    + cbn in target. subst target. rewrite <- Hym. cbn [fst snd].
      rewrite !Z.eqb_refl. cbn. f_equal. lia.
    + assert (Hne : (year d =? fst target) && (month d =? snd target) = false).
      { apply andb_false_iff.
        destruct (Z.eqb_spec (year d) (fst target)) as [E1|]; [|now left].
        destruct (Z.eqb_spec (month d) (snd target)) as [E2|]; [|now right].
        exfalso. unfold ordinal in Ot. rewrite <- E1, <- E2, <- Hym in Ot.
        cbn [fst snd] in Ot. lia. }
      rewrite Hne.
      unfold target. rewrite Nat.iter_succ_r.
      rewrite (IH n (next_month ym) (Datatypes.S at_) k Hrest
                  (next_month_valid ym Hv) ltac:(lia)).
      f_equal. lia.
Qed.

Lemma iter_next_month_from_january : forall k y0,
  Nat.iter k next_month (y0, 1)
  = (y0 + Z.of_nat k / 12, 1 + Z.of_nat k mod 12).
Proof.
  intros k y0.
  assert (Hv : valid_month (y0, 1)) by (unfold valid_month; cbn [snd]; lia).
  apply ordinal_inj.
  - now apply iter_next_month_valid.
  - unfold valid_month; cbn [snd]. div_arith.
  - rewrite (proj2 (iter_next_month_valid k (y0, 1) Hv)).
    unfold ordinal; cbn [fst snd]. div_arith.
Qed.

(** Looking up a month that a covering series holds. *)
Lemma get_start_covers : forall s y0 n y m,
  covers s y0 n -> y0 <= y -> 1 <= m <= 12 ->
  (month_index y0 y m < n)%nat ->
  get_start s y m = Ok (mk_cursor s (month_index y0 y m)).
Proof.
  intros s y0 n y m Hc Hy Hm Hlt. unfold get_start.
  assert (Hv : valid_month (y0, 1)) by (unfold valid_month; cbn [snd]; lia).
  pose proof (get_start_from_calendar s n (y0, 1) 0%nat (month_index y0 y m) Hc
                Hv Hlt) as H.
  cbv zeta in H. rewrite iter_next_month_from_january in H.
  cbn [fst snd] in H.
  replace (y0 + Z.of_nat (month_index y0 y m) / 12) with y in H
    by (unfold month_index; rewrite Z2Nat.id by lia; div_arith).
  replace (1 + Z.of_nat (month_index y0 y m) mod 12) with m in H
    by (unfold month_index; rewrite Z2Nat.id by lia; div_arith).
  rewrite H. reflexivity.
Qed.

Lemma start_month_spec : forall cm,
  1 <= cm <= 12 -> start_month cm = (if cm =? 12 then 1 else cm + 1).
Proof.
  intros cm H. unfold start_month.
  destruct (cm =? 12) eqn:E; [apply Z.eqb_eq in E | apply Z.eqb_neq in E];
    size_t_arith.
Qed.

Lemma init_assets_covers : forall portfolio values y0 n y m,
  List.length values = List.length portfolio ->
  Forall (fun s => covers s y0 n) values ->
  y0 <= y -> 1 <= m <= 12 -> (month_index y0 y m < n)%nat ->
  init_assets portfolio values y m
  = Ok (map (fun a => F32.mul start_value (target_weight a)) portfolio,
        map (fun s => mk_cursor s (month_index y0 y m)) values).
Proof.
  induction portfolio as [|a portfolio IH]; intros values y0 n y m Hlen Hall Hy Hm Hlt.
  - destruct values; [reflexivity|discriminate].
  - destruct values as [|v values]; [discriminate|].
    inversion Hall as [|? ? Hv Hall']; subst.
    cbn [init_assets map].
    rewrite (get_start_covers v y0 n y m Hv Hy Hm Hlt). cbn [bind].
    rewrite (IH values y0 n y m) by (auto; cbn in Hlen; lia).
    reflexivity.
Qed.

(** The state a trial starts from, when every series covers the months
    asked for. *)
Lemma trial_init_covers : forall portfolio inflation_data values wr y0 n cy cm,
  List.length values = List.length portfolio ->
  Forall (fun s => covers s y0 n) values ->
  covers inflation_data y0 n ->
  y0 <= cy -> 1 <= cm <= 12 -> (month_index y0 cy (start_month cm) < n)%nat ->
  trial_init portfolio inflation_data values wr cy cm
  = Ok (mk_trial_state
          (map (fun a => F32.mul start_value (target_weight a)) portfolio)
          (map (fun s => mk_cursor s (month_index y0 cy (start_month cm))) values)
          (F32.div (F32.mul start_value wr) f100)
          (mk_cursor inflation_data (month_index y0 cy (start_month cm)))).
Proof.
  intros portfolio inflation_data values wr y0 n cy cm Hlen Hall Hinf Hy Hcm Hlt.
  assert (Hsm : 1 <= start_month cm <= 12).
  { rewrite start_month_spec by assumption. destruct (cm =? 12) eqn:E; [lia|].
    apply Z.eqb_neq in E. lia. }
  unfold trial_init.
  rewrite (init_assets_covers portfolio values y0 n) by assumption.
  cbn [bind].
  rewrite (get_start_covers inflation_data y0 n) by assumption.
  reflexivity.
Qed.

(** C2, what the code does. The cursors of a trial that starts in month
    [cm] of year [cy] are positioned at month [(cm % 12) + 1] of year [cy]:
    the month after the start month when [cm <= 11], and for [cm = 12]
    January of the same year [cy], eleven months before the start month,
    not January of year [cy + 1]. *)
Theorem cursors_start_in_the_start_year :
  forall portfolio inflation_data values wr y0 n cy cm,
    List.length values = List.length portfolio ->
    Forall (fun s => covers s y0 n) values ->
    covers inflation_data y0 n ->
    y0 <= cy -> 1 <= cm <= 12 -> (month_index y0 cy 12 < n)%nat ->
    exists st,
      trial_init portfolio inflation_data values wr cy cm = Ok st /\
      Forall (fun c => pos c = pos (inflation st)) (returns st) /\
      (cm <= 11 ->
         (cy, start_month cm) = next_month (cy, cm) /\
         pos (inflation st) = (month_index y0 cy cm + 1)%nat) /\
      (cm = 12 ->
         (cy, start_month cm) = (cy, 1) /\
         next_month (cy, cm) = (cy + 1, 1) /\
         pos (inflation st) = (month_index y0 cy cm - 11)%nat).
Proof.
  intros portfolio inflation_data values wr y0 n cy cm Hlen Hall Hinf Hy Hcm Hlt.
  assert (Hsm := start_month_spec cm Hcm).
  assert (Hidx : (month_index y0 cy (start_month cm) < n)%nat).
  { rewrite Hsm. unfold month_index in *.
    destruct (cm =? 12) eqn:E; [lia|]. apply Z.eqb_neq in E. lia. }
  eexists. split; [apply (trial_init_covers _ _ _ _ y0 n); assumption|].
  cbn [returns inflation pos]. split; [|split].
  - apply Forall_forall. intros c Hc. apply in_map_iff in Hc.
    destruct Hc as (s & <- & _). reflexivity.
  - intros Hle. rewrite Hsm. unfold next_month, month_index.
    replace (cm =? 12) with false by (symmetry; apply Z.eqb_neq; lia).
    split; [reflexivity|lia].
  - intros ->. rewrite Hsm. cbn [Z.eqb Pos.eqb]. unfold month_index.
    split; [reflexivity|]. split; [reflexivity|lia].
Qed.

(** A trial that starts in December 2000 on series that begin in January
    2000: its cursors are at position 0, January 2000. *)
Lemma cursors_start_in_the_start_year_witness :
  let flat := flat_series (2000, 1) 36 f1 in
  exists st,
    trial_init [mk_allocation "a" f100] flat [flat] (F32.of_Z 4) 2000 12 = Ok st /\
    pos (inflation st) = 0%nat /\
    Forall (fun c => pos c = 0%nat) (returns st).
Proof.
  intros flat.
  destruct (cursors_start_in_the_start_year
              [mk_allocation "a" f100] flat [flat] (F32.of_Z 4) 2000 36 2000 12)
    as (st & Hinit & Hrets & _ & Hdec).
  - reflexivity.
  - constructor; [reflexivity|constructor].
  - reflexivity.
  - lia.
  - lia.
  - vm_compute. lia.
  - exists st. destruct (Hdec eq_refl) as (_ & _ & Hpos).
    split; [exact Hinit|]. split; [exact Hpos|].
    rewrite Hpos in Hrets. exact Hrets.
Defined.

(** On figures: inflation doubles prices in January 2000 only. The trial
    that starts in December 2000 begins with that factor; the month after
    its start month is January 2001. *)
Lemma december_trial_reads_january_of_its_own_year :
  let jan2000 := mk_data 2000 1 (F32.of_Z 2) in
  let inflation_data := jan2000 :: flat_series (2000, 2) 35 f1 in
  let flat := flat_series (2000, 1) 36 f1 in
  exists st,
    trial_init [mk_allocation "a" f100] inflation_data [flat] (F32.of_Z 4) 2000 12
      = Ok st /\
    nth_error (series (inflation st)) (pos (inflation st)) = Some jan2000 /\
    deref (inflation st) = Ok (F32.of_Z 2) /\
    next_month (2000, 12) = (2001, 1).
Proof. cbv zeta. eexists. split; [vm_compute; reflexivity|]. repeat split. Qed.

(* ================================================================== *)
(** * Trials return *)

Lemma deref_has_room : forall k c,
  has_room (Datatypes.S k) c -> exists x, deref c = Ok x.
Proof.
  intros k c H. unfold deref, has_room in *.
  destruct (nth_error (series c) (pos c)) as [d|] eqn:E.
  - now exists (value d).
  - apply nth_error_None in E. lia.
Qed.

Lemma advance_has_room : forall k c,
  has_room (Datatypes.S k) c -> has_room k (advance c).
Proof. intros k c H. unfold has_room, advance in *. cbn. lia. Qed.

Lemma apply_returns_defined : forall k vals rets,
  Forall (has_room (Datatypes.S k)) rets ->
  exists vals' rets',
    apply_returns vals rets = Ok (vals', rets') /\ Forall (has_room k) rets'.
Proof.
  intros k vals; induction vals as [|v vals IH]; intros rets H.
  - exists [], []. split; [reflexivity|constructor].
  - destruct rets as [|c rets].
    + exists [], []. split; [reflexivity|constructor].
    + inversion H as [|? ? Hc Hrest]; subst.
      destruct (deref_has_room k c Hc) as (x & Hx).
      destruct (IH rets Hrest) as (vals' & rets' & E & Hr).
      exists (F32.mul v x :: vals'), (advance c :: rets').
      cbn [apply_returns]. rewrite Hx, E. cbn. split; [reflexivity|].
      constructor; [now apply advance_has_room | assumption].
Qed.

Lemma month_step_defined :
  forall portfolio monthly_wr rebalance threshold k st,
    state_has_room (Datatypes.S k) st ->
    exists st',
      month_step portfolio monthly_wr rebalance threshold st = Ok st' /\
      state_has_room k st'.
Proof.
  intros portfolio monthly_wr rebalance threshold k st [Hr Hi].
  destruct (apply_returns_defined k (current_values st) (returns st) Hr)
    as (vals & rets & E & Hrets).
  destruct (deref_has_room k (inflation st) Hi) as (x & Hx).
  unfold month_step. rewrite E. cbn [bind]. rewrite Hx. cbn [bind].
  eexists. split; [reflexivity|].
  split; cbn [returns inflation]; [assumption | now apply advance_has_room].
Qed.

Lemma replay_defined :
  forall portfolio monthly_wr rebalance threshold log st,
    state_has_room (List.length (filter is_month_step log)) st ->
    exists st', replay portfolio monthly_wr rebalance threshold log st = Ok st'.
Proof.
  intros portfolio monthly_wr rebalance threshold log.
  induction log as [|[y m|y] log IH]; intros st H.
  - now exists st.
  - cbn in H.
    destruct (month_step_defined portfolio monthly_wr rebalance threshold _ st H)
      as (st1 & E & H1).
    destruct (IH st1 H1) as (st' & E').
    exists st'. unfold replay in *. cbn. rewrite E. cbn. exact E'.
  - cbn in H.
    destruct (IH (year_step portfolio monthly_wr rebalance st)) as (st' & E').
    + exact H.
    + exists st'. exact E'.
Qed.

(** Looking up a month that a series holds, with the months that follow
    it. *)
Lemma get_start_spans : forall s first_year last_year y m k,
  spans s first_year last_year -> 1 <= m <= 12 -> (0 < k)%nat ->
  ordinal (first_year, 1) <= ordinal (y, m) ->
  ordinal (y, m) + Z.of_nat k <= ordinal (last_year, 12) + 1 ->
  exists c, get_start s y m = Ok c /\ has_room k c.
Proof.
  intros s first_year last_year y m k (ym & n & Hk & Hv & Hlo & Hhi) Hm Hpos
         H1 H2.
  set (k0 := Z.to_nat (ordinal (y, m) - ordinal ym)).
  assert (Hk0 : Z.of_nat k0 = ordinal (y, m) - ordinal ym) by (unfold k0; lia).
  assert (Hlt : (k0 < n)%nat) by lia.
  pose proof (get_start_from_calendar s n ym 0%nat k0 Hk Hv Hlt) as H.
  cbv zeta in H.
  assert (Et : Nat.iter k0 next_month ym = (y, m)).
  { destruct (iter_next_month_valid k0 ym Hv) as [Vt Ot].
    apply ordinal_inj; [exact Vt|exact Hm|]. rewrite Ot. lia. }
  rewrite Et in H. cbn [fst snd] in H.
  exists (mk_cursor s k0). split.
  - unfold get_start. rewrite H. reflexivity.
  - unfold has_room. cbn [pos series].
    assert (Hlen : List.length s = n).
    { apply (f_equal (@List.length _)) in Hk. unfold keys in Hk.
      now rewrite length_map, calendar_length in Hk. }
    lia.
Qed.

Lemma init_assets_room : forall k portfolio values y m,
  List.length values = List.length portfolio ->
  Forall (fun s => exists c, get_start s y m = Ok c /\ has_room k c) values ->
  exists vals rets,
    init_assets portfolio values y m = Ok (vals, rets) /\
    Forall (has_room k) rets.
Proof.
  intros k portfolio. induction portfolio as [|a portfolio IH];
    intros values y m Hlen Hall.
  - exists [], []. split; [reflexivity|constructor].
  - destruct values as [|v values]; [discriminate|].
    inversion Hall as [|? ? (c & Hc & Hroom) Hall']; subst.
    destruct (IH values y m ltac:(cbn in Hlen; lia) Hall')
      as (vals & rets & E & Hrets).
    exists (F32.mul start_value (target_weight a) :: vals), (c :: rets).
    cbn [init_assets]. rewrite Hc. cbn [bind]. rewrite E. cbn [bind].
    split; [reflexivity|]. now constructor.
Qed.

(** A trial returns a terminal value when every series spans its years. *)
Lemma trial_returns :
  forall portfolio inflation_data values wr monthly_wr rebalance threshold
         fuel years first_year last_year cy cm,
    List.length values = List.length portfolio ->
    Forall (fun s => spans s first_year last_year) values ->
    spans inflation_data first_year last_year ->
    1 <= years -> 1 <= cm <= 12 -> first_year <= cy -> 0 <= cy ->
    cy + years <= last_year ->
    cy + years < SizeT.max_value -> 12 * years + 12 <= SizeT.modulus ->
    (Z.to_nat years + 12 <= fuel)%nat ->
    exists final_value,
      trial portfolio inflation_data values years wr monthly_wr rebalance
            threshold fuel cy cm = Ok final_value.
Proof.
  intros portfolio inflation_data values wr monthly_wr rebalance threshold
         fuel years first_year last_year cy cm Hlen Hall Hinf Hy Hcm Hfirst Hcy
         Hlast Hov Hov' Hf.
  rewrite trial_by_schedule by assumption.
  assert (Hsm := start_month_spec cm Hcm).
  set (k := Z.to_nat (12 * years)).
  assert (Hsm1 : 1 <= start_month cm <= 12).
  { rewrite Hsm. destruct (cm =? 12) eqn:E; [lia|].
    apply Z.eqb_neq in E. lia. }
  assert (Hk : (0 < k)%nat) by (unfold k; lia).
  assert (Hlo : ordinal (first_year, 1) <= ordinal (cy, start_month cm))
    by (unfold ordinal; cbn [fst snd]; lia).
  assert (Hhi : ordinal (cy, start_month cm) + Z.of_nat k
                <= ordinal (last_year, 12) + 1).
  { rewrite Hsm. unfold ordinal, k; cbn [fst snd].
    destruct (cm =? 12) eqn:E; [lia|]. apply Z.eqb_neq in E. lia. }
  destruct (init_assets_room k portfolio values cy (start_month cm) Hlen)
    as (vals & rets & Einit & Hrets).
  { apply Forall_forall. intros s Hs. rewrite Forall_forall in Hall.
    exact (get_start_spans s first_year last_year cy (start_month cm) k
             (Hall s Hs) Hsm1 Hk Hlo Hhi). }
  destruct (get_start_spans inflation_data first_year last_year cy
              (start_month cm) k Hinf Hsm1 Hk Hlo Hhi) as (c & Ec & Hc).
  unfold trial_init. rewrite Einit. cbn [bind]. rewrite Ec. cbn [bind].
  destruct (trial_schedule_cases years cy cm Hy Hcm Hcy Hov Hov') as (Hm & _ & _).
  cbv zeta in Hm.
  match goal with |- context [replay ?p ?w ?r ?t ?l ?s] =>
    destruct (replay_defined p w r t l s) as (st' & E) end.
  - rewrite <- months_of_length, Hm, calendar_length. fold k.
    split; cbn [returns inflation]; assumption.
  - rewrite E. cbn. eauto.
Qed.

(* ================================================================== *)
(** * Counting trials *)

Lemma filter_partition_length : forall {A : Type} (f : A -> bool) l,
  (List.length (filter f l) + List.length (filter (fun a => negb (f a)) l)
   = List.length l)%nat.
Proof.
  intros A f l; induction l as [|a l IH]; cbn; [reflexivity|].
  destruct (f a); cbn; lia.
Qed.

Lemma tally_classifies_total : forall t,
  tally_classifies t ->
  tally_successes t + tally_failures t = size (terminal_values t).
Proof.
  intros t [Hs Hf]. rewrite Hs, Hf. unfold size.
  rewrite <- (filter_partition_length is_success (terminal_values t)). lia.
Qed.

(** Recording a trial keeps the classification, as long as the counters do
    not wrap. *)
Lemma record_trial_classifies : forall v t,
  tally_classifies t ->
  size (terminal_values t) + 1 < SizeT.modulus ->
  tally_classifies (record_trial v t) /\
  terminal_values (record_trial v t) = terminal_values t ++ [v].
Proof.
  intros v t [Hs Hf] Hsz.
  pose proof (filter_partition_length is_success (terminal_values t)) as Hp.
  unfold size in Hsz.
  assert (Hadd : forall z, 0 <= z <= Z.of_nat (List.length (terminal_values t)) ->
                           SizeT.add z 1 = z + 1).
  { intros z Hz. unfold SizeT.add, SizeT.wrap. apply Z.mod_small. lia. }
  unfold record_trial, tally_classifies. fold (is_success v).
  destruct (is_success v) eqn:E; cbn [tally_successes tally_failures terminal_values];
    rewrite !filter_app, !length_app; cbn [filter]; rewrite E; cbn [negb List.length];
    (split; [split|reflexivity]); try rewrite Hadd; lia.
Qed.

Lemma foldM_trials :
  forall portfolio inflation_data values years wr monthly_wr rebalance threshold
         fuel starts t,
    tally_classifies t ->
    size (terminal_values t) + Z.of_nat (List.length starts) < SizeT.modulus ->
    (forall ym, In ym starts ->
        exists v, trial portfolio inflation_data values years wr monthly_wr
                        rebalance threshold fuel (fst ym) (snd ym) = Ok v) ->
    exists t' tvs,
      foldM (trial_body portfolio inflation_data values years wr monthly_wr
                        rebalance threshold fuel) starts t = Ok t' /\
      tally_classifies t' /\
      terminal_values t' = terminal_values t ++ tvs /\
      Forall2 (fun ym v =>
                 trial portfolio inflation_data values years wr monthly_wr
                       rebalance threshold fuel (fst ym) (snd ym) = Ok v)
              starts tvs.
Proof.
  intros portfolio inflation_data values years wr monthly_wr rebalance threshold
         fuel starts.
  induction starts as [|ym starts IH]; intros t Ht Hsz Hdef.
  - exists t, []. cbn. rewrite app_nil_r.
    split; [reflexivity|]. split; [exact Ht|]. split; [reflexivity|constructor].
  - destruct (Hdef ym (or_introl eq_refl)) as (v & Hv).
    cbn [List.length] in Hsz.
    destruct (record_trial_classifies v t Ht ltac:(lia)) as (Ht1 & Htv1).
    destruct (IH (record_trial v t) Ht1) as (t' & tvs & E & Ht' & Htv & Hall).
    + rewrite Htv1. unfold size in *. rewrite length_app. cbn [List.length]. lia.
    + intros; apply Hdef; now right.
    + exists t', (v :: tvs). cbn [foldM]. unfold trial_body at 1.
      rewrite Hv. cbn [bind]. split; [exact E|]. split; [exact Ht'|].
      split; [rewrite Htv, Htv1, <- app_assoc; reflexivity|].
      constructor; assumption.
Qed.

Lemma starts_calendar : forall j y,
  flat_map (fun y => map (pair y) (zrange 1 12)) (zrange y j)
  = calendar (y, 1) (12 * j).
Proof.
  intros j y. rewrite <- (proj1 (calendar_full_years j y)).
  generalize (zrange y j). intros l; induction l as [|a l IH]; cbn [flat_map].
  - reflexivity.
  - rewrite months_of_app, months_of_full_year, IH. reflexivity.
Qed.

(** The two outer loops run the trial body once for every start month from
    January of [start_year] to December of [end_year - years]. *)
Lemma run_trials_schedule :
  forall portfolio inflation_data values years wr start_year end_year
         monthly_wr rebalance threshold fuel,
    0 <= start_year -> 0 <= years <= end_year -> end_year < SizeT.max_value ->
    (Z.to_nat (end_year - years + 1 - start_year) <= fuel)%nat ->
    (12 <= fuel)%nat ->
    run_trials portfolio inflation_data values years wr start_year end_year
               monthly_wr rebalance threshold fuel
    = foldM (trial_body portfolio inflation_data values years wr monthly_wr
                        rebalance threshold fuel)
            (calendar (start_year, 1)
                      (12 * Z.to_nat (end_year - years + 1 - start_year)))
            (mk_tally 0 0 []).
Proof.
  intros portfolio inflation_data values years wr start_year end_year
         monthly_wr rebalance threshold fuel Hs Hy He Hf Hf12.
  unfold run_trials.
  assert (Hsub : SizeT.sub end_year years = end_year - years) by size_t_arith.
  rewrite Hsub.
  rewrite for_le_zrange; [|lia|lia|unfold trip_count; lia].
  rewrite <- starts_calendar, foldM_flat_map. unfold trip_count.
  apply foldM_ext_in. intros cy t Hin.
  rewrite for_le_zrange;
    [|lia|unfold SizeT.max_value, SizeT.modulus; cbn; lia|unfold trip_count; cbn; lia].
  rewrite foldM_map. reflexivity.
Qed.

Lemma compute_terminal_values_in_bounds : forall res tvs,
  3 <= size tvs < SizeT.modulus ->
  exists r,
    compute_terminal_values res tvs = Ok r /\
    successes r = successes res /\ failures r = failures res /\
    success_rate r = success_rate res.
Proof.
  intros res tvs Hn.
  assert (Hsz : size (sort tvs) = size tvs)
    by (unfold size; now rewrite sort_length).
  assert (Hidx := median_index_small (size tvs) ltac:(unfold size in *; lia)).
  destruct (proj1 (at_index_spec (sort tvs) (size tvs / 2 + 1)
                     ltac:(div_arith)) ltac:(rewrite Hsz; div_arith))
    as (median & Hmed & _).
  assert (Hne : sort tvs <> []).
  { intros E. rewrite E in Hsz. cbn in Hsz. lia. }
  destruct (front_spec _ Hne) as (minimum & Hmin & _).
  destruct (back_spec _ Hne) as (maximum & Hmax & _).
  unfold compute_terminal_values. rewrite Hsz.
  unfold median_index in Hidx. rewrite Hidx, Hmed. cbn [bind].
  rewrite Hmin, Hmax. cbn [bind].
  eexists. split; [reflexivity|]. cbn. auto.
Qed.

Lemma calendar_from_january_In : forall j y ym,
  In ym (calendar (y, 1) (12 * j)) ->
  y <= fst ym < y + Z.of_nat j /\ 1 <= snd ym <= 12.
Proof.
  intros j y ym H. rewrite <- starts_calendar in H.
  apply in_flat_map in H. destruct H as (y' & Hy' & H).
  apply in_map_iff in H. destruct H as (m & <- & Hm).
  apply zrange_In in Hy'. apply zrange_In in Hm. cbn [fst snd]. lia.
Qed.

(** ** More fuel *)

(** A loop that ended, with a result or on an undefined access, ends in
    the same way with more fuel. *)
Lemma for_le_more_fuel :
  forall {S : Type} hi (body body' : Z -> S -> outcome S),
    (forall i s, body i s <> OutOfFuel -> body' i s = body i s) ->
    forall fuel fuel' lo s,
      (fuel <= fuel')%nat ->
      for_le fuel lo hi body s <> OutOfFuel ->
      for_le fuel' lo hi body' s = for_le fuel lo hi body s.
Proof.
  intros S hi body body' Hbody fuel.
  induction fuel as [|fuel IH]; intros fuel' lo s Hle H.
  - cbn [for_le] in *. destruct (lo <=? hi) eqn:E; [congruence|].
    destruct fuel'; cbn [for_le]; now rewrite E.
  - destruct fuel' as [|fuel']; [lia|]. cbn [for_le] in *.
    destruct (lo <=? hi); [|reflexivity].
    destruct (body lo s) as [s1| |] eqn:E; cbn [bind] in *.
    + rewrite (Hbody lo s) by congruence. rewrite E. cbn [bind].
      apply IH; [lia|exact H].
    + rewrite (Hbody lo s) by congruence. rewrite E. reflexivity.
    + congruence.
Qed.

Lemma trial_loops_more_fuel :
  forall {S : Type} fuel fuel' cy cm ey em
         (month_body : Z -> Z -> S -> outcome S)
         (year_end : Z -> S -> outcome S) s,
    (fuel <= fuel')%nat ->
    trial_loops fuel cy cm ey em month_body year_end s <> OutOfFuel ->
    trial_loops fuel' cy cm ey em month_body year_end s
    = trial_loops fuel cy cm ey em month_body year_end s.
Proof.
  intros S fuel fuel' cy cm ey em mb ye s Hle H. unfold trial_loops in *.
  apply for_le_more_fuel; [|exact Hle|exact H].
  intros y s0 Hb. cbv beta in *.
  rewrite (for_le_more_fuel _ (mb y) (mb y) (fun _ _ _ => eq_refl) fuel fuel');
    [reflexivity|exact Hle|].
  intros E. rewrite E in Hb. now apply Hb.
Qed.

Lemma trial_more_fuel :
  forall portfolio inflation_data values years wr monthly_wr rebalance
         threshold fuel fuel' cy cm,
    (fuel <= fuel')%nat ->
    trial portfolio inflation_data values years wr monthly_wr rebalance
          threshold fuel cy cm <> OutOfFuel ->
    trial portfolio inflation_data values years wr monthly_wr rebalance
          threshold fuel' cy cm
    = trial portfolio inflation_data values years wr monthly_wr rebalance
            threshold fuel cy cm.
Proof.
  intros portfolio inflation_data values years wr monthly_wr rebalance
         threshold fuel fuel' cy cm Hle H. unfold trial in *.
  destruct (trial_init portfolio inflation_data values wr cy cm) as [st0| |];
    cbn [bind] in *; try reflexivity.
  rewrite (trial_loops_more_fuel fuel fuel'); [reflexivity|exact Hle|].
  intros E. rewrite E in H. now apply H.
Qed.

(** The simulation gives the same results, or stops on the same undefined
    access, with any larger amount of fuel. *)
Lemma simulation_more_fuel :
  forall portfolio inflation_data values years wr start_year end_year
         monthly_wr rebalance threshold fuel fuel' simulations,
    (fuel <= fuel')%nat ->
    simulation portfolio inflation_data values years wr start_year end_year
               monthly_wr rebalance threshold fuel simulations <> OutOfFuel ->
    simulation portfolio inflation_data values years wr start_year end_year
               monthly_wr rebalance threshold fuel' simulations
    = simulation portfolio inflation_data values years wr start_year end_year
                 monthly_wr rebalance threshold fuel simulations.
Proof.
  intros portfolio inflation_data values years wr start_year end_year
         monthly_wr rebalance threshold fuel fuel' simulations Hle H.
  unfold simulation in *.
  assert (Hrun : run_trials portfolio inflation_data values years wr start_year
                   end_year monthly_wr rebalance threshold fuel <> OutOfFuel).
  { intros E. rewrite E in H. now apply H. }
  assert (E : run_trials portfolio inflation_data values years wr start_year
                end_year monthly_wr rebalance threshold fuel'
              = run_trials portfolio inflation_data values years wr start_year
                  end_year monthly_wr rebalance threshold fuel).
  { unfold run_trials in *.
    apply for_le_more_fuel; [|exact Hle|exact Hrun].
    intros cy t Hb.
    apply for_le_more_fuel; [|exact Hle|exact Hb].
    intros cm t0 Hb'.
    rewrite (trial_more_fuel _ _ _ _ _ _ _ _ fuel fuel'); [reflexivity|exact Hle|].
    intros E. rewrite E in Hb'. now apply Hb'. }
  now rewrite E.
Qed.

(** C3, amended. For a valid configuration with a horizon of at least one
    year ([years >= 1], [end_year >= start_year + years], one series per
    asset, each series and the inflation series holding every month from
    January of [start_year] to December of [end_year], no [size_t]
    overflow) the simulation returns, having run one trial for every start
    month from January of [start_year] to December of [end_year - years],
    in that order; every terminal value counts once, as a success or as a
    failure, so that
    [successes + failures = 12 * (end_year - years - start_year + 1)]. *)
Theorem simulation_counts_every_start_month :
  forall portfolio inflation_data values years wr start_year end_year
         monthly_wr rebalance threshold fuel simulations,
    1 <= years -> 0 <= start_year -> start_year + years <= end_year ->
    12 * (end_year + 1) <= SizeT.modulus ->
    List.length values = List.length portfolio ->
    Forall (fun s => spans s start_year end_year) values ->
    spans inflation_data start_year end_year ->
    (Z.to_nat (end_year - start_year) + 13 <= fuel)%nat ->
    exists res counter tvs,
      simulation portfolio inflation_data values years wr start_year end_year
                 monthly_wr rebalance threshold fuel simulations
        = Ok (res, counter) /\
      Forall2 (fun ym v =>
                 trial portfolio inflation_data values years wr monthly_wr
                       rebalance threshold fuel (fst ym) (snd ym) = Ok v)
              (calendar (start_year, 1)
                        (Z.to_nat (trial_count years start_year end_year)))
              tvs /\
      successes res = Z.of_nat (List.length (filter is_success tvs)) /\
      failures res
        = Z.of_nat (List.length (filter (fun v => negb (is_success v)) tvs)) /\
      successes res + failures res
        = 12 * (end_year - years - start_year + 1).
Proof.
  intros portfolio inflation_data values years wr start_year end_year
         monthly_wr rebalance threshold fuel simulations
         Hy Hs Hvalid Hov Hlen Hall Hinf Hf.
  assert (Hm : 12 * (end_year + 1) <= 18446744073709551616) by exact Hov.
  set (N := Z.to_nat (end_year - years + 1 - start_year)).
  assert (HN : Z.to_nat (trial_count years start_year end_year) = (12 * N)%nat)
    by (unfold trial_count, N; lia).
  destruct (foldM_trials portfolio inflation_data values years wr monthly_wr
              rebalance threshold fuel
              (calendar (start_year, 1) (12 * N)) (mk_tally 0 0 []))
    as (t & tvs & Hrun & Hcls & Htvs & Htrials).
  { split; reflexivity. }
  { rewrite calendar_length. unfold SizeT.modulus.
    change (2 ^ 64) with 18446744073709551616.
    unfold size. cbn [terminal_values List.length]. unfold N. lia. }
  { intros ym Hin. apply calendar_from_january_In in Hin.
    destruct Hin as [Hyr Hmo].
    apply (trial_returns _ _ _ _ _ _ _ _ _ start_year end_year); auto;
      unfold SizeT.max_value, SizeT.modulus;
      change (2 ^ 64) with 18446744073709551616; unfold N in *; try lia. }
  cbn [terminal_values app] in Htvs.
  assert (Hsize : size tvs = 12 * (end_year - years - start_year + 1)).
  { unfold size. rewrite <- (Forall2_length Htrials), calendar_length.
    unfold N. lia. }
  destruct (compute_terminal_values_in_bounds
              (mk_results (tally_successes t) (tally_failures t)
                 (F32.mul (F32.of_Z 100)
                    (F32.div (F32.of_Z (tally_successes t))
                       (F32.of_Z (SizeT.add (tally_successes t) (tally_failures t)))))
                 F32.zero F32.zero F32.zero F32.zero) tvs)
    as (res & Hres & Hsucc & Hfail & _).
  { rewrite Hsize. unfold SizeT.modulus.
    change (2 ^ 64) with 18446744073709551616. lia. }
  exists res, (SizeT.add simulations (size tvs)), tvs.
  split.
  - unfold simulation.
    rewrite run_trials_schedule;
      [|lia|lia|unfold SizeT.max_value, SizeT.modulus;
                change (2 ^ 64) with 18446744073709551616; lia
       |fold N; unfold N; lia|lia].
    fold N. rewrite Hrun. cbn [bind]. rewrite Htvs, Hres. reflexivity.
  - rewrite HN. split; [exact Htrials|].
    destruct Hcls as [Hs' Hf']. rewrite Htvs in Hs', Hf'.
    cbn [successes failures] in Hsucc, Hfail.
    rewrite Hsucc, Hfail, Hs', Hf'.
    split; [reflexivity|]. split; [reflexivity|].
    rewrite <- Hsize. unfold size.
    rewrite <- (filter_partition_length is_success tvs). lia.
Qed.

Lemma flat_series_keys : forall ym n x,
  keys (flat_series ym n x) = calendar ym n.
Proof.
  intros ym n x. unfold keys, flat_series. rewrite map_map. cbn [year month].
  rewrite (map_ext _ (fun p => p)); [apply map_id|].
  now intros [y m].
Qed.

(** One asset with prices from January 2000 to December 2003, inflation
    figures from July 1999 to June 2004, one-year trials starting in 2000,
    2001 and 2002: 36 trials. *)
Lemma simulation_counts_every_start_month_witness :
  let prices := flat_series (2000, 1) 48 f1 in
  let inflation_data := flat_series (1999, 7) 60 f1 in
  exists res counter,
    simulation [mk_allocation "a" f100] inflation_data [prices] 1 (F32.of_Z 4)
               2000 2003 true NONE F32.zero 20 0 = Ok (res, counter) /\
    successes res + failures res = 36.
Proof.
  intros prices inflation_data.
  assert (Hp : spans prices 2000 2003).
  { exists (2000, 1), 48%nat. split; [apply flat_series_keys|].
    unfold valid_month, ordinal. cbn [fst snd]. lia. }
  assert (Hi : spans inflation_data 2000 2003).
  { exists (1999, 7), 60%nat. split; [apply flat_series_keys|].
    unfold valid_month, ordinal. cbn [fst snd]. lia. }
  destruct (simulation_counts_every_start_month
              [mk_allocation "a" f100] inflation_data [prices] 1 (F32.of_Z 4)
              2000 2003 true NONE F32.zero 20 0)
    as (res & counter & tvs & Hsim & _ & _ & _ & Hsum).
  - lia.
  - lia.
  - lia.
  - vm_compute. discriminate.
  - reflexivity.
  - constructor; [exact Hp|constructor].
  - exact Hi.
  - vm_compute. lia.
  - exists res, counter. split; [exact Hsim | exact Hsum].
Defined.

(** With a horizon of zero years the condition
    [end_year >= start_year + years] holds and the claim promises twelve
    trials for the year 2000. The trial that starts in January has an end
    year [(2^64 - 1) / 12] years away: it reads the series to their end and
    beyond, and the simulation returns nothing, whatever the fuel. *)
Lemma zero_year_horizon_returns_nothing :
  let flat := flat_series (2000, 1) 36 f1 in
  2000 + 0 <= 2000 /\
  List.length [flat; flat] = List.length sixty_forty /\
  Forall (fun s => spans s 2000 2000) [flat; flat] /\
  spans flat 2000 2000 /\
  12 * (2000 - 0 - 2000 + 1) = 12 /\
  simulation sixty_forty flat [flat; flat] 0 (F32.of_Z 4) 2000 2000 true NONE
             f1 40 0 = Undefined /\
  forall fuel res counter,
    simulation sixty_forty flat [flat; flat] 0 (F32.of_Z 4) 2000 2000 true
               NONE f1 fuel 0 <> Ok (res, counter).
Proof.
  intros flat.
  assert (Hflat : spans flat 2000 2000).
  { exists (2000, 1), 36%nat. split; [apply flat_series_keys|].
    unfold valid_month, ordinal. cbn [fst snd]. lia. }
  assert (H40 : simulation sixty_forty flat [flat; flat] 0 (F32.of_Z 4) 2000
                  2000 true NONE f1 40 0 = Undefined)
    by (vm_compute; reflexivity).
  split; [lia|]. split; [reflexivity|].
  split; [repeat (constructor; [exact Hflat|]); constructor|].
  split; [exact Hflat|]. split; [reflexivity|]. split; [exact H40|].
  intros fuel res counter H.
  destruct (Nat.le_ge_cases fuel 40) as [Hle|Hge].
  - rewrite <- (simulation_more_fuel _ _ _ _ _ _ _ _ _ _ fuel 40%nat 0 Hle) in H
      by (rewrite H; discriminate).
    rewrite H40 in H. discriminate.
  - rewrite (simulation_more_fuel _ _ _ _ _ _ _ _ _ _ 40%nat fuel 0 Hge) in H
      by (rewrite H40; discriminate).
    rewrite H40 in H. discriminate.
Qed.

(* ================================================================== *)
(** * The trial counter *)

(** A call that returns adds the number of its trials to the counter, as
    [size_t] does: the counter does not decrease as long as it does not
    wrap. *)
Lemma simulation_adds_its_trials :
  forall portfolio inflation_data values years wr start_year end_year
         monthly_wr rebalance threshold fuel c res c',
    simulation portfolio inflation_data values years wr start_year end_year
               monthly_wr rebalance threshold fuel c = Ok (res, c') ->
    exists n,
      0 <= n /\ c' = SizeT.add c n /\
      (0 <= c -> c + n < SizeT.modulus ->
       c <= c' /\ simulations_ran c <= simulations_ran c').
Proof.
  intros portfolio inflation_data values years wr start_year end_year
         monthly_wr rebalance threshold fuel c res c' H.
  unfold simulation in H.
  destruct (run_trials _ _ _ _ _ _ _ _ _ _ _) as [t| |]; cbn [bind] in H;
    try discriminate.
  destruct (compute_terminal_values _ _) as [r| |]; cbn [bind] in H;
    try discriminate.
  injection H as _ <-.
  exists (size (terminal_values t)).
  split; [unfold size; lia|]. split; [reflexivity|].
  intros Hc Hsum. unfold simulations_ran, SizeT.add, SizeT.wrap.
  rewrite Z.mod_small by (unfold size in *; lia). unfold size. lia.
Qed.

(* ================================================================== *)
(** * Signs of binary32 results *)

Lemma nonneg_iff : forall x, F32.nonneg x <-> nonneg_shape x.
Proof.
  intros x. unfold F32.nonneg, F32.leb, SFleb, SFcompare, F32.zero.
  destruct x as [s|[]| |[] m e]; cbn; split; intros H;
    try exact I; try reflexivity; try discriminate; try contradiction.
Qed.

Lemma has_sign_nonneg : forall x, has_sign false x -> F32.nonneg x.
Proof.
  intros x H. apply nonneg_iff. destruct x as [s|s| |s m e]; cbn in *;
    subst; auto.
Qed.

Lemma shr_1_nonneg : forall mrs, 0 <= shr_m mrs -> 0 <= shr_m (shr_1 mrs).
Proof.
  intros [m r s] H. cbn in *. destruct m as [|[p|p|]|p]; cbn; lia.
Qed.

Lemma iter_pos_invariant : forall {A : Type} (P : A -> Prop) (f : A -> A),
  (forall a, P a -> P (f a)) -> forall n a, P a -> P (iter_pos f n a).
Proof.
  intros A P f Hf n; induction n as [n IH|n IH|]; intros a Ha; cbn; auto.
Qed.

Lemma shr_fexp_nonneg : forall m e l,
  0 <= m -> 0 <= shr_m (fst (shr_fexp F32.prec F32.emax m e l)).
Proof.
  intros m e l Hm. unfold shr_fexp, shr.
  assert (H0 : 0 <= shr_m (shr_record_of_loc m l))
    by (destruct l as [|[]]; exact Hm).
  destruct (_ - e) as [|n|n]; cbn [fst]; auto.
  apply (iter_pos_invariant (fun mrs => 0 <= shr_m mrs));
    auto using shr_1_nonneg.
Qed.

Lemma round_nearest_even_nonneg : forall m l,
  0 <= m -> 0 <= round_nearest_even m l.
Proof.
  intros m l Hm. unfold round_nearest_even.
  destruct l as [|[]]; try destruct (Z.even m); lia.
Qed.

(** Rounding a non-negative mantissa never yields a NaN and keeps the
    sign. *)
Lemma binary_round_aux_sign : forall s m e l,
  0 <= m -> has_sign s (binary_round_aux F32.prec F32.emax s m e l).
Proof.
  intros s m e l Hm. unfold binary_round_aux.
  pose proof (shr_fexp_nonneg m e l Hm) as H1.
  destruct (shr_fexp F32.prec F32.emax m e l) as [mrs' e'].
  cbn [fst] in H1.
  pose proof (shr_fexp_nonneg
                (round_nearest_even (shr_m mrs') (loc_of_shr_record mrs'))
                e' loc_Exact (round_nearest_even_nonneg _ _ H1)) as H2.
  destruct (shr_fexp F32.prec F32.emax _ e' loc_Exact) as [mrs'' e''].
  cbn [fst] in H2.
  destruct (shr_m mrs'') as [|p|p]; unfold has_sign; [reflexivity| |lia].
  destruct (e'' <=? F32.emax - F32.prec); reflexivity.
Qed.

Lemma binary_round_sign : forall s m e,
  has_sign s (binary_round F32.prec F32.emax s m e).
Proof.
  intros s m e. unfold binary_round.
  destruct (shl_align m e _) as [mz ez]. apply binary_round_aux_sign. lia.
Qed.

Lemma mul_nonneg : forall x y,
  F32.nonneg x -> F32.pos_finite y -> F32.nonneg (F32.mul x y).
Proof.
  intros x y Hx Hy. apply nonneg_iff in Hx.
  destruct y as [| | |[] my ey]; try contradiction.
  destruct x as [sx|[]| |[] mx ex]; try contradiction.
  - apply nonneg_iff. exact I.
  - apply nonneg_iff. exact I.
  - apply has_sign_nonneg. unfold F32.mul, SFmul.
    apply (binary_round_aux_sign false). lia.
Qed.

Lemma add_nonneg : forall x y,
  F32.nonneg x -> F32.nonneg y -> F32.nonneg (F32.add x y).
Proof.
  intros x y Hx Hy. apply nonneg_iff in Hx. apply nonneg_iff in Hy.
  destruct x as [sx|[]| |[] mx ex]; try contradiction;
    destruct y as [sy|[]| |[] my ey]; try contradiction;
    try (apply nonneg_iff; exact I).
  - apply nonneg_iff. destruct sx, sy; exact I.
  - apply has_sign_nonneg. unfold F32.add, SFadd. cbn [cond_Zopp].
    destruct (fst (shl_align mx ex (Z.min ex ey))) as [a|a|];
      destruct (fst (shl_align my ey (Z.min ex ey))) as [b|b|];
      cbn [Z.add binary_normalize]; apply binary_round_sign.
Qed.

Lemma accumulate_from_nonneg : forall l acc,
  F32.nonneg acc -> Forall F32.nonneg l -> F32.nonneg (fold_left F32.add l acc).
Proof.
  induction l as [|x l IH]; intros acc Ha Hl; cbn.
  - exact Ha.
  - inversion Hl; subst. apply IH; auto using add_nonneg.
Qed.

Lemma accumulate_nonneg : forall l,
  Forall F32.nonneg l -> F32.nonneg (F32.accumulate l).
Proof.
  intros l H. apply accumulate_from_nonneg; [reflexivity|exact H].
Qed.

(** [std::max(0.0f, x)] is [>= 0] whatever [x] is, a NaN included. *)
Lemma max_zero_nonneg : forall x, F32.nonneg (F32.max F32.zero x).
Proof.
  intros x. unfold F32.max, F32.ltb, SFltb.
  destruct (SFcompare F32.zero x) as [[]|] eqn:E; try reflexivity.
  unfold F32.nonneg, F32.leb, SFleb. now rewrite E.
Qed.

Lemma withdraw_nonneg : forall amount vals,
  Forall F32.nonneg (withdraw amount vals).
Proof.
  intros amount vals. unfold withdraw. apply Forall_forall.
  intros x Hx. apply in_map_iff in Hx. destruct Hx as (v & <- & _).
  apply max_zero_nonneg.
Qed.

Lemma pay_fees_nonneg : forall cost vals,
  F32.pos_finite (fee_factor cost) -> Forall F32.nonneg vals ->
  Forall F32.nonneg (pay_fees cost vals).
Proof.
  intros cost vals Hc Hv. unfold pay_fees. apply Forall_forall.
  intros x Hx. apply in_map_iff in Hx. destruct Hx as (v & <- & Hin).
  rewrite Forall_forall in Hv. apply mul_nonneg; auto.
Qed.

Lemma reset_to_targets_nonneg : forall portfolio total vals,
  positive_targets portfolio -> F32.nonneg total ->
  Forall F32.nonneg (reset_to_targets portfolio total vals).
Proof.
  intros portfolio total vals Hp Ht. unfold reset_to_targets.
  apply Forall_forall. intros x Hx. apply in_map_iff in Hx.
  destruct Hx as ([a v] & <- & Hin). apply in_combine_l in Hin.
  unfold positive_targets in Hp. rewrite Forall_forall in Hp.
  apply mul_nonneg; [exact Ht|]. now apply Hp.
Qed.

Lemma rebalance_with_cost_nonneg : forall cost portfolio vals,
  F32.pos_finite (fee_factor cost) -> positive_targets portfolio ->
  Forall F32.nonneg vals ->
  Forall F32.nonneg (rebalance_with_cost cost portfolio vals).
Proof.
  intros cost portfolio vals Hc Hp Hv. unfold rebalance_with_cost.
  apply reset_to_targets_nonneg; auto.
  apply accumulate_nonneg, pay_fees_nonneg; auto.
Qed.

Lemma threshold_rebalance_nonneg : forall threshold portfolio vals,
  positive_targets portfolio -> Forall F32.nonneg vals ->
  Forall F32.nonneg (threshold_rebalance threshold portfolio vals).
Proof.
  intros threshold portfolio vals Hp Hv. unfold threshold_rebalance.
  destruct (threshold_reached _ _ _ _); [|exact Hv].
  apply reset_to_targets_nonneg; auto. now apply accumulate_nonneg.
Qed.

Lemma apply_returns_nonneg : forall vals rets vals' rets',
  Forall F32.nonneg vals ->
  Forall (fun c => positive_series (series c)) rets ->
  apply_returns vals rets = Ok (vals', rets') ->
  Forall F32.nonneg vals' /\
  Forall (fun c => positive_series (series c)) rets'.
Proof.
  induction vals as [|v vals IH]; intros rets vals' rets' Hv Hr H.
  - cbn in H. injection H as <- <-. split; constructor.
  - destruct rets as [|c rets]; cbn in H.
    + injection H as <- <-. split; constructor.
    + inversion Hv as [|? ? Hv1 Hv2]; subst.
      inversion Hr as [|? ? Hc Hr2]; subst.
      unfold deref in H.
      destruct (nth_error (series c) (pos c)) as [d|] eqn:E; cbn in H;
        [|discriminate].
      destruct (apply_returns vals rets) as [[vs rs]| |] eqn:E'; cbn in H;
        try discriminate.
      injection H as <- <-.
      destruct (IH rets vs rs Hv2 Hr2 E') as [IH1 IH2].
      split; constructor; auto.
      apply mul_nonneg; auto.
      unfold positive_series in Hc. rewrite Forall_forall in Hc.
      apply Hc. eapply nth_error_In; eauto.
Qed.

(* ================================================================== *)
(** * Asset values are never negative *)

Lemma fee_factors_positive :
  F32.pos_finite (fee_factor monthly_rebalancing_cost) /\
  F32.pos_finite (fee_factor yearly_rebalancing_cost) /\
  F32.pos_finite (fee_factor threshold_rebalancing_cost).
Proof. vm_compute. auto. Qed.

Lemma month_step_nonneg :
  forall portfolio monthly_wr rebalance threshold st st',
    positive_targets portfolio -> values_nonneg st ->
    month_step portfolio monthly_wr rebalance threshold st = Ok st' ->
    values_nonneg st'.
Proof.
  intros portfolio monthly_wr rebalance threshold st st' Hp [Hv Hr] H.
  destruct fee_factors_positive as (Fm & _ & _).
  unfold month_step in H.
  destruct (apply_returns (current_values st) (returns st))
    as [[vals rets]| |] eqn:E; cbn in H; try discriminate.
  destruct (apply_returns_nonneg _ _ _ _ Hv Hr E) as [Hvals Hrets].
  destruct (deref (inflation st)) as [factor| |]; cbn in H; try discriminate.
  injection H as <-. split; cbn [current_values returns]; [|exact Hrets].
  destruct monthly_wr; [apply withdraw_nonneg|].
  destruct rebalance; auto using rebalance_with_cost_nonneg,
    threshold_rebalance_nonneg.
Qed.

Lemma year_step_nonneg :
  forall portfolio monthly_wr rebalance st,
    positive_targets portfolio -> values_nonneg st ->
    values_nonneg (year_step portfolio monthly_wr rebalance st).
Proof.
  intros portfolio monthly_wr rebalance st Hp [Hv Hr].
  destruct fee_factors_positive as (_ & Fy & _).
  split; cbn [year_step current_values returns]; [|exact Hr].
  destruct monthly_wr; cbn [negb]; [|apply withdraw_nonneg].
  destruct rebalance; auto using rebalance_with_cost_nonneg.
Qed.

Lemma replay_nonneg :
  forall portfolio monthly_wr rebalance threshold log st st',
    positive_targets portfolio -> values_nonneg st ->
    replay portfolio monthly_wr rebalance threshold log st = Ok st' ->
    values_nonneg st'.
Proof.
  intros portfolio monthly_wr rebalance threshold log.
  induction log as [|e log IH]; intros st st' Hp Hst H; unfold replay in *.
  - cbn in H. now injection H as <-.
  - cbn [foldM] in H. destruct e as [y m|y]; cbn [run_event] in H.
    + destruct (month_step portfolio monthly_wr rebalance threshold st)
        as [st1| |] eqn:E; cbn [bind] in H; try discriminate.
      apply (IH st1 st' Hp); [|exact H].
      exact (month_step_nonneg _ _ _ _ _ _ Hp Hst E).
    + cbn [bind] in H.
      apply (IH (year_step portfolio monthly_wr rebalance st) st' Hp);
        [|exact H].
      now apply year_step_nonneg.
Qed.

(** A property that every round of a loop keeps holds when the loop ends. *)
Lemma for_le_invariant :
  forall {S : Type} (P : S -> Prop) (body : Z -> S -> outcome S) hi,
    (forall i s s', P s -> body i s = Ok s' -> P s') ->
    forall fuel lo s s', P s -> for_le fuel lo hi body s = Ok s' -> P s'.
Proof.
  intros S P body hi Hbody fuel; induction fuel as [|fuel IH];
    intros lo s s' Hs H; cbn in H.
  - destruct (lo <=? hi); [discriminate|]. now injection H as <-.
  - destruct (lo <=? hi); [|now injection H as <-].
    destruct (body lo s) as [s1| |] eqn:E; cbn in H; try discriminate.
    apply (IH (SizeT.add lo 1) s1 s'); [|exact H].
    exact (Hbody lo s s1 Hs E).
Qed.

Lemma trial_loops_invariant :
  forall {S : Type} (P : S -> Prop) fuel cy cm ey em
         (month_body : Z -> Z -> S -> outcome S)
         (year_end : Z -> S -> outcome S) s s',
    (forall y m s s', P s -> month_body y m s = Ok s' -> P s') ->
    (forall y s s', P s -> year_end y s = Ok s' -> P s') ->
    P s -> trial_loops fuel cy cm ey em month_body year_end s = Ok s' -> P s'.
Proof.
  intros S P fuel cy cm ey em mb ye s s' Hm Hy Hs H.
  unfold trial_loops in H.
  eapply (for_le_invariant P); [|exact Hs|exact H].
  intros y s0 s1 Hs0 Hb. cbv beta in Hb.
  destruct (for_le fuel (if y =? cy then cm else 1)
                   (if y =? ey then em else 12) (mb y) s0)
    as [s2| |] eqn:E; cbn [bind] in Hb; try discriminate.
  apply (Hy y s2 s1); [|exact Hb].
  eapply (for_le_invariant P); [|exact Hs0|exact E].
  intros m. apply Hm.
Qed.

Lemma get_start_series : forall s y m c, get_start s y m = Ok c -> series c = s.
Proof.
  intros s y m c H. unfold get_start in H.
  destruct (get_start_from s y m 0) as [p| |]; cbn [bind] in H;
    try discriminate.
  now injection H as <-.
Qed.

Lemma init_assets_nonneg : forall portfolio values y m vals rets,
  positive_targets portfolio -> Forall positive_series values ->
  init_assets portfolio values y m = Ok (vals, rets) ->
  Forall F32.nonneg vals /\ Forall (fun c => positive_series (series c)) rets.
Proof.
  induction portfolio as [|a portfolio IH]; intros values y m vals rets Hp Hs H.
  - cbn in H. injection H as <- <-. split; constructor.
  - destruct values as [|v values]; cbn [init_assets] in H; [discriminate|].
    destruct (get_start v y m) as [c| |] eqn:Ec; cbn [bind] in H;
      try discriminate.
    destruct (init_assets portfolio values y m) as [[vs rs]| |] eqn:E;
      cbn [bind] in H; try discriminate.
    injection H as <- <-.
    inversion Hp as [|? ? Ha Hp']; subst. inversion Hs as [|? ? Hv Hs']; subst.
    destruct (IH values y m vs rs Hp' Hs' E) as [IH1 IH2].
    split; constructor.
    + change (F32.nonneg (F32.mul start_value (target_weight a))).
      apply mul_nonneg; [|exact Ha]. vm_compute. reflexivity.
    + exact IH1.
    + now rewrite (get_start_series _ _ _ _ Ec).
    + exact IH2.
Qed.

Lemma trial_init_nonneg :
  forall portfolio inflation_data values wr cy cm st,
    positive_targets portfolio -> Forall positive_series values ->
    trial_init portfolio inflation_data values wr cy cm = Ok st ->
    values_nonneg st.
Proof.
  intros portfolio inflation_data values wr cy cm st Hp Hs H.
  unfold trial_init in H.
  destruct (init_assets portfolio values cy (start_month cm))
    as [[vals rets]| |] eqn:E; cbn in H; try discriminate.
  destruct (get_start inflation_data cy (start_month cm)) as [c| |];
    cbn in H; try discriminate.
  injection H as <-. exact (init_assets_nonneg _ _ _ _ _ _ Hp Hs E).
Qed.

(** C8, amended. Withdrawals floor every asset at zero, whatever the amount
    and the values are. When every target share of the portfolio and every
    return factor is a positive finite number, each per-asset value is
    [>= 0] (and not a NaN) at the start of a trial, after the returns, after
    each kind of rebalancing and after each withdrawal, hence after every
    month and every year end of every trial, and every terminal value is
    [>= 0]. *)
Theorem asset_values_are_never_negative :
  (forall amount vals, Forall F32.nonneg (withdraw amount vals)) /\
  forall portfolio inflation_data values years wr monthly_wr rebalance threshold,
    positive_targets portfolio ->
    Forall positive_series values ->
    (forall vals rets vals' rets',
        Forall F32.nonneg vals ->
        Forall (fun c => positive_series (series c)) rets ->
        apply_returns vals rets = Ok (vals', rets') ->
        Forall F32.nonneg vals') /\
    (forall vals,
        Forall F32.nonneg vals ->
        Forall F32.nonneg
          (rebalance_with_cost monthly_rebalancing_cost portfolio vals) /\
        Forall F32.nonneg
          (rebalance_with_cost yearly_rebalancing_cost portfolio vals) /\
        Forall F32.nonneg (threshold_rebalance threshold portfolio vals)) /\
    (forall cy cm st0,
        trial_init portfolio inflation_data values wr cy cm = Ok st0 ->
        Forall F32.nonneg (current_values st0) /\
        forall log st,
          replay portfolio monthly_wr rebalance threshold log st0 = Ok st ->
          Forall F32.nonneg (current_values st)) /\
    (forall fuel cy cm final_value,
        trial portfolio inflation_data values years wr monthly_wr rebalance
              threshold fuel cy cm = Ok final_value ->
        F32.nonneg final_value).
Proof.
  split; [exact withdraw_nonneg|].
  intros portfolio inflation_data values years wr monthly_wr rebalance threshold
         Hp Hs.
  destruct fee_factors_positive as (Fm & Fy & _).
  split; [|split; [|split]].
  - intros vals rets vals' rets' Hv Hr H.
    exact (proj1 (apply_returns_nonneg _ _ _ _ Hv Hr H)).
  - intros vals Hv.
    auto using rebalance_with_cost_nonneg, threshold_rebalance_nonneg.
  - intros cy cm st0 H0.
    pose proof (trial_init_nonneg _ _ _ _ _ _ _ Hp Hs H0) as Hst0.
    split; [exact (proj1 Hst0)|].
    intros log st H. exact (proj1 (replay_nonneg _ _ _ _ _ _ _ Hp Hst0 H)).
  - intros fuel cy cm final_value H. unfold trial in H.
    destruct (trial_init portfolio inflation_data values wr cy cm)
      as [st0| |] eqn:E0; cbn [bind] in H; try discriminate.
    pose proof (trial_init_nonneg _ _ _ _ _ _ _ Hp Hs E0) as Hst0.
    destruct (trial_loops _ _ _ _ _ _ _ st0) as [st| |] eqn:E; cbn [bind] in H;
      try discriminate.
    injection H as <-. apply accumulate_nonneg.
    assert (Hst : values_nonneg st); [|exact (proj1 Hst)].
    eapply (trial_loops_invariant values_nonneg); [| |exact Hst0|exact E].
    + intros y m s s' Hs' Hb. exact (month_step_nonneg _ _ _ _ _ _ Hp Hs' Hb).
    + intros y s s' Hs' Hb. injection Hb as <-. now apply year_step_nonneg.
Qed.

Lemma flat_series_positive : forall ym n x,
  F32.pos_finite x -> positive_series (flat_series ym n x).
Proof.
  intros ym n x Hx. unfold positive_series, flat_series.
  apply Forall_forall. intros d Hd. apply in_map_iff in Hd.
  destruct Hd as (ym' & <- & _). exact Hx.
Qed.

(** A 60/40 portfolio whose first asset halves every month, with monthly
    withdrawals and threshold rebalancing: the one-year trial from March
    2000 ends at about 2.88, which is [>= 0]. *)
Lemma asset_values_are_never_negative_witness :
  let halving := flat_series (2000, 1) 36 one_half in
  let flat := flat_series (2000, 1) 36 f1 in
  let final_value := S754_finite false 12096264 (-22) in
  positive_targets sixty_forty /\
  Forall positive_series [halving; flat] /\
  trial sixty_forty flat [halving; flat] 1 (F32.of_Z 4) true THRESHOLD
        (F32.div f1 f100) 20 2000 3 = Ok final_value /\
  F32.nonneg final_value.
Proof.
  intros halving flat final_value.
  assert (Hp : positive_targets sixty_forty).
  { unfold positive_targets, sixty_forty.
    repeat (constructor; [vm_compute; exact I|]). constructor. }
  assert (Hs : Forall positive_series [halving; flat]).
  { repeat (constructor; [apply flat_series_positive; exact I|]). constructor. }
  assert (Ht : trial sixty_forty flat [halving; flat] 1 (F32.of_Z 4) true
                     THRESHOLD (F32.div f1 f100) 20 2000 3 = Ok final_value)
    by (vm_compute; reflexivity).
  split; [exact Hp|]. split; [exact Hs|]. split; [exact Ht|].
  destruct asset_values_are_never_negative as [_ H].
  destruct (H sixty_forty flat [halving; flat] 1 (F32.of_Z 4) true THRESHOLD
              (F32.div f1 f100) Hp Hs) as (_ & _ & _ & Hfinal).
  exact (Hfinal 20%nat 2000 3 final_value Ht).
Defined.

(** Outside these portfolios and series a value can be a NaN or negative.
    With weights 50, 50 and 0 and factors that are all positive and finite,
    two assets grow to about [1.9 * 2^127] each, their total overflows to
    [+infinity], and the yearly reset gives the third asset
    [infinity * 0], a NaN: the trial ends at NaN. With a factor of [-1] an
    asset of the 60/40 portfolio is worth [-600] after the returns and at
    the end of the month. With a factor of [2^127] followed by a factor of
    zero an asset is worth [infinity * 0], a NaN. *)
Lemma asset_values_can_be_nan_or_negative :
  let flat := flat_series (2000, 1) 36 f1 in
  let with_cash :=
    [mk_allocation "stocks" (F32.of_Z 50); mk_allocation "bonds" (F32.of_Z 50);
     mk_allocation "cash" (F32.of_Z 0)] in
  let boom :=
    mk_data 2000 1 f1 :: mk_data 2000 2 (S754_finite false 8388608 96)
      :: flat_series (2000, 3) 34 f1 in
  let crash := flat_series (2000, 1) 36 (F32.of_Z (-1)) in
  let burst :=
    mk_data 2000 1 f1 :: mk_data 2000 2 (S754_finite false 8388608 104)
      :: mk_data 2000 3 F32.zero :: flat_series (2000, 4) 33 f1 in
  (Forall positive_series [boom; boom; flat] /\
   map target_weight with_cash
   = [S754_finite false 8388608 (-24); S754_finite false 8388608 (-24);
      S754_zero false] /\
   trial with_cash flat [boom; boom; flat] 1 (F32.of_Z 4) true YEARLY f1 20
         2000 1 = Ok S754_nan /\
   ~ F32.nonneg S754_nan) /\
  (positive_targets sixty_forty /\
   (st0 <- trial_init sixty_forty flat [crash; flat] (F32.of_Z 4) 2000 1 ;;
    '(vals, _) <- apply_returns (current_values st0) (returns st0) ;;
    Ok vals)
   = Ok [S754_finite true 9830400 (-14); S754_finite false 13107200 (-15)] /\
   (st0 <- trial_init sixty_forty flat [crash; flat] (F32.of_Z 4) 2000 1 ;;
    st <- replay sixty_forty false NONE f1 [MonthStep 2000 1] st0 ;;
    Ok (current_values st))
   = Ok [S754_finite true 9830400 (-14); S754_finite false 13107200 (-15)] /\
   ~ F32.nonneg (S754_finite true 9830400 (-14))) /\
  (Forall nonneg_series [burst; flat] /\
   (st0 <- trial_init sixty_forty flat [burst; flat] (F32.of_Z 4) 2000 1 ;;
    st <- replay sixty_forty false NONE f1 [MonthStep 2000 1; MonthStep 2000 2]
            st0 ;;
    Ok (current_values st))
   = Ok [S754_nan; S754_finite false 13107200 (-15)]).
Proof.
  intros flat with_cash boom crash burst.
  assert (Hflat : positive_series flat) by (apply flat_series_positive; exact I).
  split; [|split].
  - split; [|split; [vm_compute; reflexivity|split;
                     [vm_compute; reflexivity|discriminate]]].
    assert (Hboom : positive_series boom).
    { unfold boom, positive_series. constructor; [exact I|].
      constructor; [exact I|]. apply flat_series_positive. exact I. }
    repeat (constructor; [first [exact Hboom|exact Hflat]|]). constructor.
  - split; [|split; [vm_compute; reflexivity|split;
                     [vm_compute; reflexivity|discriminate]]].
    unfold positive_targets, sixty_forty.
    repeat (constructor; [vm_compute; exact I|]). constructor.
  - split; [|vm_compute; reflexivity].
    assert (Hsame : forall ym n x,
               F32.nonneg x -> nonneg_series (flat_series ym n x)).
    { intros ym n x Hx. unfold nonneg_series, flat_series.
      apply Forall_forall. intros d Hd. apply in_map_iff in Hd.
      destruct Hd as (ym' & <- & _). exact Hx. }
    assert (Hburst : nonneg_series burst).
    { unfold burst, nonneg_series. constructor; [reflexivity|].
      constructor; [reflexivity|]. constructor; [reflexivity|].
      apply Hsame. reflexivity. }
    constructor; [exact Hburst|]. constructor; [|constructor].
    apply Hsame. reflexivity.
Qed.

(* ================================================================== *)
(** * Rounding to binary32

    What [SpecFloat]'s rounding does to the exact result of an operation:
    the float returned is a zero, a canonical binary32 number or an
    infinity, and no binary32 number lies strictly between it and the exact
    result on the side it was rounded from. *)

Lemma pow2_pos : forall n, (0 < pow2 n)%Q.
Proof. intros n. apply Qpower_0_lt. reflexivity. Qed.

Lemma pow2_add : forall a b, (pow2 (a + b) == pow2 a * pow2 b)%Q.
Proof. intros a b. apply Qpower_plus. discriminate. Qed.

Lemma pow2_Z : forall n, 0 <= n -> (pow2 n == inject_Z (2 ^ n))%Q.
Proof. intros n H. unfold pow2. now rewrite Zpower_Qpower. Qed.

Lemma pow2_le : forall a b, a <= b -> (pow2 a <= pow2 b)%Q.
Proof. intros a b H. apply Qpower_le_compat_l; [exact H|discriminate]. Qed.

Lemma pow2_lt : forall a b, a < b -> (pow2 a < pow2 b)%Q.
Proof. intros a b H. apply Qpower_lt_compat_l; [exact H|reflexivity]. Qed.

Lemma digits2_size : forall m, digits2_pos m = Pos.size m.
Proof. induction m; cbn; congruence. Qed.

Lemma digits_bounds : forall m,
  2 ^ (Z.pos (digits2_pos m) - 1) <= Z.pos m < 2 ^ Z.pos (digits2_pos m).
Proof.
  intros m. rewrite digits2_size. split.
  - pose proof (Pos.size_le m) as H.
    assert (H' : (2 ^ Z.pos (Pos.size m) <= 2 * Z.pos m)).
    { rewrite <- Pos2Z.inj_pow. exact H. }
    replace (Z.pos (Pos.size m)) with (Z.pos (Pos.size m) - 1 + 1) in H' by lia.
    rewrite Z.pow_add_r in H' by lia. lia.
  - pose proof (Pos.size_gt m) as H. rewrite <- Pos2Z.inj_pow. exact H.
Qed.

Lemma shr_1_inbetween : forall mrs y y',
  0 <= shr_m mrs -> record_inbetween mrs y -> (y == 2 * y')%Q ->
  record_inbetween (shr_1 mrs) y'.
Proof.
  intros [m r s] y y' Hm H E. unfold record_inbetween in *. cbn [shr_m] in *.
  destruct m as [|[p|p|]|p]; try lia; destruct r, s; cbn in H |- *;
    try (change (Z.pos p~1) with (2 * Z.pos p + 1) in H);
    try (change (Z.pos p~0) with (2 * Z.pos p) in H);
    try rewrite inject_Z_plus in H; try rewrite inject_Z_mult in H;
    change (inject_Z 2) with 2%Q in *; change (inject_Z 1) with 1%Q in *;
    change (inject_Z 0) with 0%Q in *;
    try lra.
Qed.

Lemma iter_shr_1_inbetween : forall n mrs y y',
  0 <= shr_m mrs -> record_inbetween mrs y ->
  (y == inject_Z (2 ^ Z.pos n) * y')%Q ->
  record_inbetween (iter_pos shr_1 n mrs) y'.
Proof.
  induction n as [n IH|n IH|]; intros mrs y y' Hm H E; cbn [iter_pos].
  - assert (E2 : 2 ^ Z.pos n~1 = 2 * (2 ^ Z.pos n * 2 ^ Z.pos n)).
    { rewrite (Pos2Z.inj_xI n).
      replace (2 * Z.pos n + 1) with (1 + (Z.pos n + Z.pos n)) by lia.
      rewrite !Z.pow_add_r by lia. reflexivity. }
    rewrite E2, !inject_Z_mult in E. change (inject_Z 2) with 2%Q in E.
    set (k := inject_Z (2 ^ Z.pos n)) in *.
    apply (IH _ (k * y')%Q).
    + apply (iter_pos_invariant (fun r => 0 <= shr_m r)); auto using shr_1_nonneg.
    + apply (IH _ (k * (k * y'))%Q); auto using shr_1_nonneg.
      * apply (shr_1_inbetween mrs y); auto. rewrite E. ring.
      * reflexivity.
    + reflexivity.
  - assert (E2 : 2 ^ Z.pos n~0 = 2 ^ Z.pos n * 2 ^ Z.pos n).
    { rewrite (Pos2Z.inj_xO n).
      replace (2 * Z.pos n) with (Z.pos n + Z.pos n) by lia.
      rewrite !Z.pow_add_r by lia. reflexivity. }
    rewrite E2, !inject_Z_mult in E.
    set (k := inject_Z (2 ^ Z.pos n)) in *.
    apply (IH _ (k * y')%Q).
    + apply (iter_pos_invariant (fun r => 0 <= shr_m r)); auto using shr_1_nonneg.
    + apply (IH _ y); auto. rewrite E. ring.
    + reflexivity.
  - apply (shr_1_inbetween mrs y); auto.
Qed.

Lemma record_of_loc_inbetween : forall m l y,
  inbetween m l y -> record_inbetween (shr_record_of_loc m l) y.
Proof. intros m [|[]] y H; exact H. Qed.

Lemma record_of_loc_m : forall m l, shr_m (shr_record_of_loc m l) = m.
Proof. intros m [|[]]; reflexivity. Qed.

(** Shifting right by [n >= 0] bits divides the scaled value by [2 ^ n]. *)
Lemma shr_inbetween : forall mrs e n y y',
  0 <= shr_m mrs -> 0 <= n -> record_inbetween mrs y ->
  (y == inject_Z (2 ^ n) * y')%Q ->
  let '(mrs', e') := shr mrs e n in
  record_inbetween mrs' y' /\ 0 <= shr_m mrs' /\ e' = e + n.
Proof.
  intros mrs e n y y' Hm Hn H E. unfold shr.
  destruct n as [|p|p]; try lia.
  - split; [|split; [exact Hm|lia]].
    cbn in E. unfold record_inbetween in *.
    assert (E' : (y == y')%Q) by (rewrite E; ring).
    destruct (loc_of_shr_record mrs) as [|[]]; cbn in *; rewrite <- E'; exact H.
  - split; [|split; [|reflexivity]].
    + now apply (iter_shr_1_inbetween p mrs y).
    + apply (iter_pos_invariant (fun r => 0 <= shr_m r)); auto using shr_1_nonneg.
Qed.

(** Rounding to nearest, ties to even, is monotone with respect to the
    integers. *)
Lemma round_nearest_even_spec : forall m l y,
  inbetween m l y ->
  let m' := round_nearest_even m l in
  (m' = m \/ m' = m + 1) /\
  (forall k, (inject_Z k <= y)%Q -> k <= m') /\
  (forall k, (y <= inject_Z k)%Q -> m' <= k) /\
  (inject_Z m <= y)%Q /\ (y < inject_Z m + 1)%Q.
Proof.
  intros m l y H m'.
  assert (Hb : (inject_Z m <= y)%Q /\ (y < inject_Z m + 1)%Q).
  { destruct l as [|[]]; cbn in H; lra. }
  assert (Hlo : forall k, (inject_Z k <= y)%Q -> k <= m).
  { intros k Hk. assert (Hlt : (inject_Z k < inject_Z (m + 1))%Q).
    { rewrite inject_Z_plus. change (inject_Z 1) with 1%Q. lra. }
    rewrite <- Zlt_Qlt in Hlt. lia. }
  assert (Hhi : forall k, (y <= inject_Z k)%Q -> m <= k).
  { intros k Hk. rewrite Zle_Qle. lra. }
  assert (Hhi' : forall k, (y <= inject_Z k)%Q -> ~ (y == inject_Z m)%Q -> m + 1 <= k).
  { intros k Hk Hne. assert (Hlt : (inject_Z m < inject_Z k)%Q).
    { destruct (Qlt_le_dec (inject_Z m) y) as [|Hle]; [lra|].
      exfalso. apply Hne. lra. }
    rewrite <- Zlt_Qlt in Hlt. lia. }
  subst m'. unfold round_nearest_even.
  destruct l as [|[]]; cbn in H; try destruct (Z.even m);
    repeat split; auto; try lra;
    try (intros k Hk; apply Hlo in Hk; lia);
    try (intros k Hk; apply Hhi in Hk; lia);
    try (intros k Hk; apply Hhi'; auto; lra).
Qed.

Lemma fexp_eq : forall z, fexp F32.prec F32.emax z = Z.max (z - 24) (-149).
Proof. reflexivity. Qed.

Lemma Zdigits2_upper : forall M, 0 <= M -> M < 2 ^ Zdigits2 M.
Proof.
  intros [|p|p] H; try lia; cbn [Zdigits2]; [reflexivity|].
  apply digits_bounds.
Qed.

Lemma Zdigits2_lower : forall M, 0 < M -> 2 ^ (Zdigits2 M - 1) <= M.
Proof.
  intros [|p|p] H; try lia; cbn [Zdigits2]. apply digits_bounds.
Qed.

Lemma Zdigits2_nonneg : forall M, 0 <= Zdigits2 M.
Proof. intros [|p|p]; cbn; lia. Qed.

Lemma digits_unique : forall p k,
  2 ^ (k - 1) <= Z.pos p < 2 ^ k -> Z.pos (digits2_pos p) = k.
Proof.
  intros p k [Hlo Hhi].
  destruct (digits_bounds p) as [Dlo Dhi].
  set (d := Z.pos (digits2_pos p)) in *.
  assert (0 < k).
  { destruct (Z_lt_le_dec 0 k); auto.
    assert (2 ^ k <= 2 ^ 0) by (apply Z.pow_le_mono_r; lia).
    cbn in *. lia. }
  destruct (Z_lt_le_dec d k) as [Hdk|Hdk].
  - assert (2 ^ d <= 2 ^ (k - 1)) by (apply Z.pow_le_mono_r; lia). lia.
  - destruct (Z_lt_le_dec k d) as [Hkd|Hkd]; [|lia].
    assert (2 ^ k <= 2 ^ (d - 1)) by (apply Z.pow_le_mono_r; lia). lia.
Qed.

(** What [binary_round_aux] computes, for a mantissa [M >= 0] at exponent
    [e] that is not above its canonical exponent: the scaled exact value
    [y] is rescaled to the canonical exponent [e1] and rounded there to an
    integer [m], a carry into bit 24 moving one exponent up. *)
Lemma binary_round_aux_spec : forall s M e l y,
  0 <= M -> inbetween M l y ->
  e <= fexp F32.prec F32.emax (Zdigits2 M + e) ->
  exists m e1 y1,
    let r := binary_round_aux F32.prec F32.emax s M e l in
    e <= e1 /\ -149 <= e1 /\
    (y == inject_Z (2 ^ (e1 - e)) * y1)%Q /\
    0 <= m <= 2 ^ 24 /\
    (forall k, (inject_Z k <= y1)%Q -> k <= m) /\
    (forall k, (y1 <= inject_Z k)%Q -> m <= k) /\
    (-149 < e1 -> 2 ^ 23 <= m /\ (inject_Z (2 ^ 23) <= y1)%Q) /\
    ((m = 0 /\ r = S754_zero s) \/
     (0 < m < 2 ^ 24 /\
      r = (if e1 <=? 104 then S754_finite s (Z.to_pos m) e1
           else S754_infinity s) /\
      canonical_mantissa F32.prec F32.emax (Z.to_pos m) e1 = true) \/
     (m = 2 ^ 24 /\
      r = (if e1 + 1 <=? 104 then S754_finite s (Z.to_pos (2 ^ 23)) (e1 + 1)
           else S754_infinity s))).
Proof.
  intros s M e l y HM Hy Hpre.
  set (d := Zdigits2 M) in *.
  set (e1 := fexp F32.prec F32.emax (d + e)) in *.
  assert (He1 : e1 = Z.max (d + e - 24) (-149)) by apply fexp_eq.
  set (n := e1 - e).
  assert (Hn : 0 <= n) by (unfold n; lia).
  assert (Hpow : 0 < 2 ^ n) by (apply Z.pow_pos_nonneg; lia).
  set (y1 := (y * / inject_Z (2 ^ n))%Q).
  assert (Ey : (y == inject_Z (2 ^ n) * y1)%Q).
  { unfold y1. field. intros E. 
    assert (E' : (inject_Z 0 < inject_Z (2 ^ n))%Q) by (rewrite <- Zlt_Qlt; lia).
    change (inject_Z 0) with 0%Q in E'. lra. }
  (* first shift *)
  pose proof (shr_inbetween (shr_record_of_loc M l) e n y y1) as Hshr.
  rewrite record_of_loc_m in Hshr.
  specialize (Hshr HM Hn (record_of_loc_inbetween _ _ _ Hy) Ey).
  unfold binary_round_aux, shr_fexp. fold d. fold e1. fold n.
  destruct (shr (shr_record_of_loc M l) e n) as [mrs' e'].
  destruct Hshr as (Hin & Hm' & He').
  assert (Ee' : e' = e1) by (unfold n in He'; lia).
  rewrite Ee'. clear He' Ee' e'.
  (* rounding *)
  set (m := round_nearest_even (shr_m mrs') (loc_of_shr_record mrs')).
  destruct (round_nearest_even_spec _ _ _ Hin) as (Hcase & Hlo & Hhi & Hb1 & Hb2).
  fold m in Hcase, Hlo, Hhi.
  (* bounds *)
  assert (HMd : M < 2 ^ d) by (apply Zdigits2_upper; exact HM).
  assert (Hd0 : 0 <= d) by apply Zdigits2_nonneg.
  assert (HyM : (inject_Z M <= y)%Q /\ (y < inject_Z M + 1)%Q).
  { destruct l as [|[]]; cbn in Hy; lra. }
  assert (Hy1lt : (y1 < inject_Z (2 ^ 24))%Q).
  { assert (H1 : (y < inject_Z (2 ^ n) * inject_Z (2 ^ 24))%Q).
    { rewrite <- inject_Z_mult.
      assert (H2 : M + 1 <= 2 ^ n * 2 ^ 24).
      { destruct (Z_le_gt_dec n d).
        - replace d with (n + (d - n)) in HMd by lia.
          rewrite Z.pow_add_r in HMd by lia.
          assert (2 ^ (d - n) <= 2 ^ 24) by (apply Z.pow_le_mono_r; lia). nia.
        - assert (2 ^ d <= 2 ^ n) by (apply Z.pow_le_mono_r; lia). nia. }
      rewrite Zle_Qle, inject_Z_plus in H2. change (inject_Z 1) with 1%Q in H2.
      lra. }
    rewrite Ey in H1. apply Qmult_lt_l in H1; auto.
    rewrite <- (Zlt_Qlt 0). exact Hpow. }
  assert (Hm'lt : shr_m mrs' < 2 ^ 24).
  { rewrite Zlt_Qlt. lra. }
  assert (Hmle : 0 <= m <= 2 ^ 24) by lia.
  assert (Hnorm : -149 < e1 -> 2 ^ 23 <= m /\ (inject_Z (2 ^ 23) <= y1)%Q).
  { intros Hgt.
    assert (Hn' : n = d - 24) by (unfold n; lia).
    assert (HMpos : 0 < M).
    { destruct (Z.eq_dec M 0) as [E0|]; [|lia]. exfalso.
      unfold d in He1. rewrite E0 in He1. cbn [Zdigits2] in He1. lia. }
    pose proof (Zdigits2_lower M HMpos) as Hlow. fold d in Hlow.
    replace (d - 1) with (n + 23) in Hlow by lia.
    rewrite Z.pow_add_r in Hlow by lia.
    assert (H1 : (inject_Z (2 ^ n) * inject_Z (2 ^ 23) <= y)%Q).
    { rewrite <- inject_Z_mult. rewrite Zle_Qle in Hlow. lra. }
    rewrite Ey in H1. apply Qmult_le_l in H1;
      [|rewrite <- (Zlt_Qlt 0); exact Hpow].
    split; [apply Hlo; exact H1 | exact H1]. }
  exists m, e1, y1. cbv zeta.
  split; [lia|]. split; [lia|]. split; [exact Ey|]. split; [exact Hmle|].
  split; [exact Hlo|]. split; [exact Hhi|]. split; [exact Hnorm|].
  (* second shift *)
  cbn [shr_record_of_loc].
  destruct (Z.eq_dec m 0) as [E0|Hne0].
  - left. split; [exact E0|]. rewrite E0. cbn [Zdigits2].
    rewrite fexp_eq.
    assert (Hz : Z.max (0 + e1 - 24) (-149) - e1 <= 0) by lia.
    unfold shr. remember (Z.max (0 + e1 - 24) (-149) - e1) as n2 eqn:En2.
    clear En2. destruct n2; try lia; reflexivity.
  - destruct (Z.eq_dec m (2 ^ 24)) as [E24|Hne24].
    + right. right. split; [exact E24|]. rewrite E24.
      change (Zdigits2 (2 ^ 24)) with 25. rewrite fexp_eq.
      replace (Z.max (25 + e1 - 24) (-149) - e1) with 1 by lia.
      cbn [shr iter_pos shr_1 shr_m]. cbn.
      replace (e1 + 1 <=? 104) with (e1 + 1 <=? 128 - 24) by reflexivity.
      reflexivity.
    + right. left. assert (Hr : 0 < m < 2 ^ 24) by lia.
      split; [exact Hr|].
      destruct m as [|p|p] eqn:Em; try lia.
      cbn [Zdigits2 Z.to_pos].
      pose proof (digits_bounds p) as [Dlo Dhi].
      set (d2 := Z.pos (digits2_pos p)) in *.
      assert (Hd2 : d2 <= 24).
      { destruct (Z_le_gt_dec d2 24); auto.
        assert (2 ^ 24 <= 2 ^ (d2 - 1)) by (apply Z.pow_le_mono_r; lia). lia. }
      assert (Hcanon : Z.max (d2 + e1 - 24) (-149) = e1).
      { destruct (Z_le_gt_dec e1 (-149)); [lia|].
        destruct Hnorm as [H23 _]; [lia|].
        assert (d2 = 24); [|lia].
        apply digits_unique. change (24 - 1) with 23. lia. }
      rewrite fexp_eq, Hcanon, Z.sub_diag. cbn [shr shr_m].
      split; [reflexivity|].
      unfold canonical_mantissa. fold d2. rewrite fexp_eq, Hcanon.
      apply Z.eqb_refl.
Qed.

Lemma pow2_split : forall a b,
  a <= b -> (pow2 b == inject_Z (2 ^ (b - a)) * pow2 a)%Q.
Proof.
  intros a b H. rewrite <- pow2_Z by lia. rewrite <- pow2_add.
  replace (b - a + a) with b by lia. reflexivity.
Qed.

Lemma inject_Z_pow2_pos : forall n, 0 <= n -> (0 < inject_Z (2 ^ n))%Q.
Proof.
  intros n H. rewrite <- (Zlt_Qlt 0). apply Z.pow_pos_nonneg; lia.
Qed.

(** The value rounded to, its place among the binary32 numbers, and the
    float returned. *)
Lemma binary_round_aux_value : forall s M e l y,
  0 <= M -> inbetween M l y ->
  e <= fexp F32.prec F32.emax (Zdigits2 M + e) ->
  exists R : Q,
    let r := binary_round_aux F32.prec F32.emax s M e l in
    (0 <= R)%Q /\
    (forall my ey, 0 <= my < 2 ^ 24 -> -149 <= ey ->
        let Y := (inject_Z my * pow2 ey)%Q in
        ((Y <= y * pow2 e)%Q -> (Y <= R)%Q) /\
        ((y * pow2 e <= Y)%Q -> (R <= Y)%Q)) /\
    ((r = S754_zero s /\ (R == 0)%Q) \/
     (exists m' e',
         r = S754_finite s m' e' /\
         canonical_mantissa F32.prec F32.emax m' e' = true /\
         Z.pos m' < 2 ^ 24 /\ -149 <= e' <= 104 /\
         (R == inject_Z (Z.pos m') * pow2 e')%Q) \/
     (r = S754_infinity s /\ (pow2 128 <= R)%Q)).
Proof.
  intros s M e l y HM Hy Hpre.
  destruct (binary_round_aux_spec s M e l y HM Hy Hpre)
    as (m & e1 & y1 & He & He1 & Ey & Hm & Hlo & Hhi & Hnorm & Hres).
  cbv zeta in Hres.
  set (R := (inject_Z m * pow2 e1)%Q).
  assert (HX : (y * pow2 e == y1 * pow2 e1)%Q).
  { rewrite Ey, (pow2_split e e1) by lia. ring. }
  assert (Hp1 : (0 < pow2 e1)%Q) by apply pow2_pos.
  exists R. cbv zeta. split; [|split].
  - unfold R. apply Qmult_le_0_compat; [|lra].
    change 0%Q with (inject_Z 0). rewrite <- Zle_Qle. lia.
  - intros my ey Hmy Hey.
    destruct (Z_le_gt_dec e1 ey) as [Hge|Hlt].
    + (* on the grid of the result *)
      assert (EY : (inject_Z my * pow2 ey
                    == inject_Z (my * 2 ^ (ey - e1)) * pow2 e1)%Q).
      { rewrite (pow2_split e1 ey) by lia. rewrite inject_Z_mult. ring. }
      rewrite EY, HX. unfold R. split; intros H.
      * apply Qmult_le_r in H; auto. apply Qmult_le_r; auto.
        rewrite <- Zle_Qle. apply Hlo. exact H.
      * apply Qmult_le_r in H; auto. apply Qmult_le_r; auto.
        rewrite <- Zle_Qle. apply Hhi. exact H.
    + (* below the smallest normal number at the exponent of the result *)
      destruct Hnorm as [Hm23 Hy23]; [lia|].
      assert (HY : (inject_Z my * pow2 ey < inject_Z (2 ^ 23) * pow2 e1)%Q).
      { assert (H1 : (inject_Z my * pow2 ey < inject_Z (2 ^ 24) * pow2 ey)%Q).
        { apply Qmult_lt_compat_r; [apply pow2_pos|].
          rewrite <- Zlt_Qlt. lia. }
        assert (H2 : (pow2 ey <= pow2 (e1 - 1))%Q) by (apply pow2_le; lia).
        assert (H3 : (pow2 e1 == 2 * pow2 (e1 - 1))%Q).
        { rewrite (pow2_split (e1 - 1) e1) by lia.
          replace (e1 - (e1 - 1)) with 1 by lia. reflexivity. }
        rewrite H3.
        change (inject_Z (2 ^ 24)) with (2 * inject_Z (2 ^ 23))%Q in H1.
        pose proof (inject_Z_pow2_pos 23 ltac:(lia)) as H4.
        assert (H5 : (inject_Z (2 ^ 23) * pow2 ey
                      <= inject_Z (2 ^ 23) * pow2 (e1 - 1))%Q).
        { apply Qmult_le_l; auto. }
        lra. }
      assert (HR : (inject_Z (2 ^ 23) * pow2 e1 <= R)%Q).
      { unfold R. apply Qmult_le_r; auto. rewrite <- Zle_Qle. exact Hm23. }
      assert (HXl : (inject_Z (2 ^ 23) * pow2 e1 <= y * pow2 e)%Q).
      { rewrite HX. apply Qmult_le_r; auto. }
      split; intros H; lra.
  - destruct Hres as [[E0 Hr]|[(Hr0 & Hr & Hc)|[E24 Hr]]].
    + left. split; [exact Hr|]. unfold R. rewrite E0. ring.
    + destruct (e1 <=? 104) eqn:E104.
      * apply Z.leb_le in E104. right. left.
        exists (Z.to_pos m), e1. rewrite Z2Pos.id by lia.
        split; [exact Hr|]. split; [exact Hc|]. split; [lia|].
        split; [lia|]. reflexivity.
      * apply Z.leb_gt in E104. right. right. split; [exact Hr|].
        destruct Hnorm as [Hm23 _]; [lia|].
        unfold R.
        assert (H1 : (pow2 128 == inject_Z (2 ^ 23) * pow2 105)%Q)
          by reflexivity.
        rewrite H1.
        assert (H2 : (pow2 105 <= pow2 e1)%Q) by (apply pow2_le; lia).
        assert (H3 : (inject_Z (2 ^ 23) * pow2 105
                      <= inject_Z (2 ^ 23) * pow2 e1)%Q).
        { apply Qmult_le_l; auto. apply inject_Z_pow2_pos. lia. }
        assert (H4 : (inject_Z (2 ^ 23) * pow2 e1 <= inject_Z m * pow2 e1)%Q).
        { apply Qmult_le_r; auto. rewrite <- Zle_Qle. exact Hm23. }
        lra.
    + assert (ER : (R == inject_Z (2 ^ 23) * pow2 (e1 + 1))%Q).
      { unfold R. rewrite E24, (pow2_split e1 (e1 + 1)) by lia.
        replace (e1 + 1 - e1) with 1 by lia.
        change (inject_Z (2 ^ 24)) with (inject_Z (2 ^ 23) * inject_Z (2 ^ 1))%Q.
        ring. }
      destruct (e1 + 1 <=? 104) eqn:E104.
      * apply Z.leb_le in E104. right. left.
        exists (Z.to_pos (2 ^ 23)), (e1 + 1).
        split; [exact Hr|]. split.
        { unfold canonical_mantissa. rewrite fexp_eq.
          change (Z.pos (digits2_pos (Z.to_pos (2 ^ 23)))) with 24.
          apply Z.eqb_eq. lia. }
        split; [reflexivity|]. split; [lia|]. exact ER.
      * apply Z.leb_gt in E104. right. right. split; [exact Hr|].
        rewrite ER.
        assert (H1 : (pow2 128 == inject_Z (2 ^ 23) * pow2 105)%Q)
          by reflexivity.
        rewrite H1. apply Qmult_le_l; [apply inject_Z_pow2_pos; lia|].
        apply pow2_le. lia.
Qed.

Lemma iter_xO_value : forall d m, Z.pos (Pos.iter xO m d) = Z.pos m * 2 ^ Z.pos d.
Proof.
  intros d m. induction d as [|d IH] using Pos.peano_ind.
  - cbn. lia.
  - rewrite Pos.iter_succ, Pos2Z.inj_xO, IH, Pos2Z.inj_succ, Z.pow_succ_r by lia.
    lia.
Qed.

Lemma shl_align_spec : forall m e e0,
  let '(m', e') := shl_align m e e0 in
  e' = Z.min e e0 /\ Z.pos m' = Z.pos m * 2 ^ (e - e').
Proof.
  intros m e e0. unfold shl_align.
  destruct (e0 - e) as [|d|d] eqn:E.
  - split; [lia|]. rewrite Z.sub_diag. cbn. lia.
  - split; [lia|]. rewrite Z.sub_diag. cbn. lia.
  - split; [lia|]. rewrite iter_xO_value. do 2 f_equal. lia.
Qed.

Lemma digits_shift : forall m m' k,
  0 <= k -> Z.pos m' = Z.pos m * 2 ^ k ->
  Z.pos (digits2_pos m') = Z.pos (digits2_pos m) + k.
Proof.
  intros m m' k Hk E. apply digits_unique. rewrite E.
  destruct (digits_bounds m) as [Lo Hi].
  assert (0 < 2 ^ k) by (apply Z.pow_pos_nonneg; lia).
  replace (Z.pos (digits2_pos m) + k - 1)
    with (Z.pos (digits2_pos m) - 1 + k) by lia.
  rewrite !Z.pow_add_r by lia. nia.
Qed.

Lemma val_shift : forall m m' e e',
  e' <= e -> Z.pos m' = Z.pos m * 2 ^ (e - e') ->
  (inject_Z (Z.pos m') * pow2 e' == inject_Z (Z.pos m) * pow2 e)%Q.
Proof.
  intros m m' e e' H E. rewrite E, inject_Z_mult, (pow2_split e' e) by lia.
  ring.
Qed.

(** [binary_round] rounds the exact value [m * 2 ^ e]. *)
Lemma binary_round_value : forall s m e,
  exists R : Q,
    let r := binary_round F32.prec F32.emax s m e in
    let X := (inject_Z (Z.pos m) * pow2 e)%Q in
    (0 <= R)%Q /\
    (forall my ey, 0 <= my < 2 ^ 24 -> -149 <= ey ->
        let Y := (inject_Z my * pow2 ey)%Q in
        ((Y <= X)%Q -> (Y <= R)%Q) /\ ((X <= Y)%Q -> (R <= Y)%Q)) /\
    ((r = S754_zero s /\ (R == 0)%Q) \/
     (exists m' e',
         r = S754_finite s m' e' /\
         canonical_mantissa F32.prec F32.emax m' e' = true /\
         Z.pos m' < 2 ^ 24 /\ -149 <= e' <= 104 /\
         (R == inject_Z (Z.pos m') * pow2 e')%Q) \/
     (r = S754_infinity s /\ (pow2 128 <= R)%Q)).
Proof.
  intros s m e. unfold binary_round.
  pose proof (shl_align_spec m e
                (fexp F32.prec F32.emax (Z.pos (digits2_pos m) + e))) as Hal.
  destruct (shl_align m e _) as [mz ez]. destruct Hal as [Hez Hmz].
  assert (Hle : ez <= e) by lia.
  assert (Hd : Z.pos (digits2_pos mz) + ez = Z.pos (digits2_pos m) + e).
  { rewrite (digits_shift m mz (e - ez)) by (auto; lia). lia. }
  destruct (binary_round_aux_value s (Z.pos mz) ez loc_Exact (inject_Z (Z.pos mz)))
    as (R & HR0 & Hmono & Hcls).
  - lia.
  - cbn. reflexivity.
  - cbn [Zdigits2]. rewrite Hd. lia.
  - exists R. cbv zeta in *. split; [exact HR0|]. split; [|exact Hcls].
    intros my ey Hmy Hey. specialize (Hmono my ey Hmy Hey).
    rewrite (val_shift m mz e ez Hle Hmz) in Hmono. exact Hmono.
Qed.

Lemma to_Q_finite : forall s m e,
  (F32.to_Q (S754_finite s m e)
   == (if s then - (inject_Z (Z.pos m) * pow2 e) else inject_Z (Z.pos m) * pow2 e))%Q.
Proof. intros [] m e; reflexivity. Qed.

Lemma to_Q_pos : forall m e, (0 < F32.to_Q (S754_finite false m e))%Q.
Proof.
  intros m e. rewrite to_Q_finite.
  apply Qmult_lt_0_compat; [reflexivity|apply pow2_pos].
Qed.

Lemma inbetween_exists : forall M l, exists y, inbetween M l y.
Proof.
  intros M [|[]].
  - exists (inject_Z M). cbn. reflexivity.
  - exists (inject_Z M + (1#2))%Q. cbn. reflexivity.
  - exists (inject_Z M + (1#4))%Q. cbn. lra.
  - exists (inject_Z M + (3#4))%Q. cbn. lra.
Qed.

(** Whatever is rounded, a finite result has a mantissa below [2 ^ 24] and
    an exponent of at least [-149]. *)
Lemma binary_round_aux_bounded : forall s M e l,
  0 <= M -> bounded_float (binary_round_aux F32.prec F32.emax s M e l).
Proof.
  intros s M e l HM.
  destruct (inbetween_exists M l) as (y & Hy).
  unfold binary_round_aux, shr_fexp.
  set (d := Zdigits2 M).
  assert (HMd : M < 2 ^ d) by (apply Zdigits2_upper; exact HM).
  assert (Hd0 : 0 <= d) by apply Zdigits2_nonneg.
  rewrite fexp_eq.
  set (n := Z.max (d + e - 24) (-149) - e).
  (* first shift *)
  assert (H1 : let '(mrs', e') := shr (shr_record_of_loc M l) e n in
               0 <= shr_m mrs' < 2 ^ 24 /\ -149 <= e').
  { destruct (Z_le_gt_dec n 0) as [Hn|Hn].
    - assert (E : shr (shr_record_of_loc M l) e n = (shr_record_of_loc M l, e)).
      { unfold shr. destruct n; try lia; reflexivity. }
      rewrite E, record_of_loc_m.
      assert (2 ^ d <= 2 ^ 24) by (apply Z.pow_le_mono_r; lia). 
      split; lia.
    - set (y1 := (y * / inject_Z (2 ^ n))%Q).
      assert (Hpow : 0 < 2 ^ n) by (apply Z.pow_pos_nonneg; lia).
      assert (Ey : (y == inject_Z (2 ^ n) * y1)%Q).
      { unfold y1. field. intros E.
        assert (E' : (inject_Z 0 < inject_Z (2 ^ n))%Q) by (rewrite <- Zlt_Qlt; lia).
        change (inject_Z 0) with 0%Q in E'. lra. }
      pose proof (shr_inbetween (shr_record_of_loc M l) e n y y1) as Hshr.
      rewrite record_of_loc_m in Hshr.
      specialize (Hshr HM ltac:(lia) (record_of_loc_inbetween _ _ _ Hy) Ey).
      destruct (shr (shr_record_of_loc M l) e n) as [mrs' e'].
      destruct Hshr as (Hin & Hm' & He').
      destruct (round_nearest_even_spec _ _ _ Hin) as (_ & _ & _ & Hb1 & _).
      assert (HyM : (y < inject_Z M + 1)%Q).
      { destruct l as [|[]]; cbn in Hy; lra. }
      assert (H2 : M + 1 <= 2 ^ n * 2 ^ 24).
      { destruct (Z_le_gt_dec n d).
        - replace d with (n + (d - n)) in HMd by lia.
          rewrite Z.pow_add_r in HMd by lia.
          assert (2 ^ (d - n) <= 2 ^ 24) by (apply Z.pow_le_mono_r; lia). nia.
        - assert (2 ^ d <= 2 ^ n) by (apply Z.pow_le_mono_r; lia). nia. }
      assert (H3 : (y < inject_Z (2 ^ n) * inject_Z (2 ^ 24))%Q).
      { rewrite <- inject_Z_mult. rewrite Zle_Qle, inject_Z_plus in H2.
        change (inject_Z 1) with 1%Q in H2. lra. }
      rewrite Ey in H3. apply Qmult_lt_l in H3;
        [|rewrite <- (Zlt_Qlt 0); exact Hpow].
      split; [split; [exact Hm'|rewrite Zlt_Qlt; lra]|lia]. }
  destruct (shr (shr_record_of_loc M l) e n) as [mrs' e'].
  destruct H1 as [Hm' He'].
  set (m := round_nearest_even (shr_m mrs') (loc_of_shr_record mrs')).
  assert (Hm : 0 <= m <= 2 ^ 24).
  { unfold m, round_nearest_even.
    destruct (loc_of_shr_record mrs') as [|[]]; try destruct (Z.even _); lia. }
  (* second shift *)
  set (d2 := Zdigits2 m).
  assert (Hmd2 : m < 2 ^ d2) by (apply Zdigits2_upper; lia).
  assert (Hd20 : 0 <= d2) by apply Zdigits2_nonneg.
  rewrite fexp_eq.
  set (n2 := Z.max (d2 + e' - 24) (-149) - e').
  cbn [shr_record_of_loc].
  destruct (Z_le_gt_dec n2 0) as [Hn2|Hn2].
  - assert (E : shr {| shr_m := m; shr_r := false; shr_s := false |} e' n2
                = ({| shr_m := m; shr_r := false; shr_s := false |}, e')).
    { unfold shr. destruct n2; try lia; reflexivity. }
    rewrite E. cbn [shr_m].
    destruct m as [|p|p]; try exact I; try lia.
    destruct (e' <=? F32.emax - F32.prec); [|exact I].
    cbn. split; [|lia].
    assert (2 ^ d2 <= 2 ^ 24) by (apply Z.pow_le_mono_r; lia). lia.
  - set (y2 := (inject_Z m * / inject_Z (2 ^ n2))%Q).
    assert (Hpow : 0 < 2 ^ n2) by (apply Z.pow_pos_nonneg; lia).
    assert (Hpos : (0 < inject_Z (2 ^ n2))%Q) by (rewrite <- (Zlt_Qlt 0); lia).
    assert (Ey : (inject_Z m == inject_Z (2 ^ n2) * y2)%Q).
    { unfold y2. field. lra. }
    pose proof (shr_inbetween {| shr_m := m; shr_r := false; shr_s := false |}
                  e' n2 (inject_Z m) y2) as Hshr.
    cbn [shr_m] in Hshr.
    specialize (Hshr ltac:(lia) ltac:(lia) ltac:(cbn; reflexivity) Ey).
    destruct (shr _ e' n2) as [mrs'' e''].
    destruct Hshr as (Hin & Hm'' & He'').
    destruct (round_nearest_even_spec _ _ _ Hin) as (_ & _ & _ & Hb1 & _).
    assert (H2 : 2 <= 2 ^ n2).
    { change 2 with (2 ^ 1) at 1. apply Z.pow_le_mono_r; lia. }
    assert (H3 : (inject_Z (2 ^ n2) * y2 <= inject_Z (2 ^ n2) * inject_Z (2 ^ 23))%Q).
    { rewrite <- Ey, <- inject_Z_mult, <- Zle_Qle.
      change (2 ^ 24) with (2 * 2 ^ 23) in Hm. nia. }
    apply Qmult_le_l in H3; auto.
    destruct (shr_m mrs'') as [|p|p]; try exact I; try lia.
    destruct (e'' <=? F32.emax - F32.prec); [|exact I].
    cbn. split; [|lia].
    assert (Hlt : (inject_Z (Z.pos p) < inject_Z (2 ^ 24))%Q).
    { change (inject_Z (2 ^ 24)) with (2 * inject_Z (2 ^ 23))%Q.
      pose proof (inject_Z_pow2_pos 23 ltac:(lia)). lra. }
    rewrite <- Zlt_Qlt in Hlt. exact Hlt.
Qed.

Lemma pow2_lt_inv : forall a b, (pow2 a < pow2 b)%Q -> a < b.
Proof.
  intros a b H. destruct (Z_lt_le_dec a b) as [|Hle]; auto.
  apply pow2_le in Hle. lra.
Qed.

(** A canonical finite number below one has an exponent of at most [-24],
    so that [1 <= |x|] is false. *)
Lemma canonical_below_one : forall s m e,
  canonical_mantissa F32.prec F32.emax m e = true ->
  (inject_Z (Z.pos m) * pow2 e < 1)%Q ->
  F32.geb (F32.abs (S754_finite s m e)) f1 = false.
Proof.
  intros s m e Hc Hlt.
  unfold canonical_mantissa in Hc. rewrite fexp_eq in Hc.
  apply Z.eqb_eq in Hc.
  destruct (digits_bounds m) as [Lo _].
  set (d := Z.pos (digits2_pos m)) in *.
  assert (Hd : d + e <= 0).
  { assert (H1 : (pow2 (d - 1 + e) < pow2 0)%Q).
    { rewrite pow2_add, (pow2_Z (d - 1)) by (unfold d; lia).
      assert (H2 : (inject_Z (2 ^ (d - 1)) * pow2 e
                    <= inject_Z (Z.pos m) * pow2 e)%Q).
      { apply Qmult_le_r; [apply pow2_pos|]. rewrite <- Zle_Qle. exact Lo. }
      change (pow2 0) with 1%Q. lra. }
    apply pow2_lt_inv in H1. lia. }
  assert (He : e <= -24) by lia.
  unfold F32.geb, F32.abs, SFabs, SFleb, SFcompare, f1.
  destruct (Z.compare_spec (-23) e); try lia; try reflexivity.
Qed.

Lemma shl_align_fst : forall m e e0,
  e0 <= e -> Z.pos (fst (shl_align m e e0)) = Z.pos m * 2 ^ (e - e0).
Proof.
  intros m e e0 H. pose proof (shl_align_spec m e e0) as S.
  destruct (shl_align m e e0) as [m' e']. destruct S as [E1 E2].
  cbn [fst]. rewrite E2. do 2 f_equal. lia.
Qed.

Lemma aligned_value : forall m e e0,
  e0 <= e ->
  (inject_Z (Z.pos (fst (shl_align m e e0))) * pow2 e0
   == inject_Z (Z.pos m) * pow2 e)%Q.
Proof.
  intros m e e0 H. rewrite shl_align_fst by exact H.
  rewrite inject_Z_mult, (pow2_split e0 e) by lia. ring.
Qed.

(** The sum of two positive finite numbers: not below either of them. *)
Lemma add_finite_dominates : forall mx ex my ey,
  bounded_float (S754_finite false mx ex) ->
  bounded_float (S754_finite false my ey) ->
  let x := S754_finite false mx ex in
  let y := S754_finite false my ey in
  let r := F32.add x y in
  nonneg_shape r /\ bounded_float r /\ dominated x r /\ dominated y r.
Proof.
  intros mx ex my ey [Hmx Hex] [Hmy Hey] x y r.
  unfold r, F32.add, SFadd, x, y. cbn [cond_Zopp].
  set (ez := Z.min ex ey).
  pose proof (aligned_value mx ex ez ltac:(lia)) as Vx.
  pose proof (aligned_value my ey ez ltac:(lia)) as Vy.
  set (ax := fst (shl_align mx ex ez)) in *.
  set (ay := fst (shl_align my ey ez)) in *.
  change (Z.pos ax + Z.pos ay) with (Z.pos (ax + ay)).
  cbn [binary_normalize].
  destruct (binary_round_value false (ax + ay) ez) as (R & HR0 & Hmono & Hcls).
  cbv zeta in Hmono, Hcls.
  assert (EX : (inject_Z (Z.pos (ax + ay)) * pow2 ez
                == F32.to_Q x + F32.to_Q y)%Q).
  { unfold x, y. rewrite !to_Q_finite, Pos2Z.inj_add, inject_Z_plus.
    rewrite <- Vx, <- Vy. ring. }
  pose proof (to_Q_pos mx ex) as Px. pose proof (to_Q_pos my ey) as Py.
  fold x in Px. fold y in Py.
  assert (Rx : (F32.to_Q x <= R)%Q).
  { unfold x at 1. rewrite to_Q_finite.
    apply (Hmono (Z.pos mx) ex); [lia|lia|].
    rewrite EX. unfold x at 1. rewrite to_Q_finite. lra. }
  assert (Ry : (F32.to_Q y <= R)%Q).
  { unfold y at 1. rewrite to_Q_finite.
    apply (Hmono (Z.pos my) ey); [lia|lia|].
    rewrite EX. unfold y at 1. rewrite to_Q_finite. lra. }
  destruct Hcls as [[Hr HR]|[(m' & e' & Hr & Hc & Hb & He & HR)|[Hr HR]]];
    rewrite Hr.
  - exfalso. lra.
  - split; [exact I|]. split; [split; lia|].
    assert (ER : (F32.to_Q (S754_finite false m' e') == R)%Q)
      by (rewrite to_Q_finite; symmetry; exact HR).
    split; right; (split; [exact I|split; [exact I|]]); rewrite ER; assumption.
  - split; [exact I|]. split; [exact I|]. split; left; reflexivity.
Qed.

Lemma pow2_128_ge_1 : (1 <= pow2 128)%Q.
Proof. change 1%Q with (pow2 0). apply pow2_le. lia. Qed.

Lemma max_share_representable :
  (inject_Z (2 ^ 24 - 1) * pow2 (-24) == 1 - pow2 (-24))%Q.
Proof. reflexivity. Qed.

(** When a target share [t] and an actual share [a] differ by at most
    [1 - 2^-24], their difference is, once rounded, still below one in
    magnitude. *)
Lemma sub_below_one : forall mt et ma ea,
  let t := S754_finite false mt et in
  let a := S754_finite false ma ea in
  (F32.to_Q t - F32.to_Q a <= 1 - pow2 (-24))%Q ->
  (F32.to_Q a - F32.to_Q t <= 1 - pow2 (-24))%Q ->
  F32.geb (F32.abs (F32.sub t a)) f1 = false.
Proof.
  intros mt et ma ea t a Hta Hat.
  unfold F32.sub, SFsub, t, a. cbn [cond_Zopp].
  set (ez := Z.min et ea).
  pose proof (aligned_value mt et ez ltac:(lia)) as Vt.
  pose proof (aligned_value ma ea ez ltac:(lia)) as Va.
  set (at_ := fst (shl_align mt et ez)) in *.
  set (aa := fst (shl_align ma ea ez)) in *.
  assert (Ed : (inject_Z (Z.pos at_ - Z.pos aa) * pow2 ez
                == F32.to_Q t - F32.to_Q a)%Q).
  { unfold t, a. rewrite !to_Q_finite. unfold Z.sub.
    rewrite inject_Z_plus, inject_Z_opp, <- Vt, <- Va. ring. }
  assert (Hfin : forall s p,
             (inject_Z (Z.pos p) * pow2 ez <= 1 - pow2 (-24))%Q ->
             F32.geb (F32.abs (binary_round F32.prec F32.emax s p ez)) f1 = false).
  { intros s p Hp.
    destruct (binary_round_value s p ez) as (R & HR0 & Hmono & Hcls).
    cbv zeta in Hmono, Hcls.
    assert (HR : (R <= 1 - pow2 (-24))%Q).
    { rewrite <- max_share_representable.
      apply (Hmono (2 ^ 24 - 1) (-24)); [cbn; lia|lia|].
      rewrite max_share_representable. exact Hp. }
    assert (Hlt : (R < 1)%Q) by (pose proof (pow2_pos (-24)); lra).
    destruct Hcls as [[Hr _]|[(m' & e' & Hr & Hc & Hb & He & HR')|[Hr HR']]];
      rewrite Hr.
    - destruct s; reflexivity.
    - apply canonical_below_one; [exact Hc|]. rewrite <- HR'. exact Hlt.
    - exfalso. pose proof pow2_128_ge_1. lra. }
  destruct (Z.pos at_ - Z.pos aa) as [|p|p] eqn:Ediff; cbn [binary_normalize].
  - reflexivity.
  - apply Hfin. rewrite Ed. lra.
  - apply Hfin.
    assert (E' : (inject_Z (Z.pos p) * pow2 ez == F32.to_Q a - F32.to_Q t)%Q).
    { change (Z.neg p) with (- Z.pos p)%Z in Ed. rewrite inject_Z_opp in Ed.
      lra. }
    rewrite E'. lra.
Qed.

Lemma inbetween_compat : forall m l y y',
  (y == y')%Q -> inbetween m l y -> inbetween m l y'.
Proof.
  intros m [|[]] y y' E H; cbv beta iota delta [inbetween] in *; lra.
Qed.

Lemma new_location_inbetween : forall q r my,
  0 <= r < my ->
  inbetween q (new_location my r) (inject_Z (my * q + r) / inject_Z my).
Proof.
  intros q r my Hr.
  assert (Hmy : (0 < inject_Z my)%Q) by (rewrite <- (Zlt_Qlt 0); lia).
  set (rho := (inject_Z r / inject_Z my)%Q).
  assert (Ey : (inject_Z (my * q + r) / inject_Z my == inject_Z q + rho)%Q).
  { unfold rho. rewrite inject_Z_plus, inject_Z_mult. field. lra. }
  assert (Erho : (rho * inject_Z my == inject_Z r)%Q).
  { unfold rho. field. lra. }
  assert (Hcmp : forall c, (2 * r ?= my) = c ->
            match c with
            | Lt => (rho < 1#2)%Q
            | Eq => (rho == 1#2)%Q
            | Gt => (1#2 < rho)%Q
            end).
  { intros c Hc.
    assert (E2 : (inject_Z (2 * r) == 2 * (rho * inject_Z my))%Q).
    { rewrite inject_Z_mult, Erho. reflexivity. }
    destruct c.
    - apply Z.compare_eq in Hc.
      assert (H : (2 * (rho * inject_Z my) == inject_Z my)%Q)
        by (rewrite <- E2, Hc; reflexivity).
      assert (H' : ((rho - (1#2)) * inject_Z my == 0)%Q) by lra.
      apply Qmult_integral in H'. destruct H' as [H'|H']; lra.
    - rewrite Z.compare_lt_iff, Zlt_Qlt, E2 in Hc.
      apply (Qmult_lt_r _ _ (inject_Z my)); auto. lra.
    - rewrite Z.compare_gt_iff, Zlt_Qlt, E2 in Hc.
      apply (Qmult_lt_r _ _ (inject_Z my)); auto. lra. }
  assert (Hrho0 : r <> 0 -> (0 < rho)%Q).
  { intros Hne. apply (Qmult_lt_r _ _ (inject_Z my)); auto.
    rewrite Erho, Qmult_0_l. change 0%Q with (inject_Z 0).
    rewrite <- Zlt_Qlt. lia. }
  assert (Hrho1 : (rho < 1)%Q).
  { apply (Qmult_lt_r _ _ (inject_Z my)); auto.
    rewrite Erho, Qmult_1_l, <- Zlt_Qlt. lia. }
  apply (inbetween_compat q _ (inject_Z q + rho)%Q); [symmetry; exact Ey|].
  assert (Er : r = 0 -> (rho == 0)%Q).
  { intros E0. unfold rho. rewrite E0. change (inject_Z 0) with 0%Q. field. lra. }
  unfold new_location.
  destruct (Z.even my) eqn:Eev.
  - unfold new_location_even.
    destruct (r =? 0) eqn:E0.
    + apply Z.eqb_eq in E0. specialize (Er E0).
      cbv beta iota delta [inbetween]. lra.
    + apply Z.eqb_neq in E0. specialize (Hrho0 E0).
      pose proof (Hcmp _ eq_refl) as H.
      destruct (2 * r ?= my); cbv beta iota delta [inbetween]; lra.
  - unfold new_location_odd.
    destruct (r =? 0) eqn:E0.
    + apply Z.eqb_eq in E0. specialize (Er E0).
      cbv beta iota delta [inbetween]. lra.
    + apply Z.eqb_neq in E0. specialize (Hrho0 E0).
      assert (Hodd : 2 * r <> my).
      { intros E. rewrite <- E, Z.even_mul in Eev. discriminate. }
      pose proof (Hcmp _ eq_refl) as H.
      destruct (Z.compare_spec (2 * r + 1) my) as [E|L|G];
        cbv beta iota delta [inbetween].
      * assert (Hc : (2 * r ?= my) = Lt) by (apply Z.compare_lt_iff; lia).
        rewrite Hc in H. lra.
      * assert (Hc : (2 * r ?= my) = Lt) by (apply Z.compare_lt_iff; lia).
        rewrite Hc in H. lra.
      * assert (Hc : (2 * r ?= my) = Gt) by (apply Z.compare_gt_iff; lia).
        rewrite Hc in H. lra.
Qed.

Lemma Zdigits2_ge : forall q k, 0 <= k -> 2 ^ k <= q -> k + 1 <= Zdigits2 q.
Proof.
  intros q k Hk H.
  assert (Hq : 0 < q) by (pose proof (Z.pow_pos_nonneg 2 k); lia).
  pose proof (Zdigits2_upper q ltac:(lia)) as Hu.
  pose proof (Zdigits2_nonneg q) as Hn.
  assert (Hlt : k < Zdigits2 q); [|lia].
  apply (Z.pow_lt_mono_r_iff 2); lia.
Qed.

(** The quotient, exponent and location that [SFdiv] hands to the rounding
    describe the exact quotient, at an exponent that is not above the
    canonical one. *)
Lemma div_core_spec : forall mx ex my ey,
  let '(q, e', l) :=
    SFdiv_core_binary F32.prec F32.emax (Z.pos mx) ex (Z.pos my) ey in
  0 <= q /\
  e' <= fexp F32.prec F32.emax (Zdigits2 q + e') /\
  exists y,
    inbetween q l y /\
    (y * pow2 e' * (inject_Z (Z.pos my) * pow2 ey)
     == inject_Z (Z.pos mx) * pow2 ex)%Q.
Proof.
  intros mx ex my ey. unfold SFdiv_core_binary.
  cbn [Zdigits2].
  set (d1 := Z.pos (digits2_pos mx)). set (d2 := Z.pos (digits2_pos my)).
  rewrite fexp_eq.
  set (e' := Z.min (Z.max (d1 + ex - (d2 + ey) - 24) (-149)) (ex - ey)).
  assert (He'1 : e' <= Z.max (d1 + ex - (d2 + ey) - 24) (-149))
    by (unfold e'; lia).
  assert (He'2 : e' <= ex - ey) by (unfold e'; lia).
  clearbody e'.
  set (s := ex - ey - e').
  assert (Hs : 0 <= s) by (unfold s; lia).
  assert (Es : ex = s + e' + ey) by (unfold s; lia).
  clearbody s.
  set (m' := match s with
             | 0 => Z.pos mx
             | Z.pos _ => Z.shiftl (Z.pos mx) s
             | Z.neg _ => 0
             end).
  assert (Em' : m' = Z.pos mx * 2 ^ s).
  { unfold m'. destruct s as [|p|p]; try lia.
    rewrite Z.shiftl_mul_pow2 by lia. reflexivity. }
  pose proof (Z_div_mod m' (Z.pos my) ltac:(lia)) as Hdm.
  destruct (Z.div_eucl m' (Z.pos my)) as [q r]. destruct Hdm as [Edm Hr].
  destruct (digits_bounds mx) as [Lx Ux]. destruct (digits_bounds my) as [Ly Uy].
  fold d1 in Lx, Ux. fold d2 in Ly, Uy.
  assert (Hpow : 0 < 2 ^ s) by (apply Z.pow_pos_nonneg; lia).
  assert (Hq : 0 <= q) by nia.
  split; [exact Hq|]. split.
  - rewrite fexp_eq.
    destruct (Z_le_gt_dec e' (-149)) as [|Hgt]; [lia|].
    assert (Hk : 23 <= d1 + s - d2 - 1) by lia.
    assert (Hlow : 2 ^ (d1 + s - d2 - 1) <= q).
    { assert (H1 : 2 ^ (d1 + s - d2 - 1) * 2 ^ d2 <= m').
      { rewrite <- Z.pow_add_r by lia.
        replace (d1 + s - d2 - 1 + d2) with (d1 - 1 + s) by lia.
        rewrite Z.pow_add_r by (unfold d1; lia). rewrite Em'. nia. }
      assert (H0 : 0 < 2 ^ (d1 + s - d2 - 1)) by (apply Z.pow_pos_nonneg; lia).
      nia. }
    pose proof (Zdigits2_ge q (d1 + s - d2 - 1) ltac:(lia) Hlow). lia.
  - exists (inject_Z (Z.pos my * q + r) / inject_Z (Z.pos my))%Q. split.
    + apply new_location_inbetween. lia.
    + rewrite <- Edm, Em', inject_Z_mult, <- (pow2_Z s) by lia.
      assert (Ee : (pow2 ex == pow2 s * pow2 e' * pow2 ey)%Q).
      { rewrite <- !pow2_add, <- Es. reflexivity. }
      rewrite Ee. field.
      assert (H0 : (0 < inject_Z (Z.pos my))%Q) by reflexivity. lra.
Qed.

(** A quotient of positive finite numbers that is at most one rounds to at
    most one. *)
Lemma div_le_one : forall mv ev mt et,
  let v := S754_finite false mv ev in
  let total := S754_finite false mt et in
  (F32.to_Q v <= F32.to_Q total)%Q ->
  let a := F32.div v total in
  a = S754_zero false \/
  exists m e, a = S754_finite false m e /\ (F32.to_Q a <= 1)%Q.
Proof.
  intros mv ev mt et v total Hle a.
  unfold a, F32.div, SFdiv, v, total. cbn [xorb].
  pose proof (div_core_spec mv ev mt et) as Hcore.
  destruct (SFdiv_core_binary F32.prec F32.emax (Z.pos mv) ev (Z.pos mt) et)
    as [[q e'] l].
  destruct Hcore as (Hq & Hpre & y & Hy & Eval).
  destruct (binary_round_aux_value false q e' l y Hq Hy Hpre)
    as (R & HR0 & Hmono & Hcls).
  cbv zeta in Hmono, Hcls.
  pose proof (to_Q_pos mt et) as Pt. fold total in Pt.
  unfold v, total in Hle. rewrite !to_Q_finite in Hle.
  unfold total in Pt. rewrite to_Q_finite in Pt.
  assert (HX : (y * pow2 e' <= 1)%Q).
  { apply (Qmult_le_r _ _ (inject_Z (Z.pos mt) * pow2 et)); auto.
    rewrite Eval. lra. }
  assert (HR : (R <= 1)%Q).
  { apply (Hmono 1 0); [cbn; lia|lia|]. 
    change (inject_Z 1 * pow2 0)%Q with 1%Q. exact HX. }
  destruct Hcls as [[Hr _]|[(m' & e1 & Hr & Hc & Hb & He & HR')|[Hr HR']]];
    rewrite Hr.
  - now left.
  - right. exists m', e1. split; [reflexivity|].
    rewrite to_Q_finite, <- HR'. exact HR.
  - exfalso. pose proof pow2_128_ge_1.
    assert (1 < pow2 128)%Q by (change 1%Q with (pow2 0); apply pow2_lt; lia).
    lra.
Qed.


(* ================================================================== *)
(** * Threshold rebalancing at a threshold of one *)

Lemma mul_bounded : forall x y, bounded_float (F32.mul x y).
Proof.
  intros x y. unfold F32.mul, SFmul.
  destruct x as [sx|sx| |sx mx ex], y as [sy|sy| |sy my ey]; try exact I.
  apply binary_round_aux_bounded. lia.
Qed.

Lemma binary_round_bounded : forall s m e,
  bounded_float (binary_round F32.prec F32.emax s m e).
Proof.
  intros s m e. unfold binary_round. destruct (shl_align m e _) as [mz ez].
  apply binary_round_aux_bounded. lia.
Qed.

Lemma sub_bounded : forall x y,
  bounded_float x -> bounded_float y -> bounded_float (F32.sub x y).
Proof.
  intros x y Hx Hy. unfold F32.sub, SFsub.
  destruct x as [sx|sx| |sx mx ex], y as [sy|sy| |sy my ey]; try exact I;
    try exact Hx; try exact Hy.
  - destruct sx, sy; exact I.
  - destruct sx, sy; exact I.
  - destruct (_ - _) as [|p|p]; cbn [binary_normalize]; try exact I;
      apply binary_round_bounded.
Qed.

Lemma mul_ok : forall v f,
  ok_value v -> nonneg_shape f -> ok_value (F32.mul v f).
Proof.
  intros v f [->|[Hv Hb]] Hf.
  - left. reflexivity.
  - destruct v as [sv|[]| |[] mv ev]; try contradiction;
      destruct f as [sf|[]| |[] mf ef]; try contradiction;
      try (left; reflexivity);
      right; (split; [|apply mul_bounded]); try exact I.
    apply nonneg_iff, has_sign_nonneg. unfold F32.mul, SFmul.
    apply (binary_round_aux_sign false). lia.
Qed.

Lemma max_zero_ok : forall x, bounded_float x -> ok_value (F32.max F32.zero x).
Proof.
  intros x Hb. right. unfold F32.max.
  destruct (F32.ltb F32.zero x) eqn:E.
  - split; [|exact Hb].
    unfold F32.ltb, SFltb, SFcompare, F32.zero in E.
    destruct x as [s|[]| |[] m e]; try discriminate; exact I.
  - split; exact I.
Qed.

Lemma ok_bounded : forall x, ok_value x -> bounded_float x.
Proof. intros x [->|[_ H]]; [exact I|exact H]. Qed.

Lemma withdraw_all_ok : forall amount vals,
  Forall ok_value vals -> Forall ok_value (withdraw amount vals).
Proof.
  intros amount vals H. unfold withdraw. apply Forall_forall.
  intros x Hx. apply in_map_iff in Hx. destruct Hx as (v & <- & Hin).
  rewrite Forall_forall in H.
  apply max_zero_ok, sub_bounded; [apply ok_bounded; auto|apply mul_bounded].
Qed.

Lemma dominated_refl : forall x,
  nonneg_shape x -> dominated x x.
Proof.
  intros x H. destruct x as [s|[]| |[] m e]; try contradiction.
  - right. repeat split. apply Qle_refl.
  - left. reflexivity.
  - right. repeat split. apply Qle_refl.
Qed.

Lemma dominated_trans : forall a b c,
  dominated a b -> dominated b c -> dominated a c.
Proof.
  intros a b c [Hab|(Fa & Fb & Lab)] [Hbc|(Fb' & Fc & Lbc)].
  - left; exact Hbc.
  - subst b. contradiction.
  - left; exact Hbc.
  - right. repeat split; auto. eapply Qle_trans; eauto.
Qed.

(** The sum of two numbers that are [>= 0] is not below either. *)
Lemma add_dominates : forall x y,
  nonneg_shape x -> bounded_float x -> nonneg_shape y -> bounded_float y ->
  let r := F32.add x y in
  nonneg_shape r /\ bounded_float r /\ dominated x r /\ dominated y r.
Proof.
  intros x y Hx Bx Hy By r.
  destruct x as [sx|[]| |[] mx ex]; try contradiction;
    destruct y as [sy|[]| |[] my ey]; try contradiction.
  - (* zero + zero *)
    unfold r. destruct sx, sy; cbn;
      repeat split; try exact I; right; repeat split; apply Qle_refl.
  - unfold r; cbn. repeat split; try exact I; left; reflexivity.
  - unfold r; cbn [F32.add SFadd].
    split; [exact I|]. split; [exact By|]. split.
    + right. repeat split. cbn [F32.to_Q].
      apply Qlt_le_weak. apply (to_Q_pos my ey).
    + apply dominated_refl. exact I.
  - unfold r; cbn. repeat split; try exact I; left; reflexivity.
  - unfold r; cbn. repeat split; try exact I; left; reflexivity.
  - unfold r; cbn. repeat split; try exact I; left; reflexivity.
  - unfold r; cbn [F32.add SFadd].
    split; [exact I|]. split; [exact Bx|]. split.
    + apply dominated_refl. exact I.
    + right. repeat split. cbn [F32.to_Q].
      apply Qlt_le_weak. apply (to_Q_pos mx ex).
  - unfold r; cbn. repeat split; try exact I; left; reflexivity.
  - apply add_finite_dominates; assumption.
Qed.

Lemma fold_add_dominates : forall l acc,
  nonneg_shape acc -> bounded_float acc ->
  Forall (fun v => nonneg_shape v /\ bounded_float v) l ->
  let r := fold_left F32.add l acc in
  nonneg_shape r /\ bounded_float r /\ dominated acc r /\
  forall v, In v l -> dominated v r.
Proof.
  induction l as [|x l IH]; intros acc Ha Ba Hl; cbn [fold_left].
  - repeat split; auto. apply dominated_refl; exact Ha. intros v [].
  - inversion Hl as [|? ? [Hx Bx] Hl']; subst.
    destruct (add_dominates acc x Ha Ba Hx Bx) as (Hr & Br & Dacc & Dx).
    destruct (IH (F32.add acc x) Hr Br Hl') as (Hr' & Br' & Dr & Dl).
    split; [exact Hr'|]. split; [exact Br'|]. split.
    + eapply dominated_trans; eauto.
    + intros v [<-|Hin].
      * eapply dominated_trans; eauto.
      * now apply Dl.
Qed.

Lemma add_nan_l : forall y, F32.add S754_nan y = S754_nan.
Proof. reflexivity. Qed.

Lemma add_nan_r : forall x, F32.add x S754_nan = S754_nan.
Proof. intros [| | |]; reflexivity. Qed.

Lemma fold_add_nan : forall l, fold_left F32.add l S754_nan = S754_nan.
Proof. induction l as [|x l IH]; cbn; auto. Qed.

Lemma fold_add_has_nan : forall l acc,
  In S754_nan l -> fold_left F32.add l acc = S754_nan.
Proof.
  induction l as [|x l IH]; intros acc H; [destruct H|].
  cbn [fold_left]. destruct H as [->|H].
  - rewrite add_nan_r. apply fold_add_nan.
  - now apply IH.
Qed.

Lemma ok_values_split : forall l,
  Forall ok_value l ->
  In S754_nan l \/ Forall (fun v => nonneg_shape v /\ bounded_float v) l.
Proof.
  induction l as [|x l IH]; intros H.
  - right. constructor.
  - inversion H as [|? ? Hx Hl]; subst.
    destruct Hx as [->|Hx]; [left; now left|].
    destruct (IH Hl) as [Hn|Hall]; [left; now right|].
    right. constructor; assumption.
Qed.

Lemma share_below_one : forall t,
  share_in_range t -> F32.geb (F32.abs t) f1 = false.
Proof.
  intros t (m & e & -> & Hc & _ & Hhi).
  apply canonical_below_one; [exact Hc|].
  rewrite to_Q_finite in Hhi. pose proof (pow2_pos (-24)). lra.
Qed.

Lemma sub_zero_r : forall m e s,
  F32.sub (S754_finite false m e) (S754_zero s) = S754_finite false m e.
Proof. reflexivity. Qed.

(** With a threshold of one, the test of the threshold loop fails for an
    asset whose target share is in range, whatever the values are worth. *)
Lemma deviates_false : forall a v vals,
  share_in_range (target_weight a) -> Forall ok_value vals -> In v vals ->
  deviates f1 (F32.accumulate vals) a v = false.
Proof.
  intros a v vals Ht Hok Hin. unfold deviates.
  pose proof (share_below_one _ Ht) as Hself.
  destruct Ht as (mt & et & Et & Hc & Hlo & Hhi). rewrite Et in *.
  destruct (ok_values_split vals Hok) as [Hnan|Hall].
  - unfold F32.accumulate. rewrite (fold_add_has_nan vals _ Hnan).
    destruct v; reflexivity.
  - destruct (fold_add_dominates vals F32.zero I I Hall) as (Ht0 & Bt & _ & Dom).
    fold (F32.accumulate vals) in Ht0, Bt, Dom.
    specialize (Dom v Hin).
    rewrite Forall_forall in Hall. destruct (Hall v Hin) as [Hv Bv].
    destruct (F32.accumulate vals) as [st|[]| |[] mtot etot]; try contradiction.
    + (* the total is zero: so is the value *)
      destruct Dom as [Hd|(Fv & _ & Hle)]; [discriminate|].
      destruct v as [sv|[]| |[] mv ev]; try contradiction.
      * reflexivity.
      * exfalso. pose proof (to_Q_pos mv ev). cbn [F32.to_Q] in Hle.
        change (F32.to_Q (S754_finite false mv ev) <= 0)%Q in Hle. lra.
    + (* the total is infinite *)
      destruct v as [sv|[]| |[] mv ev]; try contradiction.
      * cbn [F32.div SFdiv xorb]. unfold F32.div, SFdiv.
        rewrite sub_zero_r. exact Hself.
      * reflexivity.
      * unfold F32.div, SFdiv. rewrite sub_zero_r. exact Hself.
    + (* the total is a positive finite number *)
      destruct Dom as [Hd|(Fv & _ & Hle)]; [discriminate|].
      destruct v as [sv|[]| |[] mv ev]; try contradiction.
      * unfold F32.div, SFdiv. rewrite sub_zero_r. exact Hself.
      * destruct (div_le_one mv ev mtot etot Hle) as [E|(m & e & E & Hone)].
        -- rewrite E, sub_zero_r. exact Hself.
        -- rewrite E in *. pose proof (to_Q_pos m e) as Pa.
           pose proof (to_Q_pos mt et) as Pt.
           apply sub_below_one; lra.
Qed.

Lemma existsb_combine_false :
  forall {A B : Type} (f : A * B -> bool) (l : list A) (l' : list B),
    Forall2 (fun a b => f (a, b) = false) l l' ->
    existsb f (combine l l') = false.
Proof.
  intros A B f l l' H. induction H as [|a b l l' Hab H IH]; cbn; auto.
  now rewrite Hab, IH.
Qed.

Lemma Forall2_in_impl :
  forall {A B : Type} (R Q : A -> B -> Prop) (l : list A) (l' : list B),
    Forall2 R l l' ->
    (forall a b, In a l -> In b l' -> R a b -> Q a b) ->
    Forall2 Q l l'.
Proof.
  intros A B R Q l l' H. induction H as [|a b l l' Hab H IH]; intros Himp.
  - constructor.
  - constructor.
    + apply Himp; [now left|now left|exact Hab].
    + apply IH. intros a' b' Ha Hb. apply Himp; now right.
Qed.

Lemma Forall2_right :
  forall {A B : Type} (R : A -> B -> Prop) (P : B -> Prop)
         (l : list A) (l' : list B),
    Forall2 R l l' -> (forall a b, R a b -> P b) -> Forall P l'.
Proof.
  intros A B R P l l' H Himp.
  induction H as [|a b l l' Hab H IH]; constructor; eauto.
Qed.

Lemma zero_shares_idle : forall l lv,
  Forall2 asset_ok l lv ->
  Forall (fun b => zero_share (target_weight b)) l ->
  Forall idle_value lv.
Proof.
  intros l lv H. induction H as [|a v l lv [_ Hav] H IH]; intros Hz.
  - constructor.
  - inversion Hz; subst. constructor; auto.
Qed.

Lemma idle_mul : forall v f,
  idle_value v -> nonneg_shape f -> idle_value (F32.mul v f).
Proof.
  intros [s| | |] f Hv Hf; try contradiction;
    destruct f as [sf|[]| |[] mf ef]; try contradiction; exact I.
Qed.

Lemma idle_withdraw : forall v total amount,
  idle_value v ->
  idle_value (F32.max F32.zero (F32.sub v (F32.mul (F32.div v total) amount))).
Proof.
  intros [[]| | |] total amount Hv; try contradiction;
    destruct total as [[]|[]| |[] mt et];
    destruct amount as [[]|[]| |[] ma ea]; exact I.
Qed.

(** An asset with a zero share that is worth nothing never deviates. *)
Lemma idle_deviates_false : forall a v total,
  zero_share (target_weight a) -> idle_value v ->
  deviates f1 total a v = false.
Proof.
  intros a v total Ha Hv. unfold deviates. unfold zero_share in Ha.
  rewrite Ha.
  destruct v as [[]| | |]; try contradiction;
    destruct total as [[]|[]| |[] mt et]; reflexivity.
Qed.

(** A positive finite number divided by itself is one. *)
Lemma div_self : forall m e,
  exists m' e',
    F32.div (S754_finite false m e) (S754_finite false m e)
    = S754_finite false m' e' /\
    (F32.to_Q (S754_finite false m' e') == 1)%Q.
Proof.
  intros m e. unfold F32.div, SFdiv. cbn [xorb].
  pose proof (div_core_spec m e m e) as Hcore.
  destruct (SFdiv_core_binary F32.prec F32.emax (Z.pos m) e (Z.pos m) e)
    as [[q e'] l].
  destruct Hcore as (Hq & Hpre & y & Hy & Eval).
  destruct (binary_round_aux_value false q e' l y Hq Hy Hpre)
    as (R & HR0 & Hmono & Hcls).
  cbv zeta in Hmono, Hcls.
  pose proof (to_Q_pos m e) as P. rewrite to_Q_finite in P.
  assert (HX : (y * pow2 e' == 1)%Q).
  { apply (Qmult_inj_r _ _ (inject_Z (Z.pos m) * pow2 e)); [lra|].
    rewrite Eval. ring. }
  destruct (Hmono 1 0 ltac:(cbn; lia) ltac:(lia)) as [Hlo Hhi].
  change (inject_Z 1 * pow2 0)%Q with 1%Q in Hlo, Hhi.
  assert (HR : (R == 1)%Q).
  { apply Qle_antisym; [apply Hhi|apply Hlo]; rewrite HX; apply Qle_refl. }
  destruct Hcls as [[Hr HR']|[(m' & e1 & Hr & Hc & Hb & He & HR')|[Hr HR']]].
  - exfalso. lra.
  - exists m', e1. split; [exact Hr|].
    rewrite to_Q_finite, <- HR'. exact HR.
  - exfalso.
    assert (1 < pow2 128)%Q by (change 1%Q with (pow2 0); apply pow2_lt; lia).
    lra.
Qed.

Lemma fold_add_idle : forall l acc,
  Forall idle_value l ->
  nonneg_shape acc -> acc <> S754_zero true ->
  fold_left F32.add l acc = acc \/ fold_left F32.add l acc = S754_nan.
Proof.
  induction l as [|x l IH]; intros acc Hl Ha Hne; cbn [fold_left].
  - now left.
  - inversion Hl as [|? ? Hx Hl']; subst.
    destruct x as [sx| | |]; try contradiction.
    + assert (E : F32.add acc (S754_zero sx) = acc).
      { destruct acc as [[]|[]| |[] m e]; try contradiction;
          try reflexivity; try congruence. destruct sx; reflexivity. }
      rewrite E. now apply IH.
    + right. rewrite add_nan_r. apply fold_add_nan.
Qed.

(** When every other asset is idle, the asset that holds the whole
    portfolio never deviates. *)
Lemma full_deviates_false : forall a v lv rv,
  target_weight a = f1 -> ok_value v ->
  Forall idle_value lv -> Forall idle_value rv ->
  deviates f1 (F32.accumulate (lv ++ v :: rv)) a v = false.
Proof.
  intros a v lv rv Ha Hv Hl Hr. unfold deviates, F32.accumulate.
  rewrite Ha, fold_left_app. cbn [fold_left].
  assert (Hnan : forall x,
             F32.geb (F32.abs (F32.sub f1 (F32.div x S754_nan))) f1 = false)
    by (intros [| | |]; reflexivity).
  destruct (fold_add_idle lv F32.zero Hl I ltac:(discriminate)) as [->| ->];
    [|rewrite add_nan_l, fold_add_nan; apply Hnan].
  destruct Hv as [->|[Hs Hb]];
    [rewrite add_nan_r, fold_add_nan; apply Hnan|].
  destruct v as [sv|[]| |[] mv ev]; try contradiction.
  - assert (E : F32.add F32.zero (S754_zero sv) = F32.zero)
      by (destruct sv; reflexivity).
    rewrite E.
    destruct (fold_add_idle rv F32.zero Hr I ltac:(discriminate)) as [->| ->];
      destruct sv; reflexivity.
  - change (F32.add F32.zero (S754_infinity false))
      with (S754_infinity false).
    destruct (fold_add_idle rv (S754_infinity false) Hr I ltac:(discriminate))
      as [->| ->]; reflexivity.
  - change (F32.add F32.zero (S754_finite false mv ev))
      with (S754_finite false mv ev).
    destruct (fold_add_idle rv (S754_finite false mv ev) Hr I
                ltac:(discriminate)) as [->| ->]; [|reflexivity].
    destruct (div_self mv ev) as (m' & e' & -> & Hone).
    apply sub_below_one.
    + rewrite Hone.
      assert (E1 : (F32.to_Q f1 == 1)%Q) by reflexivity.
      rewrite E1. assert (pow2 (-24) < 1)%Q by reflexivity. lra.
    + rewrite Hone.
      assert (E1 : (F32.to_Q f1 == 1)%Q) by reflexivity.
      rewrite E1. assert (pow2 (-24) < 1)%Q by reflexivity. lra.
Qed.

Lemma threshold_never_reached : forall portfolio vals,
  targets_supported portfolio -> Forall2 asset_ok portfolio vals ->
  threshold_reached f1 (F32.accumulate vals) portfolio vals = false.
Proof.
  intros portfolio vals Hp Hv. unfold threshold_reached.
  apply existsb_combine_false. cbn [fst snd].
  destruct Hp as [Hp|(l & a & r & -> & Ha & Hl & Hr)].
  - assert (Hok : Forall ok_value vals).
    { apply (Forall2_right _ _ _ _ Hv). now intros a b [H _]. }
    apply (Forall2_in_impl asset_ok _ _ _ Hv).
    intros a v Hin Hinv [_ Hidle].
    rewrite Forall_forall in Hp. destruct (Hp a Hin) as [Hz|Hrange].
    + apply idle_deviates_false; auto.
    + now apply deviates_false.
  - apply Forall2_app_inv_l in Hv.
    destruct Hv as (lv & vs & Hlv & Hvs & ->).
    inversion Hvs as [|? v ? rv [Hvok _] Hrv]; subst.
    pose proof (zero_shares_idle _ _ Hlv Hl) as Il.
    pose proof (zero_shares_idle _ _ Hrv Hr) as Ir.
    apply Forall2_app; [|constructor].
    + apply (Forall2_in_impl asset_ok _ _ _ Hlv).
      intros b w Hin _ [_ Hidle]. rewrite Forall_forall in Hl.
      apply idle_deviates_false; auto.
    + now apply full_deviates_false.
    + apply (Forall2_in_impl asset_ok _ _ _ Hrv).
      intros b w Hin _ [_ Hidle]. rewrite Forall_forall in Hr.
      apply idle_deviates_false; auto.
Qed.

Lemma threshold_rebalance_idle : forall portfolio vals,
  targets_supported portfolio -> Forall2 asset_ok portfolio vals ->
  threshold_rebalance f1 portfolio vals = vals.
Proof.
  intros portfolio vals Hp Hv. unfold threshold_rebalance.
  now rewrite threshold_never_reached.
Qed.

Lemma for_le_agree :
  forall {S : Type} (P : S -> Prop) (body1 body2 : Z -> S -> outcome S) hi,
    (forall i s, P s -> body1 i s = body2 i s) ->
    (forall i s s', P s -> body2 i s = Ok s' -> P s') ->
    forall fuel lo s, P s ->
      for_le fuel lo hi body1 s = for_le fuel lo hi body2 s.
Proof.
  intros S P body1 body2 hi Hagree Hkeep fuel.
  induction fuel as [|fuel IH]; intros lo s Hs; cbn [for_le].
  - reflexivity.
  - destruct (lo <=? hi); [|reflexivity].
    rewrite (Hagree lo s Hs).
    destruct (body2 lo s) as [s'| |] eqn:E; cbn [bind]; auto.
    apply IH. exact (Hkeep lo s s' Hs E).
Qed.

Lemma trial_loops_agree :
  forall {S : Type} (P : S -> Prop) fuel cy cm ey em
         (mb1 mb2 : Z -> Z -> S -> outcome S)
         (ye1 ye2 : Z -> S -> outcome S) s,
    (forall y m s, P s -> mb1 y m s = mb2 y m s) ->
    (forall y s, P s -> ye1 y s = ye2 y s) ->
    (forall y m s s', P s -> mb2 y m s = Ok s' -> P s') ->
    (forall y s s', P s -> ye2 y s = Ok s' -> P s') ->
    P s ->
    trial_loops fuel cy cm ey em mb1 ye1 s
    = trial_loops fuel cy cm ey em mb2 ye2 s.
Proof.
  intros S P fuel cy cm ey em mb1 mb2 ye1 ye2 s Hm Hy Km Ky Hs.
  unfold trial_loops. apply (for_le_agree P); [| |exact Hs].
  - intros y s0 Hs0. cbv beta.
    rewrite (for_le_agree P (mb1 y) (mb2 y) _ (Hm y) (Km y) fuel _ s0 Hs0).
    destruct (for_le fuel _ _ (mb2 y) s0) as [s1| |] eqn:E; cbn [bind]; auto.
    apply Hy. eapply (for_le_invariant P); [|exact Hs0|exact E]. apply Km.
  - intros y s0 s1 Hs0 Hb. cbv beta in Hb.
    destruct (for_le fuel (if y =? cy then cm else 1)
                     (if y =? ey then em else 12) (mb2 y) s0)
      as [s2| |] eqn:E; cbn [bind] in Hb; try discriminate.
    apply (Ky y s2 s1); [|exact Hb].
    eapply (for_le_invariant P); [|exact Hs0|exact E]. apply Km.
Qed.

Lemma apply_returns_ok : forall portfolio vals rets vals' rets',
  Forall2 asset_ok portfolio vals ->
  Forall (fun c => nonneg_series (series c)) rets ->
  List.length rets = List.length vals ->
  apply_returns vals rets = Ok (vals', rets') ->
  Forall2 asset_ok portfolio vals' /\
  Forall (fun c => nonneg_series (series c)) rets' /\
  List.length rets' = List.length vals'.
Proof.
  intros portfolio vals rets vals' rets' Hv. revert rets vals' rets'.
  induction Hv as [|a v portfolio vals [Hok Hidle] Hv IH];
    intros rets vals' rets' Hr Hlen H.
  - cbn in H. injection H as <- <-. repeat split; constructor.
  - destruct rets as [|c rets]; [discriminate Hlen|].
    cbn [apply_returns] in H.
    inversion Hr as [|? ? Hc Hr2]; subst.
    unfold deref in H.
    destruct (nth_error (series c) (pos c)) as [d|] eqn:E; cbn [bind] in H;
      [|discriminate].
    destruct (apply_returns vals rets) as [[vs rs]| |] eqn:E'; cbn [bind] in H;
      try discriminate.
    injection H as <- <-.
    cbn [List.length] in Hlen.
    destruct (IH rets vs rs Hr2 ltac:(lia) E') as (IH1 & IH2 & IH3).
    assert (Hd : nonneg_shape (value d)).
    { apply nonneg_iff. unfold nonneg_series in Hc.
      rewrite Forall_forall in Hc. apply Hc. eapply nth_error_In; eauto. }
    split; [|split].
    + constructor; [|exact IH1]. split.
      * now apply mul_ok.
      * intros Hz. apply idle_mul; auto.
    + constructor; [exact Hc|exact IH2].
    + cbn [List.length]. now rewrite IH3.
Qed.

Lemma withdraw_ok : forall portfolio amount vals,
  Forall2 asset_ok portfolio vals ->
  Forall2 asset_ok portfolio (withdraw amount vals).
Proof.
  intros portfolio amount vals H. unfold withdraw. cbv zeta.
  generalize (F32.accumulate vals) as total. intros total.
  induction H as [|a v portfolio vals [Hok Hidle] H IH]; cbn [map];
    constructor; auto.
  split.
  - apply max_zero_ok, sub_bounded; [now apply ok_bounded|apply mul_bounded].
  - intros Hz. apply idle_withdraw. auto.
Qed.

Lemma withdraw_length : forall amount vals,
  List.length (withdraw amount vals) = List.length vals.
Proof. intros amount vals. unfold withdraw. apply length_map. Qed.

(** A month with threshold rebalancing at threshold one is a month without
    rebalancing. *)
Lemma month_step_threshold_idle : forall portfolio monthly_wr st,
  targets_supported portfolio -> values_ok portfolio st ->
  month_step portfolio monthly_wr THRESHOLD f1 st
  = month_step portfolio monthly_wr NONE f1 st.
Proof.
  intros portfolio monthly_wr st Hp (Hv & Hr & Hlen). unfold month_step.
  destruct (apply_returns (current_values st) (returns st))
    as [[vals rets]| |] eqn:E; cbn [bind]; auto.
  destruct (apply_returns_ok _ _ _ _ _ Hv Hr Hlen E) as [Hvals _].
  rewrite (threshold_rebalance_idle portfolio vals Hp Hvals). reflexivity.
Qed.

Lemma month_step_ok : forall portfolio monthly_wr threshold st st',
  values_ok portfolio st ->
  month_step portfolio monthly_wr NONE threshold st = Ok st' ->
  values_ok portfolio st'.
Proof.
  intros portfolio monthly_wr threshold st st' (Hv & Hr & Hlen) H.
  unfold month_step in H.
  destruct (apply_returns (current_values st) (returns st))
    as [[vals rets]| |] eqn:E; cbn [bind] in H; try discriminate.
  destruct (apply_returns_ok _ _ _ _ _ Hv Hr Hlen E) as (Hvals & Hrets & Hl).
  destruct (deref (inflation st)) as [factor| |]; cbn [bind] in H;
    try discriminate.
  injection H as <-. unfold values_ok. cbn [current_values returns].
  destruct monthly_wr.
  - split; [now apply withdraw_ok|]. split; [exact Hrets|].
    now rewrite withdraw_length.
  - auto.
Qed.

Lemma year_step_ok : forall portfolio monthly_wr st,
  values_ok portfolio st ->
  values_ok portfolio (year_step portfolio monthly_wr NONE st).
Proof.
  intros portfolio monthly_wr st (Hv & Hr & Hlen).
  unfold values_ok. cbn [year_step current_values returns].
  destruct monthly_wr; cbn [negb].
  - auto.
  - split; [now apply withdraw_ok|]. split; [exact Hr|].
    now rewrite withdraw_length.
Qed.

Lemma supported_targets_nonneg : forall portfolio,
  targets_supported portfolio ->
  Forall (fun a => nonneg_shape (target_weight a)) portfolio.
Proof.
  intros portfolio [Hp|(l & a & r & -> & Ha & Hl & Hr)].
  - apply (Forall_impl _ (P := fun a => zero_share (target_weight a) \/
                                     share_in_range (target_weight a)));
      [|exact Hp].
    intros a [Hz|(m & e & E & _)].
    + unfold zero_share in Hz. now rewrite Hz.
    + now rewrite E.
  - assert (Hzero : forall b, zero_share (target_weight b) ->
                              nonneg_shape (target_weight b)).
    { intros b Hz. unfold zero_share in Hz. now rewrite Hz. }
    apply Forall_app. split; [|constructor].
    + apply (Forall_impl _ Hzero Hl).
    + now rewrite Ha.
    + apply (Forall_impl _ Hzero Hr).
Qed.

Lemma init_assets_ok : forall portfolio values y m vals rets,
  Forall (fun a => nonneg_shape (target_weight a)) portfolio ->
  Forall nonneg_series values ->
  init_assets portfolio values y m = Ok (vals, rets) ->
  Forall2 asset_ok portfolio vals /\
  Forall (fun c => nonneg_series (series c)) rets /\
  List.length rets = List.length vals.
Proof.
  induction portfolio as [|a portfolio IH]; intros values y m vals rets Hp Hs H.
  - cbn in H. injection H as <- <-. repeat split; constructor.
  - destruct values as [|v values]; cbn [init_assets] in H; [discriminate|].
    destruct (get_start v y m) as [c| |] eqn:Ec; cbn [bind] in H;
      try discriminate.
    destruct (init_assets portfolio values y m) as [[vs rs]| |] eqn:E;
      cbn [bind] in H; try discriminate.
    assert (Hvals : vals = F32.mul start_value (target_weight a) :: vs)
      by congruence.
    assert (Hrets : rets = c :: rs) by congruence.
    clear H. subst vals rets.
    inversion Hp as [|? ? Ha Hp']; subst. inversion Hs as [|? ? Hv Hs']; subst.
    destruct (IH values y m vs rs Hp' Hs' E) as (IH1 & IH2 & IH3).
    split; [|split].
    + constructor; [|exact IH1]. split.
      * apply mul_ok; [|exact Ha].
        right. split; [exact I|]. cbn. split; lia.
      * intros Hz. unfold zero_share in Hz. rewrite Hz. exact I.
    + constructor; [|exact IH2]. now rewrite (get_start_series _ _ _ _ Ec).
    + cbn [List.length]. now rewrite IH3.
Qed.

Lemma trial_init_ok :
  forall portfolio inflation_data values wr cy cm st,
    targets_supported portfolio -> Forall nonneg_series values ->
    trial_init portfolio inflation_data values wr cy cm = Ok st ->
    values_ok portfolio st.
Proof.
  intros portfolio inflation_data values wr cy cm st Hp Hs H.
  unfold trial_init in H.
  destruct (init_assets portfolio values cy (start_month cm))
    as [[vals rets]| |] eqn:E; cbn [bind] in H; try discriminate.
  destruct (get_start inflation_data cy (start_month cm)) as [c| |];
    cbn [bind] in H; try discriminate.
  injection H as <-.
  exact (init_assets_ok _ _ _ _ _ _ (supported_targets_nonneg _ Hp) Hs E).
Qed.

Lemma trial_threshold_idle :
  forall portfolio inflation_data values years wr monthly_wr fuel cy cm,
    targets_supported portfolio -> Forall nonneg_series values ->
    trial portfolio inflation_data values years wr monthly_wr THRESHOLD f1
          fuel cy cm
    = trial portfolio inflation_data values years wr monthly_wr NONE f1
            fuel cy cm.
Proof.
  intros portfolio inflation_data values years wr monthly_wr fuel cy cm Hp Hs.
  unfold trial.
  destruct (trial_init portfolio inflation_data values wr cy cm)
    as [st0| |] eqn:E0; cbn [bind]; auto.
  pose proof (trial_init_ok _ _ _ _ _ _ _ Hp Hs E0) as Hst0.
  rewrite (trial_loops_agree (values_ok portfolio) fuel cy cm _ _
             (fun _ _ => month_step portfolio monthly_wr THRESHOLD f1)
             (fun _ _ => month_step portfolio monthly_wr NONE f1)
             (fun _ st => Ok (year_step portfolio monthly_wr THRESHOLD st))
             (fun _ st => Ok (year_step portfolio monthly_wr NONE st)) st0).
  - reflexivity.
  - intros y m s Hs'. now apply month_step_threshold_idle.
  - intros y s Hs'. reflexivity.
  - intros y m s s' Hs' H. exact (month_step_ok _ _ _ _ _ Hs' H).
  - intros y s s' Hs' H. injection H as <-. now apply year_step_ok.
  - exact Hst0.
Qed.

Lemma replay_ok : forall portfolio monthly_wr log st st',
  targets_supported portfolio -> values_ok portfolio st ->
  replay portfolio monthly_wr THRESHOLD f1 log st = Ok st' ->
  values_ok portfolio st'.
Proof.
  intros portfolio monthly_wr log.
  induction log as [|e log IH]; intros st st' Hp Hst H; unfold replay in *.
  - cbn in H. now injection H as <-.
  - cbn [foldM] in H. destruct e as [y m|y]; cbn [run_event] in H.
    + rewrite month_step_threshold_idle in H by assumption.
      destruct (month_step portfolio monthly_wr NONE f1 st)
        as [st1| |] eqn:E; cbn [bind] in H; try discriminate.
      apply (IH st1 st' Hp); [|exact H].
      exact (month_step_ok _ _ _ _ _ Hst E).
    + cbn [bind] in H.
      apply (IH (year_step portfolio monthly_wr THRESHOLD st) st' Hp);
        [|exact H].
      now apply (year_step_ok portfolio monthly_wr st).
Qed.

(** X1. Threshold rebalancing with a threshold of [1.0f] never rebalances
    when no return factor is negative and every target share is zero, lies
    in [[2^-24, 1 - 2^-24]], or is the share [1.0f] of the only asset that
    has one. In every month that any sequence of months and year ends of a
    trial reaches, the test of the threshold loop fails for every asset and
    the values are left as they are; the simulation returns what it returns
    without rebalancing. *)
Theorem threshold_one_never_rebalances :
  forall portfolio inflation_data values years wr start_year end_year
         monthly_wr,
    targets_supported portfolio ->
    Forall nonneg_series values ->
    (forall cy cm st0 log st vals rets,
        trial_init portfolio inflation_data values wr cy cm = Ok st0 ->
        replay portfolio monthly_wr THRESHOLD f1 log st0 = Ok st ->
        apply_returns (current_values st) (returns st) = Ok (vals, rets) ->
        threshold_reached f1 (F32.accumulate vals) portfolio vals = false /\
        threshold_rebalance f1 portfolio vals = vals) /\
    (forall fuel simulations,
        simulation portfolio inflation_data values years wr start_year
                   end_year monthly_wr THRESHOLD f1 fuel simulations
        = simulation portfolio inflation_data values years wr start_year
                     end_year monthly_wr NONE f1 fuel simulations).
Proof.
  intros portfolio inflation_data values years wr start_year end_year
         monthly_wr Hp Hs.
  split.
  - intros cy cm st0 log st vals rets H0 Hrun Hret.
    pose proof (trial_init_ok _ _ _ _ _ _ _ Hp Hs H0) as Hst0.
    destruct (replay_ok _ _ _ _ _ Hp Hst0 Hrun) as (Hv & Hr & Hlen).
    destruct (apply_returns_ok _ _ _ _ _ Hv Hr Hlen Hret) as [Hvals _].
    split; [now apply threshold_never_reached|now apply threshold_rebalance_idle].
  - intros fuel simulations. unfold simulation, run_trials.
    assert (E : for_le fuel start_year (SizeT.sub end_year years)
                  (fun current_year t =>
                     for_le fuel 1 12
                       (fun current_month t0 =>
                          final_value <-
                            trial portfolio inflation_data values years wr
                                  monthly_wr THRESHOLD f1 fuel current_year
                                  current_month ;;
                          Ok (record_trial final_value t0)) t)
                  (mk_tally 0 0 [])
                = for_le fuel start_year (SizeT.sub end_year years)
                    (fun current_year t =>
                       for_le fuel 1 12
                         (fun current_month t0 =>
                            final_value <-
                              trial portfolio inflation_data values years wr
                                    monthly_wr NONE f1 fuel current_year
                                    current_month ;;
                            Ok (record_trial final_value t0)) t)
                    (mk_tally 0 0 [])).
    { apply (for_le_agree (fun _ => True)); auto.
      intros cy t _. apply (for_le_agree (fun _ => True)); auto.
      intros cm t0 _. now rewrite trial_threshold_idle. }
    rewrite E. reflexivity.
Qed.

Lemma flat_series_nonneg : forall ym n x,
  F32.nonneg x -> nonneg_series (flat_series ym n x).
Proof.
  intros ym n x Hx. unfold nonneg_series, flat_series.
  apply Forall_forall. intros d Hd. apply in_map_iff in Hd.
  destruct Hd as (ym' & <- & _). exact Hx.
Qed.

(** The shares of the 60/40 portfolio are in range. *)
Lemma sixty_forty_supported : targets_supported sixty_forty.
Proof.
  left. unfold sixty_forty.
  constructor; [|constructor; [|constructor]]; right.
  - exists 10066330%positive, (-24).
    split; [vm_compute; reflexivity|].
    split; [vm_compute; reflexivity|].
    split; vm_compute; discriminate.
  - exists 13421773%positive, (-25).
    split; [vm_compute; reflexivity|].
    split; [vm_compute; reflexivity|].
    split; vm_compute; discriminate.
Qed.

(** A portfolio of one asset with weight 100 is supported too. *)
Lemma single_asset_supported : forall name,
  targets_supported [mk_allocation name (F32.of_Z 100)].
Proof.
  intros name. right. exists [], (mk_allocation name (F32.of_Z 100)), [].
  split; [reflexivity|]. split; [vm_compute; reflexivity|].
  split; constructor.
Qed.

(** The 60/40 portfolio whose first asset halves every month, over the
    twelve trials that start in 2000. *)
Lemma threshold_one_never_rebalances_witness :
  let halving := flat_series (2000, 1) 36 one_half in
  let flat := flat_series (2000, 1) 36 f1 in
  targets_supported sixty_forty /\
  Forall nonneg_series [halving; flat] /\
  simulation sixty_forty flat [halving; flat] 1 (F32.of_Z 4) 2000 2001 true
             THRESHOLD f1 40 0
  = simulation sixty_forty flat [halving; flat] 1 (F32.of_Z 4) 2000 2001 true
               NONE f1 40 0.
Proof.
  intros halving flat.
  assert (Hs : Forall nonneg_series [halving; flat]).
  { repeat (constructor; [apply flat_series_nonneg; reflexivity|]).
    constructor. }
  split; [exact sixty_forty_supported|]. split; [exact Hs|].
  destruct (threshold_one_never_rebalances sixty_forty flat [halving; flat] 1
              (F32.of_Z 4) 2000 2001 true sixty_forty_supported Hs)
    as [_ Hsim].
  exact (Hsim 40%nat 0).
Defined.

(** Outside these portfolios the test can succeed. Three weights that add
    up to 100, the third one [2^-19]: its share rounds to less than [2^-25],
    and once the other two assets are worth nothing the difference between
    that share and the actual share of one rounds to [-1.0f]. The assets are
    then reset to their targets, and the twelve trials that succeed without
    rebalancing all fail. *)
Lemma threshold_one_reached_by_rounding :
  let w1 := S754_finite false 13107199 (-17) in
  let w2 := S754_finite false 12582912 (-41) in
  let w3 := S754_finite false 8388608 (-42) in
  let gold := mk_allocation "gold" w3 in
  let portfolio :=
    [mk_allocation "stocks" w1; mk_allocation "bonds" w2; gold] in
  let lost := flat_series (2000, 1) 36 F32.zero in
  let flat := flat_series (2000, 1) 36 f1 in
  let held := S754_finite false 10485760 (-39) in
  let vals := [S754_zero false; S754_zero false; held] in
  (F32.to_Q w1 + F32.to_Q w2 + F32.to_Q w3 == 100)%Q /\
  (st0 <- trial_init portfolio flat [lost; lost; flat] F32.zero 2000 1 ;;
   '(vals', _) <- apply_returns (current_values st0) (returns st0) ;;
   Ok vals') = Ok vals /\
  F32.sub (target_weight gold) (F32.div held (F32.accumulate vals))
  = S754_finite true 8388608 (-23) /\
  deviates f1 (F32.accumulate vals) gold held = true /\
  threshold_reached f1 (F32.accumulate vals) portfolio vals = true /\
  threshold_rebalance f1 portfolio vals <> vals /\
  simulation portfolio flat [lost; lost; flat] 1 F32.zero 2000 2001 true
             THRESHOLD f1 40 0
  <> simulation portfolio flat [lost; lost; flat] 1 F32.zero 2000 2001 true
                NONE f1 40 0.
Proof.
  intros w1 w2 w3 gold portfolio lost flat held vals.
  split; [vm_compute; reflexivity|].
  split; [vm_compute; reflexivity|].
  split; [vm_compute; reflexivity|].
  split; [vm_compute; reflexivity|].
  split; [vm_compute; reflexivity|].
  split; intros H; vm_compute in H; discriminate H.
Qed.

(* ================================================================== *)
(** * Edge cases of the simulation *)

(** X2. When the years from [start_year] to [end_year] are fewer than the
    horizon ([end_year - years], as computed in [size_t], is below
    [start_year]), no trial runs and the simulation reads the median of an
    empty vector: its behaviour is undefined, it returns no results. *)
Theorem simulation_without_start_year :
  forall portfolio inflation_data values years wr start_year end_year
         monthly_wr rebalance threshold fuel simulations,
    SizeT.sub end_year years < start_year ->
    simulation portfolio inflation_data values years wr start_year end_year
               monthly_wr rebalance threshold fuel simulations = Undefined.
Proof.
  intros portfolio inflation_data values years wr start_year end_year
         monthly_wr rebalance threshold fuel simulations H.
  unfold simulation, run_trials.
  assert (E : (start_year <=? SizeT.sub end_year years) = false)
    by (apply Z.leb_gt; exact H).
  destruct fuel; cbn [for_le]; rewrite E; reflexivity.
Qed.

(** A horizon of 30 years over the data from 1990 to 2000. *)
Lemma simulation_without_start_year_witness :
  SizeT.sub 2000 30 < 1990 /\
  simulation sixty_forty [] [] 30 (F32.of_Z 4) 1990 2000 true NONE f1 40 0
  = Undefined.
Proof.
  assert (H : SizeT.sub 2000 30 < 1990) by (vm_compute; reflexivity).
  split; [exact H|].
  exact (simulation_without_start_year sixty_forty [] [] 30 (F32.of_Z 4)
           1990 2000 true NONE f1 40 0 H).
Defined.

Local Open Scope string_scope.

(** X3. [parse_rebalance] never fails: every string other than "none",
    "monthly" and "yearly" is read as THRESHOLD, whatever its case or
    content. Formatting what was parsed gives the string back exactly when
    it is one of the four tokens; any other string comes back as
    "threshold". *)
Theorem parse_rebalance_fallback : forall str : string,
  (parse_rebalance str = THRESHOLD <->
   str <> "none" /\ str <> "monthly" /\ str <> "yearly") /\
  (print_rebalancing "" (parse_rebalance str) = str <->
   In str rebalancing_tokens) /\
  (~ In str rebalancing_tokens ->
   print_rebalancing "" (parse_rebalance str) = "threshold").
Proof.
  intros str. unfold parse_rebalance, print_rebalancing, rebalancing_tokens.
  destruct (String.eqb_spec str "none") as [->|H1];
    [|destruct (String.eqb_spec str "monthly") as [->|H2];
      [|destruct (String.eqb_spec str "yearly") as [->|H3]]];
    cbn; (split; [|split]).
  - split; [discriminate|]. intros (H & _). congruence.
  - split; [intros _; now left|reflexivity].
  - intros H. exfalso. apply H. now left.
  - split; [discriminate|]. intros (_ & H & _). congruence.
  - split; [intros _; right; now left|reflexivity].
  - intros H. exfalso. apply H. right. now left.
  - split; [discriminate|]. intros (_ & _ & H). congruence.
  - split; [intros _; right; right; now left|reflexivity].
  - intros H. exfalso. apply H. right. right. now left.
  - split; auto.
  - split.
    + intros <-. right. right. right. now left.
    + intros [H|[H|[H|[H|[]]]]]; congruence.
  - reflexivity.
Qed.

(** A capital letter is enough to turn "monthly" into THRESHOLD. *)
Lemma parse_rebalance_fallback_witness :
  parse_rebalance "Monthly" = THRESHOLD /\
  print_rebalancing "" (parse_rebalance "Monthly") = "threshold".
Proof.
  destruct (parse_rebalance_fallback "Monthly") as (H1 & _ & H3).
  split.
  - apply H1. repeat split; discriminate.
  - apply H3. intros [H|[H|[H|[H|[]]]]]; discriminate H.
Defined.

Local Close Scope string_scope.

(** ** Threshold rebalancing *)

Lemma combine_firstn_map :
  forall {A B C : Type} (f : A -> C) (l : list A) (l' : list B),
    map (fun ab => f (fst ab)) (combine l l')
    = map f (firstn (List.length l') l).
Proof.
  intros A B C f l. induction l as [|a l IH]; intros [|b l']; cbn; auto.
  now rewrite IH.
Qed.

Lemma reset_to_targets_shares : forall portfolio total vals,
  reset_to_targets portfolio total vals = shares_of total portfolio vals.
Proof.
  intros portfolio total vals. unfold reset_to_targets, shares_of.
  apply (combine_firstn_map (fun a => F32.mul total (target_weight a))).
Qed.

Lemma pay_fees_length : forall cost vals,
  List.length (pay_fees cost vals) = List.length vals.
Proof. intros cost vals. unfold pay_fees. apply length_map. Qed.

Lemma threshold_rebalance_cases : forall threshold portfolio vals,
  threshold_rebalance threshold portfolio vals
  = (if threshold_reached threshold (F32.accumulate vals) portfolio vals
     then shares_of (F32.accumulate vals) portfolio vals
     else vals).
Proof.
  intros threshold portfolio vals. unfold threshold_rebalance. cbv zeta.
  rewrite reset_to_targets_shares. unfold shares_of.
  now rewrite pay_fees_length.
Qed.

(** X4. Threshold rebalancing charges no fee. When the test succeeds the
    assets are set to their target shares of the total taken before the
    fee was paid, so the multiplication by [1 - cost / 100] is lost; monthly
    and yearly rebalancing take the total after the fee. An asset without a
    value (there are no more values than assets in the source) gets none. *)
Theorem threshold_rebalancing_is_free :
  forall threshold cost portfolio vals,
    threshold_rebalance threshold portfolio vals
    = (if threshold_reached threshold (F32.accumulate vals) portfolio vals
       then shares_of (F32.accumulate vals) portfolio vals
       else vals) /\
    rebalance_with_cost cost portfolio vals
    = shares_of (F32.accumulate (pay_fees cost vals)) portfolio vals.
Proof.
  intros threshold cost portfolio vals.
  split; [apply threshold_rebalance_cases|].
  unfold rebalance_with_cost. cbv zeta.
  rewrite reset_to_targets_shares. unfold shares_of.
  now rewrite pay_fees_length.
Qed.

Lemma accumulate_zeros : forall vals,
  Forall is_zero vals -> F32.accumulate vals = F32.zero.
Proof.
  intros vals H. unfold F32.accumulate.
  induction H as [|v vals Hv H IH]; cbn [fold_left]; [reflexivity|].
  destruct v as [[]| | |]; try contradiction; exact IH.
Qed.

Lemma depleted_not_reached : forall threshold portfolio vals,
  Forall is_zero vals ->
  threshold_reached threshold (F32.accumulate vals) portfolio vals = false.
Proof.
  intros threshold portfolio vals Hz.
  rewrite (accumulate_zeros vals Hz). unfold threshold_reached.
  destruct (existsb _ _) eqn:E; [|reflexivity].
  apply existsb_exists in E. destruct E as ([a v] & Hin & Hdev).
  apply in_combine_r in Hin. rewrite Forall_forall in Hz.
  specialize (Hz v Hin). cbn [fst snd] in Hdev. unfold deviates in Hdev.
  destruct v as [[]| | |]; try contradiction;
    destruct (target_weight a) as [?|?| |? ? ?];
    destruct threshold as [?|?| |? ? ?]; discriminate Hdev.
Qed.

(** X5. Once every asset is worth nothing the threshold test never
    succeeds, whatever the threshold and the target shares: each actual
    share is [0 / 0], a NaN, and a comparison with a NaN is false. The
    values are left as they are. *)
Theorem depleted_portfolio_is_never_rebalanced :
  forall threshold portfolio vals,
    Forall is_zero vals ->
    threshold_reached threshold (F32.accumulate vals) portfolio vals = false /\
    threshold_rebalance threshold portfolio vals = vals.
Proof.
  intros threshold portfolio vals Hz.
  pose proof (depleted_not_reached threshold portfolio vals Hz) as Hr.
  split; [exact Hr|]. rewrite threshold_rebalance_cases. now rewrite Hr.
Qed.

(** A 60/40 portfolio that has lost everything, with a threshold of zero. *)
Lemma depleted_portfolio_is_never_rebalanced_witness :
  Forall is_zero [S754_zero false; S754_zero false] /\
  threshold_reached F32.zero (F32.accumulate [S754_zero false; S754_zero false])
                    sixty_forty [S754_zero false; S754_zero false] = false /\
  threshold_rebalance F32.zero sixty_forty [S754_zero false; S754_zero false]
  = [S754_zero false; S754_zero false].
Proof.
  assert (H : Forall is_zero [S754_zero false; S754_zero false])
    by (repeat constructor).
  split; [exact H|].
  exact (depleted_portfolio_is_never_rebalanced F32.zero sixty_forty
           [S754_zero false; S754_zero false] H).
Defined.

(** ** The series handed to the simulation *)

Lemma get_start_from_fuel_free : forall values y m at_,
  get_start_from values y m at_ <> OutOfFuel.
Proof.
  induction values as [|d values IH]; intros y m at_; cbn; [discriminate|].
  destruct (_ && _); [discriminate|apply IH].
Qed.

Lemma init_assets_short : forall portfolio values y m,
  (List.length values < List.length portfolio)%nat ->
  init_assets portfolio values y m = Undefined.
Proof.
  induction portfolio as [|a portfolio IH]; intros values y m H;
    [cbn in H; lia|].
  destruct values as [|v values]; cbn [init_assets]; [reflexivity|].
  cbn [List.length] in H.
  rewrite (IH values y m) by lia.
  unfold get_start.
  pose proof (get_start_from_fuel_free v y m 0%nat) as Hf.
  destruct (get_start_from v y m 0%nat); cbn [bind]; congruence.
Qed.

(** X6. With fewer series than assets the simulation reads [values[i]]
    beyond the end of [values] in its first trial: its behaviour is
    undefined, it returns no results. *)
Theorem simulation_with_too_few_series :
  forall portfolio inflation_data values years wr start_year end_year
         monthly_wr rebalance threshold fuel simulations,
    (List.length values < List.length portfolio)%nat ->
    (0 < fuel)%nat ->
    simulation portfolio inflation_data values years wr start_year end_year
               monthly_wr rebalance threshold fuel simulations = Undefined.
Proof.
  intros portfolio inflation_data values years wr start_year end_year
         monthly_wr rebalance threshold fuel simulations Hlen Hfuel.
  unfold simulation, run_trials.
  destruct fuel as [|fuel]; [lia|].
  cbn [for_le].
  destruct (start_year <=? SizeT.sub end_year years); [|reflexivity].
  change (1 <=? 12) with true. cbv iota.
  unfold trial at 1, trial_init.
  rewrite (init_assets_short portfolio values _ _ Hlen). reflexivity.
Qed.

(** Two assets and the series of the first one only. *)
Lemma simulation_with_too_few_series_witness :
  let flat := flat_series (2000, 1) 36 f1 in
  (List.length [flat] < List.length sixty_forty)%nat /\
  (0 < 40)%nat /\
  simulation sixty_forty flat [flat] 1 (F32.of_Z 4) 2000 2001 true NONE f1
             40 0 = Undefined.
Proof.
  intros flat.
  assert (H1 : (List.length [flat] < List.length sixty_forty)%nat)
    by (cbn; lia).
  assert (H2 : (0 < 40)%nat) by lia.
  split; [exact H1|]. split; [exact H2|].
  exact (simulation_with_too_few_series sixty_forty flat [flat] 1 (F32.of_Z 4)
           2000 2001 true NONE f1 40 0 H1 H2).
Defined.

Lemma init_assets_firstn : forall portfolio values y m,
  init_assets portfolio values y m
  = init_assets portfolio (firstn (List.length portfolio) values) y m.
Proof.
  induction portfolio as [|a portfolio IH]; intros values y m; [reflexivity|].
  destruct values as [|v values]; cbn [init_assets List.length firstn];
    [reflexivity|].
  now rewrite <- IH.
Qed.

Lemma run_trials_ext :
  forall portfolio inflation_data values years wr start_year end_year
         monthly_wr rebalance threshold
         portfolio' inflation_data' values' wr' monthly_wr' rebalance'
         threshold' fuel,
    (forall cy cm,
        trial portfolio inflation_data values years wr monthly_wr rebalance
              threshold fuel cy cm
        = trial portfolio' inflation_data' values' years wr' monthly_wr'
                rebalance' threshold' fuel cy cm) ->
    run_trials portfolio inflation_data values years wr start_year end_year
               monthly_wr rebalance threshold fuel
    = run_trials portfolio' inflation_data' values' years wr' start_year
                 end_year monthly_wr' rebalance' threshold' fuel.
Proof.
  intros portfolio inflation_data values years wr start_year end_year
         monthly_wr rebalance threshold portfolio' inflation_data' values'
         wr' monthly_wr' rebalance' threshold' fuel H.
  unfold run_trials.
  apply (for_le_agree (fun _ => True)); auto.
  intros cy t _. apply (for_le_agree (fun _ => True)); auto.
  intros cm t0 _. now rewrite H.
Qed.

(** X7. The simulation reads one series per asset, the first
    [portfolio.size()] of [values]; the series after those are ignored. *)
Theorem simulation_ignores_surplus_series :
  forall portfolio inflation_data values years wr start_year end_year
         monthly_wr rebalance threshold fuel simulations,
    simulation portfolio inflation_data values years wr start_year end_year
               monthly_wr rebalance threshold fuel simulations
    = simulation portfolio inflation_data
                 (firstn (List.length portfolio) values) years wr start_year
                 end_year monthly_wr rebalance threshold fuel simulations.
Proof.
  intros portfolio inflation_data values years wr start_year end_year
         monthly_wr rebalance threshold fuel simulations.
  unfold simulation.
  rewrite (run_trials_ext portfolio inflation_data values years wr start_year
             end_year monthly_wr rebalance threshold
             portfolio inflation_data (firstn (List.length portfolio) values)
             wr monthly_wr rebalance threshold fuel); [reflexivity|].
  intros cy cm. unfold trial, trial_init.
  now rewrite (init_assets_firstn portfolio values cy (start_month cm)).
Qed.

(** ** The empty portfolio *)

Lemma month_step_no_assets : forall monthly_wr rebalance threshold st st',
  current_values st = [] ->
  month_step [] monthly_wr rebalance threshold st = Ok st' ->
  current_values st' = [].
Proof.
  intros monthly_wr rebalance threshold st st' Hv H.
  unfold month_step in H. rewrite Hv in H. cbn [apply_returns bind] in H.
  destruct (deref (inflation st)) as [factor| |]; cbn [bind] in H;
    try discriminate.
  injection H as <-. cbn [current_values].
  destruct rebalance, monthly_wr; reflexivity.
Qed.

Lemma year_step_no_assets : forall monthly_wr rebalance st,
  current_values st = [] ->
  current_values (year_step [] monthly_wr rebalance st) = [].
Proof.
  intros monthly_wr rebalance st Hv. unfold year_step. rewrite Hv.
  destruct rebalance, monthly_wr; reflexivity.
Qed.

Lemma trial_no_assets :
  forall inflation_data values years wr monthly_wr rebalance threshold fuel
         cy cm v,
    trial [] inflation_data values years wr monthly_wr rebalance threshold
          fuel cy cm = Ok v ->
    v = F32.zero.
Proof.
  intros inflation_data values years wr monthly_wr rebalance threshold fuel
         cy cm v H.
  unfold trial, trial_init in H. cbn [init_assets bind] in H.
  destruct (get_start inflation_data cy (start_month cm)) as [c| |];
    cbn [bind] in H; try discriminate.
  destruct (trial_loops _ _ _ _ _ _ _ _) as [st| |] eqn:E; cbn [bind] in H;
    try discriminate.
  injection H as <-.
  assert (Hst : current_values st = []); [|now rewrite Hst].
  eapply (trial_loops_invariant (fun st => current_values st = []));
    [| | |exact E].
  - intros y m s s' Hs Hb. exact (month_step_no_assets _ _ _ _ _ Hs Hb).
  - intros y s s' Hs Hb. injection Hb as <-. now apply year_step_no_assets.
  - reflexivity.
Qed.

Lemma compute_terminal_values_members : forall res tvs r,
  compute_terminal_values res tvs = Ok r ->
  In (tv_minimum r) tvs /\ In (tv_median r) tvs /\ In (tv_maximum r) tvs.
Proof.
  intros res tvs r H. unfold compute_terminal_values in H. cbv zeta in H.
  assert (Hin : forall x, In x (sort tvs) -> In x tvs).
  { intros x. apply Permutation_in, Permutation_sym, sort_perm. }
  unfold at_index, front, back in H.
  destruct (nth_error (sort tvs) _) as [median|] eqn:Em; cbn [bind] in H;
    [|discriminate].
  destruct (sort tvs) as [|minimum rest] eqn:Es; cbn [bind] in H;
    [discriminate|].
  destruct (rev (minimum :: rest)) as [|maximum rest'] eqn:Er; cbn [bind] in H;
    [discriminate|].
  injection H as <-. cbn [tv_minimum tv_median tv_maximum].
  split; [|split]; apply Hin.
  - now left.
  - eapply nth_error_In; eauto.
  - apply in_rev. rewrite Er. now left.
Qed.

(** X8. A simulation of the empty portfolio does not fail for want of
    assets: every trial it runs ends with a total of [0.0f] and counts as a
    failure, so that the results it returns have no success and a minimum,
    a median and a maximum of [0.0f]. *)
Theorem empty_portfolio_always_fails :
  forall inflation_data values years wr start_year end_year monthly_wr
         rebalance threshold fuel simulations res counter,
    simulation [] inflation_data values years wr start_year end_year
               monthly_wr rebalance threshold fuel simulations
    = Ok (res, counter) ->
    successes res = 0 /\
    tv_minimum res = F32.zero /\ tv_median res = F32.zero /\
    tv_maximum res = F32.zero.
Proof.
  intros inflation_data values years wr start_year end_year monthly_wr
         rebalance threshold fuel simulations res counter H.
  unfold simulation in H.
  destruct (run_trials _ _ _ _ _ _ _ _ _ _ _) as [t| |] eqn:Et;
    cbn [bind] in H; try discriminate.
  assert (Ht : tally_successes t = 0 /\
               Forall (fun v => v = F32.zero) (terminal_values t)).
  { unfold run_trials in Et.
    eapply (for_le_invariant
              (fun t => tally_successes t = 0 /\
                        Forall (fun v => v = F32.zero) (terminal_values t)));
      [| |exact Et]; [|split; [reflexivity|constructor]].
    intros cy t0 t1 Ht0 Hb.
    eapply (for_le_invariant
              (fun t => tally_successes t = 0 /\
                        Forall (fun v => v = F32.zero) (terminal_values t)));
      [|exact Ht0|exact Hb].
    intros cm t2 t3 [Hs Hz] Hb'.
    destruct (trial _ _ _ _ _ _ _ _ _ _ _) as [v| |] eqn:Ev; cbn [bind] in Hb';
      try discriminate.
    injection Hb' as <-. apply trial_no_assets in Ev. subst v.
    unfold record_trial.
    change (F32.gtb F32.zero F32.zero) with false. cbv iota.
    cbn [tally_successes terminal_values]. split; [exact Hs|].
    apply Forall_app. split; [exact Hz|]. now constructor. }
  destruct Ht as [Hs Hz].
  destruct (compute_terminal_values _ _) as [r| |] eqn:Er; cbn [bind] in H;
    try discriminate.
  injection H as <- _.
  pose proof (compute_terminal_values_members _ _ _ Er) as (H1 & H2 & H3).
  rewrite Forall_forall in Hz.
  unfold compute_terminal_values in Er. cbv zeta in Er.
  destruct (at_index _ _); cbn [bind] in Er; try discriminate.
  destruct (front _); cbn [bind] in Er; try discriminate.
  destruct (back _); cbn [bind] in Er; try discriminate.
  injection Er as <-. cbn [successes tv_minimum tv_median tv_maximum] in *.
  auto.
Qed.

(** The twelve trials that start in 2000, without assets. *)
Lemma empty_portfolio_always_fails_witness :
  let flat := flat_series (2000, 1) 36 f1 in
  let res := mk_results 0 12 F32.zero F32.zero F32.zero F32.zero F32.zero in
  simulation [] flat [] 1 (F32.of_Z 4) 2000 2001 true YEARLY f1 40 0
  = Ok (res, 12) /\
  successes res = 0 /\
  tv_minimum res = F32.zero /\ tv_median res = F32.zero /\
  tv_maximum res = F32.zero.
Proof.
  intros flat res.
  assert (H : simulation [] flat [] 1 (F32.of_Z 4) 2000 2001 true YEARLY f1
                         40 0 = Ok (res, 12)) by (vm_compute; reflexivity).
  split; [exact H|].
  exact (empty_portfolio_always_fails flat [] 1 (F32.of_Z 4) 2000 2001 true
           YEARLY f1 40 0 res 12 H).
Defined.

(* ================================================================== *)
(** * Withdrawals *)

Lemma in_range_below_overflow : forall m e,
  Z.pos m < 2 ^ 24 -> e <= 104 ->
  (inject_Z (Z.pos m) * pow2 e < pow2 128)%Q.
Proof.
  intros m e Hm He.
  assert (H1 : (inject_Z (Z.pos m) < pow2 24)%Q).
  { rewrite pow2_Z by lia. rewrite <- Zlt_Qlt. exact Hm. }
  assert (H2 : (pow2 e <= pow2 104)%Q) by (apply pow2_le; lia).
  assert (H3 : (0 < pow2 e)%Q) by apply pow2_pos.
  assert (H4 : (0 < inject_Z (Z.pos m))%Q) by reflexivity.
  assert (E : (pow2 128 == pow2 24 * pow2 104)%Q)
    by (rewrite <- pow2_add; reflexivity).
  rewrite E.
  apply Qle_lt_trans with (inject_Z (Z.pos m) * pow2 104)%Q.
  - apply Qmult_le_l; assumption.
  - apply Qmult_lt_r; [apply pow2_pos|exact H1].
Qed.

(** What is left of a positive finite value after a number that is [>= 0]
    was subtracted and the result was floored at zero. *)
Lemma sub_floor_le : forall mv ev x,
  Z.pos mv < 2 ^ 24 -> -149 <= ev <= 104 ->
  nan_or_nonneg x ->
  not_raised (S754_finite false mv ev)
             (F32.max F32.zero (F32.sub (S754_finite false mv ev) x)).
Proof.
  intros mv ev x Hm He Hx.
  pose proof (to_Q_pos mv ev) as Pv.
  assert (Hzero : not_raised (S754_finite false mv ev) F32.zero).
  { split; [exact I|]. change (F32.to_Q F32.zero) with 0%Q. lra. }
  destruct Hx as [->|Hx]; [exact Hzero|].
  destruct x as [sx|[]| |[] mx ex]; try contradiction.
  - (* nothing is subtracted *)
    change (F32.max F32.zero (F32.sub (S754_finite false mv ev) (S754_zero sx)))
      with (S754_finite false mv ev).
    split; [exact I|]. lra.
  - exact Hzero.
  - unfold F32.sub, SFsub. cbn [cond_Zopp].
    set (ez := Z.min ev ex).
    pose proof (aligned_value mv ev ez ltac:(lia)) as Vv.
    pose proof (aligned_value mx ex ez ltac:(lia)) as Vx.
    set (av := fst (shl_align mv ev ez)) in *.
    set (ax := fst (shl_align mx ex ez)) in *.
    pose proof (to_Q_pos mx ex) as Px.
    rewrite to_Q_finite in Pv, Px.
    assert (Ed : (inject_Z (Z.pos av - Z.pos ax) * pow2 ez
                  == inject_Z (Z.pos mv) * pow2 ev
                     - inject_Z (Z.pos mx) * pow2 ex)%Q).
    { unfold Z.sub. rewrite inject_Z_plus, inject_Z_opp, <- Vv, <- Vx. ring. }
    destruct (Z.pos av - Z.pos ax) as [|p|p] eqn:Ediff; cbn [binary_normalize].
    + exact Hzero.
    + destruct (binary_round_value false p ez) as (R & HR0 & Hmono & Hcls).
      cbv zeta in Hmono, Hcls.
      assert (HR : (R <= inject_Z (Z.pos mv) * pow2 ev)%Q).
      { apply (Hmono (Z.pos mv) ev); [lia|lia|]. rewrite Ed. lra. }
      destruct Hcls as [[Hr _]|[(m' & e' & Hr & Hc & Hb & He' & HR')|[Hr HR']]];
        rewrite Hr.
      * exact Hzero.
      * change (F32.max F32.zero (S754_finite false m' e'))
          with (S754_finite false m' e').
        split; [exact I|]. rewrite !to_Q_finite, <- HR'. lra.
      * exfalso. pose proof (in_range_below_overflow mv ev Hm ltac:(lia)). lra.
    + pose proof (binary_round_sign true p ez) as Hs.
      destruct (binary_round F32.prec F32.emax true p ez) as [s|s| |s m' e'];
        cbn in Hs; try contradiction; subst s; exact Hzero.
Qed.

Lemma zero_floor : forall s x,
  nan_or_nonneg x ->
  F32.max F32.zero (F32.sub (S754_zero s) x) = F32.zero.
Proof.
  intros s x [->|Hx]; [destruct s; reflexivity|].
  destruct x as [sx|[]| |[] mx ex]; try contradiction;
    destruct s; try destruct sx; reflexivity.
Qed.

Lemma floor_not_raised : forall v x,
  holding v -> nan_or_nonneg x ->
  not_raised v (F32.max F32.zero (F32.sub v x)).
Proof.
  intros v x (Hn & Hf & Hr) Hx.
  destruct v as [s|s| |[] m e]; try contradiction.
  - rewrite zero_floor by exact Hx. split; [exact I|].
    change (F32.to_Q F32.zero) with 0%Q.
    change (F32.to_Q (S754_zero s)) with 0%Q. lra.
  - destruct Hr as [Hm He]. now apply sub_floor_le.
Qed.

(** The share of the total that an asset holds is a NaN or [>= 0]. *)
Lemma div_ok : forall v total,
  nonneg_shape v -> finite_or_zero v ->
  nonneg_shape total -> dominated v total ->
  ok_value (F32.div v total).
Proof.
  intros v total Hv Fv Ht Dom.
  destruct v as [sv|sv| |[] mv ev]; try contradiction.
  - destruct total as [st|[]| |[] mt et]; try contradiction.
    + left. reflexivity.
    + right. split; exact I.
    + right. split; exact I.
  - destruct total as [st|[]| |[] mt et]; try contradiction.
    + exfalso. destruct Dom as [Hd|(_ & _ & Hle)]; [discriminate|].
      pose proof (to_Q_pos mv ev). change (F32.to_Q (S754_zero st)) with 0%Q in Hle.
      lra.
    + right. split; exact I.
    + right. unfold F32.div, SFdiv. cbn [xorb].
      pose proof (div_core_spec mv ev mt et) as Hcore.
      destruct (SFdiv_core_binary F32.prec F32.emax (Z.pos mv) ev (Z.pos mt) et)
        as [[q e'] l].
      destruct Hcore as (Hq & _).
      split; [|now apply binary_round_aux_bounded].
      apply nonneg_iff, has_sign_nonneg. now apply binary_round_aux_sign.
Qed.

Lemma holding_summand : forall v,
  holding v -> nonneg_shape v /\ bounded_float v.
Proof.
  intros v (Hn & Hf & Hr). split; [exact Hn|].
  destruct v as [s|s| |s m e]; try exact I. cbn in Hr |- *. lia.
Qed.

(** X9. A withdrawal never adds money. When the amount is [>= 0] (or a
    NaN) and every asset holds a finite value that is [>= 0], every value
    after the withdrawal is a finite number from zero to the value before,
    whatever the rounding of the share, of the product and of the
    difference. *)
Theorem withdraw_never_adds : forall amount vals,
  nan_or_nonneg amount -> Forall holding vals ->
  Forall2 not_raised vals (withdraw amount vals).
Proof.
  intros amount vals Ha Hv. unfold withdraw. cbv zeta.
  assert (Hsum : Forall (fun v => nonneg_shape v /\ bounded_float v) vals).
  { apply (Forall_impl _ holding_summand Hv). }
  destruct (fold_add_dominates vals F32.zero I I Hsum) as (Ht & Bt & _ & Dom).
  fold (F32.accumulate vals) in Ht, Bt, Dom.
  set (total := F32.accumulate vals) in *. clearbody total.
  induction vals as [|v vals IH]; cbn [map]; constructor.
  - inversion Hv as [|? ? Hv1 Hv2]; subst.
    apply floor_not_raised; [exact Hv1|].
    destruct Hv1 as (Hn & Hf & Hr).
    pose proof (div_ok v total Hn Hf Ht (Dom v (or_introl eq_refl))) as Hq.
    destruct Ha as [->|Ha].
    + left. destruct (F32.div v total); reflexivity.
    + destruct (mul_ok _ _ Hq Ha) as [E|[E _]]; [now left|now right].
  - inversion Hv as [|? ? Hv1 Hv2]; subst. inversion Hsum; subst.
    apply IH; auto. intros w Hw. apply Dom. now right.
Qed.

(** Four percent of 1000, divided by twelve, withdrawn from 600 and 400. *)
Lemma withdraw_never_adds_witness :
  let amount := F32.div (F32.of_Z 40) f12 in
  let vals := [F32.of_Z 600; F32.of_Z 400] in
  nan_or_nonneg amount /\ Forall holding vals /\
  Forall2 not_raised vals (withdraw amount vals).
Proof.
  intros amount vals.
  assert (Ha : nan_or_nonneg amount) by (right; vm_compute; exact I).
  assert (Hv : Forall holding vals).
  { unfold vals.
    repeat (constructor;
            [split; [vm_compute; exact I|
                     split; [vm_compute; exact I|vm_compute; split; [reflexivity|split; discriminate]]]|]).
    constructor. }
  split; [exact Ha|]. split; [exact Hv|].
  exact (withdraw_never_adds amount vals Ha Hv).
Defined.

Lemma holding_cases : forall v,
  holding v -> v <> S754_zero true ->
  v = F32.zero \/
  exists m e, v = S754_finite false m e /\ Z.pos m < 2 ^ 24 /\ -149 <= e <= 104.
Proof.
  intros v (Hn & Hf & Hr) Hne.
  destruct v as [[]|s| |[] m e]; try contradiction; try congruence.
  - now left.
  - right. exists m, e. split; [reflexivity|exact Hr].
Qed.

(** X10. Withdrawing nothing changes nothing: with an amount of zero every
    asset that holds a finite value keeps it, bit for bit (a value of [-0]
    apart, which becomes [+0]). This is what the withdrawals of a run with a
    withdrawal rate of zero do as long as the inflation factors are
    finite. *)
Theorem withdraw_nothing : forall s vals,
  Forall (fun v => holding v /\ v <> S754_zero true) vals ->
  withdraw (S754_zero s) vals = vals.
Proof.
  intros s vals Hv. unfold withdraw. cbv zeta.
  assert (Hsum : Forall (fun v => nonneg_shape v /\ bounded_float v) vals).
  { apply (Forall_impl _ (P := fun v => holding v /\ v <> S754_zero true));
      [|exact Hv].
    intros v [H _]. now apply holding_summand. }
  destruct (fold_add_dominates vals F32.zero I I Hsum) as (Ht & Bt & _ & Dom).
  fold (F32.accumulate vals) in Ht, Bt, Dom.
  set (total := F32.accumulate vals) in *. clearbody total.
  induction vals as [|v vals IH]; cbn [map]; [reflexivity|].
  inversion Hv as [|? ? [Hv1 Hne] Hv2]; subst. inversion Hsum; subst.
  rewrite IH by (auto; intros w Hw; apply Dom; now right).
  f_equal.
  specialize (Dom v (or_introl eq_refl)).
  destruct (holding_cases v Hv1 Hne) as [->|(m & e & -> & Hm & He)].
  - destruct total as [st|[]| |[] mt et]; try contradiction;
      destruct s; try destruct st; reflexivity.
  - destruct total as [st|[]| |[] mt et]; try contradiction.
    + exfalso. destruct Dom as [Hd|(_ & _ & Hle)]; [discriminate|].
      pose proof (to_Q_pos m e).
      change (F32.to_Q (S754_zero st)) with 0%Q in Hle. lra.
    + destruct s; reflexivity.
    + destruct Dom as [Hd|(_ & _ & Hle)]; [discriminate|].
      destruct (div_le_one m e mt et Hle) as [E|(m' & e' & E & _)];
        rewrite E; destruct s; reflexivity.
Qed.

(** The values 600 and 400. *)
Lemma withdraw_nothing_witness :
  let vals := [F32.of_Z 600; F32.of_Z 400] in
  Forall (fun v => holding v /\ v <> S754_zero true) vals /\
  withdraw F32.zero vals = vals.
Proof.
  intros vals.
  assert (Hv : Forall (fun v => holding v /\ v <> S754_zero true) vals).
  { unfold vals.
    repeat (constructor;
            [split; [split; [vm_compute; exact I|
                       split; [vm_compute; exact I|
                               vm_compute; split; [reflexivity|split; discriminate]]]
                    |vm_compute; discriminate]|]).
    constructor. }
  split; [exact Hv|].
  exact (withdraw_nothing false vals Hv).
Defined.

(* ================================================================== *)
(** * A threshold of zero *)

Lemma div_not_nan : forall v sm m e,
  finite_or_zero v -> F32.div v (S754_finite sm m e) <> S754_nan.
Proof.
  intros v sm m e Hv.
  destruct v as [sv|sv| |sv mv ev]; try contradiction; [discriminate|].
  unfold F32.div, SFdiv.
  pose proof (div_core_spec mv ev m e) as Hcore.
  destruct (SFdiv_core_binary F32.prec F32.emax (Z.pos mv) ev (Z.pos m) e)
    as [[q e'] l].
  destruct Hcore as (Hq & _).
  pose proof (binary_round_aux_sign (xorb sv sm) q e' l Hq) as Hs.
  intros E. rewrite E in Hs. exact Hs.
Qed.

Lemma sub_not_nan : forall t x,
  finite_or_zero t -> x <> S754_nan -> F32.sub t x <> S754_nan.
Proof.
  intros t x Ht Hx.
  destruct t as [st|st| |st mt et]; try contradiction;
    destruct x as [sx|sx| |sx mx ex]; try congruence; try discriminate.
  - destruct st, sx; discriminate.
  - unfold F32.sub, SFsub.
    destruct (_ - _) as [|p|p]; cbn [binary_normalize]; [discriminate| |].
    + pose proof (binary_round_sign false p (Z.min et ex)) as Hs.
      intros E. rewrite E in Hs. exact Hs.
    + pose proof (binary_round_sign true p (Z.min et ex)) as Hs.
      intros E. rewrite E in Hs. exact Hs.
Qed.

Lemma geb_abs_zero : forall x,
  F32.geb (F32.abs x) F32.zero = negb (F32.is_nan x).
Proof. intros [s|s| |s m e]; reflexivity. Qed.

(** X11. With a threshold of [0.0f] the test of the threshold loop succeeds
    for an asset exactly when its deviation is not a NaN. It therefore
    succeeds, and the assets are reset to their target shares of the total,
    in every month in which the total is a finite number other than zero
    and some asset has a finite value and a finite target share. *)
Theorem threshold_zero_rebalances :
  (forall total a v,
      deviates F32.zero total a v
      = negb (F32.is_nan (F32.sub (target_weight a) (F32.div v total)))) /\
  (forall portfolio vals a v s m e,
      In (a, v) (combine portfolio vals) ->
      finite_or_zero (target_weight a) -> finite_or_zero v ->
      F32.accumulate vals = S754_finite s m e ->
      threshold_reached F32.zero (F32.accumulate vals) portfolio vals = true /\
      threshold_rebalance F32.zero portfolio vals
      = shares_of (F32.accumulate vals) portfolio vals).
Proof.
  split.
  - intros total a v. unfold deviates. apply geb_abs_zero.
  - intros portfolio vals a v s m e Hin Ht Hv Etot.
    assert (Hr : threshold_reached F32.zero (F32.accumulate vals) portfolio vals
                 = true).
    { unfold threshold_reached. apply existsb_exists. exists (a, v).
      split; [exact Hin|]. cbn [fst snd]. unfold deviates.
      rewrite geb_abs_zero, Etot.
      pose proof (sub_not_nan (target_weight a)
                    (F32.div v (S754_finite s m e)) Ht
                    (div_not_nan v s m e Hv)) as Hn.
      destruct (F32.sub _ _); try reflexivity. congruence. }
    split; [exact Hr|].
    rewrite threshold_rebalance_cases.
    now rewrite Hr.
Qed.

(** A 60/40 portfolio that has drifted to 700 and 300. *)
Lemma threshold_zero_rebalances_witness :
  let vals := [F32.of_Z 700; F32.of_Z 300] in
  threshold_reached F32.zero (F32.accumulate vals) sixty_forty vals = true /\
  threshold_rebalance F32.zero sixty_forty vals
  = shares_of (F32.accumulate vals) sixty_forty vals.
Proof.
  intros vals.
  assert (Hin : In (mk_allocation "stocks" (F32.of_Z 60), F32.of_Z 700)
                   (combine sixty_forty vals)) by (left; reflexivity).
  assert (Ht : finite_or_zero
                 (target_weight (mk_allocation "stocks" (F32.of_Z 60))))
    by (vm_compute; exact I).
  assert (Hv : finite_or_zero (F32.of_Z 700)) by (vm_compute; exact I).
  assert (Etot : F32.accumulate vals = S754_finite false 16384000 (-14))
    by (vm_compute; reflexivity).
  exact (proj2 threshold_zero_rebalances sixty_forty vals
           (mk_allocation "stocks" (F32.of_Z 60)) (F32.of_Z 700)
           false 16384000%positive (-14) Hin Ht Hv Etot).
Defined.

(* ================================================================== *)
(** * The success rate *)

(** The only canonical binary32 representation of one. *)
Lemma canonical_one : forall m e,
  canonical_mantissa F32.prec F32.emax m e = true ->
  (inject_Z (Z.pos m) * pow2 e == 1)%Q ->
  S754_finite false m e = f1.
Proof.
  intros m e Hc Hv.
  unfold canonical_mantissa in Hc. apply Z.eqb_eq in Hc.
  rewrite fexp_eq in Hc.
  pose proof (digits_bounds m) as [Hlo Hhi].
  set (d := Z.pos (digits2_pos m)) in *.
  assert (Hd : 1 <= d) by (unfold d; lia).
  destruct (Z_le_gt_dec 0 e) as [He|He].
  - exfalso. rewrite pow2_Z in Hv by lia.
    rewrite <- inject_Z_mult in Hv. change 1%Q with (inject_Z 1) in Hv.
    apply (proj1 (inject_Z_injective _ _)) in Hv.
    assert (Hp : 0 < 2 ^ e) by (apply Z.pow_pos_nonneg; lia).
    assert (Hm : Z.pos m = 1)
      by (apply (Z.eq_mul_1_nonneg (Z.pos m) (2 ^ e)); [lia|exact Hv]).
    assert (Hd1 : d = 1).
    { destruct (Z_le_gt_dec d 1) as [|Hgt]; [lia|].
      pose proof (Z.pow_le_mono_r 2 1 (d - 1) ltac:(lia) ltac:(lia)) as H.
      change (2 ^ 1) with 2 in H. lia. }
    lia.
  - set (k := - e). assert (Hk : 0 < k) by (unfold k; lia).
    assert (Ee : e = - k) by (unfold k; lia).
    assert (Em : Z.pos m = 2 ^ k).
    { apply inject_Z_injective. rewrite <- pow2_Z by lia.
      assert (E1 : (pow2 e * pow2 k == 1)%Q).
      { rewrite <- pow2_add. replace (e + k) with 0 by lia. reflexivity. }
      assert (E2 : (inject_Z (Z.pos m) * (pow2 e * pow2 k) == pow2 k)%Q).
      { rewrite Qmult_assoc, Hv. ring. }
      rewrite E1 in E2. rewrite <- E2. ring. }
    rewrite Em in Hlo, Hhi.
    apply Z.pow_le_mono_r_iff in Hlo; [|lia|lia].
    apply Z.pow_lt_mono_r_iff in Hhi; [|lia|lia].
    assert (Hk23 : k = 23) by lia.
    assert (He23 : e = -23) by lia.
    assert (Hm23 : m = 8388608%positive).
    { rewrite Hk23 in Em. apply Pos2Z.inj. rewrite Em. reflexivity. }
    rewrite Hm23, He23. reflexivity.
Qed.

(** A positive finite number divided by itself is [1.0f]. *)
Lemma div_self_one : forall m e,
  F32.div (S754_finite false m e) (S754_finite false m e) = f1.
Proof.
  intros m e. unfold F32.div, SFdiv. cbn [xorb].
  pose proof (div_core_spec m e m e) as Hcore.
  destruct (SFdiv_core_binary F32.prec F32.emax (Z.pos m) e (Z.pos m) e)
    as [[q e'] l].
  destruct Hcore as (Hq & Hpre & y & Hy & Eval).
  destruct (binary_round_aux_value false q e' l y Hq Hy Hpre)
    as (R & HR0 & Hmono & Hcls).
  cbv zeta in Hmono, Hcls.
  pose proof (to_Q_pos m e) as P. rewrite to_Q_finite in P.
  assert (HX : (y * pow2 e' == 1)%Q).
  { apply (Qmult_inj_r _ _ (inject_Z (Z.pos m) * pow2 e)); [lra|].
    rewrite Eval. ring. }
  destruct (Hmono 1 0 ltac:(cbn; lia) ltac:(lia)) as [Hlo Hhi].
  change (inject_Z 1 * pow2 0)%Q with 1%Q in Hlo, Hhi.
  assert (HR : (R == 1)%Q).
  { apply Qle_antisym; [apply Hhi|apply Hlo]; rewrite HX; apply Qle_refl. }
  destruct Hcls as [[Hr HR']|[(m' & e1 & Hr & Hc & Hb & He & HR')|[Hr HR']]].
  - exfalso. lra.
  - rewrite Hr. apply canonical_one; [exact Hc|]. rewrite <- HR'. exact HR.
  - exfalso.
    assert (1 < pow2 128)%Q by (change 1%Q with (pow2 0); apply pow2_lt; lia).
    lra.
Qed.

(** The conversion of a positive [size_t] is a positive finite number. *)
Lemma of_Z_positive : forall n,
  0 < n < SizeT.modulus ->
  exists m e, F32.of_Z n = S754_finite false m e.
Proof.
  intros n Hn. destruct n as [|p|p]; try lia.
  unfold F32.of_Z. cbn [binary_normalize].
  destruct (binary_round_value false p 0) as (R & HR0 & Hmono & Hcls).
  cbv zeta in Hmono, Hcls.
  assert (E0 : (inject_Z (Z.pos p) * pow2 0 == inject_Z (Z.pos p))%Q)
    by (change (pow2 0) with 1%Q; ring).
  destruct (Hmono 1 0 ltac:(cbn; lia) ltac:(lia)) as [Hlo _].
  change (inject_Z 1 * pow2 0)%Q with (inject_Z 1) in Hlo.
  assert (H1 : (inject_Z 1 <= R)%Q).
  { apply Hlo. rewrite E0, <- Zle_Qle. lia. }
  destruct (Hmono 1 64 ltac:(cbn; lia) ltac:(lia)) as [_ Hhi].
  assert (H64 : (R <= inject_Z 1 * pow2 64)%Q).
  { apply Hhi. rewrite E0, pow2_Z by lia. rewrite <- inject_Z_mult, <- Zle_Qle.
    unfold SizeT.modulus in Hn. lia. }
  change (inject_Z 1) with 1%Q in H1, H64.
  destruct Hcls as [[Hr HR']|[(m' & e1 & Hr & _)|[Hr HR']]].
  - exfalso. lra.
  - now exists m', e1.
  - exfalso.
    assert (pow2 64 < pow2 128)%Q by (apply pow2_lt; lia). lra.
Qed.

Lemma record_trial_in_range : forall v t,
  0 <= tally_successes t < SizeT.modulus /\
  0 <= tally_failures t < SizeT.modulus ->
  0 <= tally_successes (record_trial v t) < SizeT.modulus /\
  0 <= tally_failures (record_trial v t) < SizeT.modulus.
Proof.
  intros v t [Hs Hf]. unfold record_trial.
  assert (Hw : forall z, 0 <= SizeT.add z 1 < SizeT.modulus).
  { intros z. unfold SizeT.add, SizeT.wrap. apply Z.mod_pos_bound. reflexivity. }
  destruct (F32.gtb v F32.zero); cbn [tally_successes tally_failures];
    auto.
Qed.

Lemma run_trials_in_range :
  forall portfolio inflation_data values years wr start_year end_year
         monthly_wr rebalance threshold fuel t,
    run_trials portfolio inflation_data values years wr start_year end_year
               monthly_wr rebalance threshold fuel = Ok t ->
    0 <= tally_successes t < SizeT.modulus /\
    0 <= tally_failures t < SizeT.modulus.
Proof.
  intros portfolio inflation_data values years wr start_year end_year
         monthly_wr rebalance threshold fuel t H.
  unfold run_trials in H.
  eapply (for_le_invariant
            (fun t => 0 <= tally_successes t < SizeT.modulus /\
                      0 <= tally_failures t < SizeT.modulus));
    [| |exact H]; [|cbn; unfold SizeT.modulus; lia].
  intros cy t0 t1 Ht0 Hb.
  eapply (for_le_invariant
            (fun t => 0 <= tally_successes t < SizeT.modulus /\
                      0 <= tally_failures t < SizeT.modulus));
    [|exact Ht0|exact Hb].
  intros cm t2 t3 Ht2 Hb'. cbv beta in Hb'.
  destruct (trial _ _ _ _ _ _ _ _ _ _ _) as [v| |]; cbn [bind] in Hb';
    try discriminate.
  injection Hb' as <-. now apply record_trial_in_range.
Qed.

(** X12. The success rate of the results is
    [100 * (successes / float(successes + failures))] in binary32. It is
    exactly [0.0f] when no trial succeeded and exactly [100.0f] when none
    failed, without any rounding error. *)
Theorem success_rate_extremes :
  forall portfolio inflation_data values years wr start_year end_year
         monthly_wr rebalance threshold fuel simulations res counter,
    simulation portfolio inflation_data values years wr start_year end_year
               monthly_wr rebalance threshold fuel simulations
    = Ok (res, counter) ->
    success_rate res
    = F32.mul (F32.of_Z 100)
        (F32.div (F32.of_Z (successes res))
                 (F32.of_Z (SizeT.add (successes res) (failures res)))) /\
    (successes res = 0 -> failures res <> 0 -> success_rate res = F32.zero) /\
    (failures res = 0 -> successes res <> 0 -> success_rate res = f100).
Proof.
  intros portfolio inflation_data values years wr start_year end_year
         monthly_wr rebalance threshold fuel simulations res counter H.
  unfold simulation in H.
  destruct (run_trials _ _ _ _ _ _ _ _ _ _ _) as [t| |] eqn:Et;
    cbn [bind] in H; try discriminate.
  destruct (run_trials_in_range _ _ _ _ _ _ _ _ _ _ _ _ Et) as [Hs Hf].
  unfold compute_terminal_values in H. cbv zeta in H.
  destruct (at_index _ _); cbn [bind] in H; try discriminate.
  destruct (front _); cbn [bind] in H; try discriminate.
  destruct (back _); cbn [bind] in H; try discriminate.
  injection H as <- _. cbn [successes failures success_rate].
  split; [reflexivity|]. split.
  - intros E0 Hne. rewrite E0.
    assert (Ef : SizeT.add 0 (tally_failures t) = tally_failures t).
    { unfold SizeT.add, SizeT.wrap. apply Z.mod_small. lia. }
    rewrite Ef.
    destruct (of_Z_positive (tally_failures t) ltac:(lia)) as (m & e & ->).
    reflexivity.
  - intros E0 Hne. rewrite E0.
    assert (Ef : SizeT.add (tally_successes t) 0 = tally_successes t).
    { unfold SizeT.add, SizeT.wrap. rewrite Z.add_0_r. apply Z.mod_small. lia. }
    rewrite Ef.
    destruct (of_Z_positive (tally_successes t) ltac:(lia)) as (m & e & ->).
    rewrite div_self_one. reflexivity.
Qed.

(** The twelve trials of the 60/40 portfolio that start in 2000: all of
    them succeed. *)
Lemma success_rate_extremes_witness :
  let halving := flat_series (2000, 1) 36 one_half in
  let flat := flat_series (2000, 1) 36 f1 in
  let tv := S754_finite false 11913943 (-15) in
  let res := mk_results 12 0 f100 tv tv tv tv in
  simulation sixty_forty flat [halving; flat] 1 (F32.of_Z 4) 2000 2001 true
             THRESHOLD f1 40 0 = Ok (res, 12) /\
  success_rate res = f100.
Proof.
  intros halving flat tv res.
  assert (H : simulation sixty_forty flat [halving; flat] 1 (F32.of_Z 4) 2000
                2001 true THRESHOLD f1 40 0 = Ok (res, 12))
    by (vm_compute; reflexivity).
  split; [exact H|].
  destruct (success_rate_extremes sixty_forty flat [halving; flat] 1
              (F32.of_Z 4) 2000 2001 true THRESHOLD f1 40 0 res 12 H)
    as (_ & _ & Hall).
  apply Hall; [reflexivity|discriminate].
Defined.

(* ================================================================== *)
(** * The data a trial reads *)

Lemma skip_zero : forall c, skip 0 c = c.
Proof. intros [s p]. unfold skip. cbn. now rewrite Nat.add_0_r. Qed.

Lemma skip_succ : forall k c, skip (Datatypes.S k) c = skip k (advance c).
Proof.
  intros k c. unfold skip, advance. cbn [series pos]. f_equal. lia.
Qed.

Lemma skipn_nth_error : forall {A : Type} (l : list A) n d,
  nth_error l n = Some d -> skipn n l = d :: skipn (Datatypes.S n) l.
Proof.
  intros A l. induction l as [|x l IH]; intros [|n] d H; cbn in H;
    try discriminate.
  - now injection H as <-.
  - cbn [skipn]. now apply IH.
Qed.

Lemma values_ahead_succ : forall k c d,
  nth_error (series c) (pos c) = Some d ->
  values_ahead (Datatypes.S k) c = value d :: values_ahead k (advance c).
Proof.
  intros k c d H. unfold values_ahead, advance. cbn [series pos].
  now rewrite (skipn_nth_error _ _ _ H).
Qed.

Lemma init_assets_lengths : forall portfolio values y m vals rets,
  init_assets portfolio values y m = Ok (vals, rets) ->
  List.length vals = List.length portfolio /\
  List.length rets = List.length portfolio.
Proof.
  induction portfolio as [|a portfolio IH]; intros values y m vals rets H.
  - cbn in H. injection H as <- <-. now split.
  - destruct values as [|v values]; cbn [init_assets] in H; [discriminate|].
    destruct (get_start v y m) as [c| |]; cbn [bind] in H; try discriminate.
    destruct (init_assets portfolio values y m) as [[vs rs]| |] eqn:E;
      cbn [bind] in H; try discriminate.
    assert (Hvals : vals = F32.mul start_value (target_weight a) :: vs)
      by congruence.
    assert (Hrets : rets = c :: rs) by congruence.
    destruct (IH values y m vs rs E) as [H1 H2].
    subst vals rets. cbn [List.length]. now rewrite H1, H2.
Qed.

Lemma apply_returns_advance : forall vals rets vals' rets',
  List.length rets = List.length vals ->
  apply_returns vals rets = Ok (vals', rets') ->
  rets' = map advance rets /\ List.length vals' = List.length vals.
Proof.
  induction vals as [|v vals IH]; intros rets vals' rets' Hlen H.
  - destruct rets; [|discriminate Hlen]. cbn in H. injection H as <- <-.
    now split.
  - destruct rets as [|c rets]; [discriminate Hlen|].
    cbn [apply_returns] in H.
    destruct (deref c) as [r| |]; cbn [bind] in H; try discriminate.
    destruct (apply_returns vals rets) as [[vs rs]| |] eqn:E; cbn [bind] in H;
      try discriminate.
    injection H as <- <-. cbn [List.length] in Hlen.
    destruct (IH rets vs rs ltac:(lia) E) as [-> Hl].
    cbn [map List.length]. now rewrite Hl.
Qed.

Lemma shares_of_length : forall total portfolio vals,
  List.length vals = List.length portfolio ->
  List.length (shares_of total portfolio vals) = List.length portfolio.
Proof.
  intros total portfolio vals H. unfold shares_of.
  rewrite length_map, length_firstn. lia.
Qed.

Lemma rebalance_with_cost_length : forall cost portfolio vals,
  List.length vals = List.length portfolio ->
  List.length (rebalance_with_cost cost portfolio vals) = List.length portfolio.
Proof.
  intros cost portfolio vals H. unfold rebalance_with_cost. cbv zeta.
  rewrite reset_to_targets_shares. apply shares_of_length.
  now rewrite pay_fees_length.
Qed.

Lemma threshold_rebalance_length : forall threshold portfolio vals,
  List.length vals = List.length portfolio ->
  List.length (threshold_rebalance threshold portfolio vals)
  = List.length portfolio.
Proof.
  intros threshold portfolio vals H. rewrite threshold_rebalance_cases.
  destruct (threshold_reached _ _ _ _); [now apply shares_of_length|exact H].
Qed.

Lemma month_step_reads :
  forall portfolio monthly_wr rebalance threshold st st',
    one_per_asset portfolio st ->
    month_step portfolio monthly_wr rebalance threshold st = Ok st' ->
    one_per_asset portfolio st' /\
    returns st' = map advance (returns st) /\
    inflation st' = advance (inflation st) /\
    exists d,
      nth_error (series (inflation st)) (pos (inflation st)) = Some d /\
      withdrawal st' = F32.mul (withdrawal st) (value d).
Proof.
  intros portfolio monthly_wr rebalance threshold st st' [Hv Hr] H.
  unfold month_step in H.
  destruct (apply_returns (current_values st) (returns st))
    as [[vals rets]| |] eqn:E; cbn [bind] in H; try discriminate.
  assert (Hlen : List.length (returns st) = List.length (current_values st))
    by congruence.
  destruct (apply_returns_advance _ _ _ _ Hlen E) as [-> Hl].
  unfold deref in H.
  destruct (nth_error (series (inflation st)) (pos (inflation st)))
    as [d|] eqn:Ed; cbn [bind] in H; [|discriminate].
  injection H as <-. cbn [current_values returns inflation withdrawal].
  assert (Hvals : List.length vals = List.length portfolio) by congruence.
  split; [|split; [reflexivity|split; [reflexivity|]]].
  - split; cbn [current_values returns]; [|now rewrite length_map].
    assert (H1 : List.length
                   match rebalance with
                   | MONTHLY =>
                       rebalance_with_cost monthly_rebalancing_cost portfolio vals
                   | _ => vals
                   end = List.length portfolio).
    { destruct rebalance; auto using rebalance_with_cost_length. }
    assert (H2 : List.length
                   match rebalance with
                   | THRESHOLD =>
                       threshold_rebalance threshold portfolio
                         match rebalance with
                         | MONTHLY =>
                             rebalance_with_cost monthly_rebalancing_cost
                               portfolio vals
                         | _ => vals
                         end
                   | _ =>
                       match rebalance with
                       | MONTHLY =>
                           rebalance_with_cost monthly_rebalancing_cost
                             portfolio vals
                       | _ => vals
                       end
                   end = List.length portfolio).
    { destruct rebalance; auto using threshold_rebalance_length. }
    destruct monthly_wr; [rewrite withdraw_length|]; exact H2.
  - exists d. split; reflexivity.
Qed.

Lemma year_step_reads : forall portfolio monthly_wr rebalance st,
  one_per_asset portfolio st ->
  one_per_asset portfolio (year_step portfolio monthly_wr rebalance st).
Proof.
  intros portfolio monthly_wr rebalance st [Hv Hr].
  split; cbn [year_step current_values returns]; [|exact Hr].
  assert (H1 : List.length
                 match rebalance with
                 | YEARLY =>
                     rebalance_with_cost yearly_rebalancing_cost portfolio
                       (current_values st)
                 | _ => current_values st
                 end = List.length portfolio).
  { destruct rebalance; auto using rebalance_with_cost_length. }
  destruct (negb monthly_wr); [rewrite withdraw_length|]; exact H1.
Qed.

Lemma replay_reads :
  forall portfolio monthly_wr rebalance threshold log st0 st,
    one_per_asset portfolio st0 ->
    replay portfolio monthly_wr rebalance threshold log st0 = Ok st ->
    let k := List.length (months_of log) in
    one_per_asset portfolio st /\
    returns st = map (skip k) (returns st0) /\
    inflation st = skip k (inflation st0) /\
    withdrawal st
    = fold_left F32.mul (values_ahead k (inflation st0)) (withdrawal st0).
Proof.
  intros portfolio monthly_wr rebalance threshold log.
  induction log as [|ev log IH]; intros st0 st H0 H; unfold replay in *.
  - cbn in H. injection H as <-. cbn.
    split; [exact H0|]. split; [|split; [now rewrite skip_zero|reflexivity]].
    rewrite (map_ext _ (fun c => c)) by apply skip_zero. now rewrite map_id.
  - cbn [foldM] in H. destruct ev as [y m|y]; cbn [run_event] in H.
    + destruct (month_step portfolio monthly_wr rebalance threshold st0)
        as [st1| |] eqn:E; cbn [bind] in H; try discriminate.
      destruct (month_step_reads _ _ _ _ _ _ H0 E)
        as (H1 & Er & Ei & d & Ed & Ew).
      destruct (IH st1 st H1 H) as (Hk & Hr & Hi & Hw).
      cbn [months_of List.length].
      split; [exact Hk|]. split; [|split].
      * rewrite Hr, Er, map_map. apply map_ext. intros c.
        now rewrite skip_succ.
      * now rewrite Hi, Ei, skip_succ.
      * rewrite Hw, Ei, Ew, (values_ahead_succ _ _ _ Ed). reflexivity.
    + cbn [bind] in H.
      destruct (IH _ st (year_step_reads _ monthly_wr rebalance _ H0) H)
        as (Hk & Hr & Hi & Hw).
      cbn [months_of]. split; [exact Hk|]. split; [exact Hr|].
      split; [exact Hi|exact Hw].
Qed.

(** X13. A trial reads its data in sequence. Each month moves every return
    cursor and the inflation cursor on by exactly one data point, a year end
    by none, and the years and months stored with the data are not looked
    at again after [get_start]: after [k] months every cursor stands [k]
    points after its start. The withdrawal amount is then
    [1000 * wr / 100] multiplied, one after the other, by the [k] inflation
    factors read so far; it never resets and depends neither on the
    rebalancing nor on the withdrawal mode. *)
Theorem trial_reads_consecutive_points :
  forall portfolio inflation_data values wr monthly_wr rebalance threshold
         cy cm st0 log st,
    trial_init portfolio inflation_data values wr cy cm = Ok st0 ->
    replay portfolio monthly_wr rebalance threshold log st0 = Ok st ->
    let k := List.length (months_of log) in
    returns st = map (skip k) (returns st0) /\
    inflation st = skip k (inflation st0) /\
    withdrawal st
    = fold_left F32.mul (values_ahead k (inflation st0))
                (F32.div (F32.mul start_value wr) f100) /\
    List.length (current_values st) = List.length portfolio.
Proof.
  intros portfolio inflation_data values wr monthly_wr rebalance threshold
         cy cm st0 log st H0 H k.
  assert (J0 : one_per_asset portfolio st0 /\
               withdrawal st0 = F32.div (F32.mul start_value wr) f100).
  { unfold trial_init in H0.
    destruct (init_assets portfolio values cy (start_month cm))
      as [[vals rets]| |] eqn:E; cbn [bind] in H0; try discriminate.
    destruct (get_start inflation_data cy (start_month cm)) as [c| |];
      cbn [bind] in H0; try discriminate.
    injection H0 as <-. split; [|reflexivity].
    exact (init_assets_lengths _ _ _ _ _ _ E). }
  destruct J0 as [J0 W0].
  destruct (replay_reads _ _ _ _ _ _ _ J0 H) as ([Hl _] & Hr & Hi & Hw).
  fold k in Hr, Hi, Hw. rewrite W0 in Hw. auto.
Qed.

(** A trial of the 60/40 portfolio from January 2000 with prices that
    double every month: two months and a year end further on, the cursors
    have moved by two and the withdrawal of 40 has become 160. *)
Lemma trial_reads_consecutive_points_witness :
  let halving := flat_series (2000, 1) 3 one_half in
  let flat := flat_series (2000, 1) 3 f1 in
  let doubling := flat_series (2000, 1) 3 (F32.of_Z 2) in
  let log := [MonthStep 2000 1; YearEnd 2000; MonthStep 2001 1] in
  let st0 :=
    mk_trial_state
      [S754_finite false 9830400 (-14); S754_finite false 13107200 (-15)]
      [mk_cursor halving 1; mk_cursor flat 1]
      (F32.of_Z 40) (mk_cursor doubling 1) in
  let st :=
    mk_trial_state
      [S754_finite false 13255635 (-16); S754_finite false 8837090 (-15)]
      [mk_cursor halving 3; mk_cursor flat 3]
      (F32.of_Z 160) (mk_cursor doubling 3) in
  trial_init sixty_forty doubling [halving; flat] (F32.of_Z 4) 2000 1 = Ok st0 /\
  replay sixty_forty true YEARLY f1 log st0 = Ok st /\
  returns st = map (skip 2) (returns st0) /\
  inflation st = skip 2 (inflation st0) /\
  withdrawal st
  = fold_left F32.mul (values_ahead 2 (inflation st0))
              (F32.div (F32.mul start_value (F32.of_Z 4)) f100) /\
  List.length (current_values st) = List.length sixty_forty.
Proof.
  intros halving flat doubling log st0 st.
  assert (H0 : trial_init sixty_forty doubling [halving; flat] (F32.of_Z 4)
                          2000 1 = Ok st0) by (vm_compute; reflexivity).
  assert (H : replay sixty_forty true YEARLY f1 log st0 = Ok st)
    by (vm_compute; reflexivity).
  split; [exact H0|]. split; [exact H|].
  exact (trial_reads_consecutive_points sixty_forty doubling [halving; flat]
           (F32.of_Z 4) true YEARLY f1 2000 1 st0 log st H0 H).
Defined.

(* ================================================================== *)
(** * The order of the terminal values *)

Lemma compare_key : forall x y,
  not_nan x -> not_nan y ->
  SFcompare x y = Some (lex_compare (order_key x) (order_key y)).
Proof.
  intros x y Hx Hy. unfold not_nan in *.
  destruct x as [sx|sx| |sx mx ex]; try congruence;
    destruct y as [sy|sy| |sy my ey]; try congruence;
    try (destruct sx, sy; reflexivity).
  unfold SFcompare, lex_compare, order_key.
  change (Pos.compare_cont Eq mx my) with (Z.pos mx ?= Z.pos my).
  destruct sx, sy; cbn [fst snd]; try reflexivity.
  change (-1 ?= -1) with Eq. cbv iota.
  change (- Z.pos mx ?= - Z.pos my) with (CompOpp (Z.pos mx ?= Z.pos my)).
    rewrite (Z.compare_opp ex ey), (Z.compare_antisym ex ey).
    destruct (ex ?= ey); reflexivity.
Qed.

Lemma lex_compare_le : forall p q,
  lex_compare p q <> Gt <-> lex_le p q.
Proof.
  intros [[p1 p2] p3] [[q1 q2] q3]. unfold lex_compare, lex_le.
  cbn [fst snd].
  destruct (Z.compare_spec p1 q1); [|split; [lia|discriminate]
                                     |split; [congruence|lia]].
  destruct (Z.compare_spec p2 q2); [|split; [lia|discriminate]
                                     |split; [congruence|lia]].
  destruct (Z.compare_spec p3 q3); split; try lia; try discriminate;
    congruence.
Qed.

Lemma lex_compare_ge : forall p q,
  lex_compare q p <> Lt <-> lex_le p q.
Proof.
  intros [[p1 p2] p3] [[q1 q2] q3]. unfold lex_compare, lex_le.
  cbn [fst snd].
  destruct (Z.compare_spec q1 p1); [|split; [congruence|lia]
                                     |split; [lia|discriminate]].
  destruct (Z.compare_spec q2 p2); [|split; [congruence|lia]
                                     |split; [lia|discriminate]].
  destruct (Z.compare_spec q3 p3); split; try lia; try discriminate;
    congruence.
Qed.

Lemma leb_key : forall x y,
  not_nan x -> not_nan y ->
  (F32.leb x y = true <-> lex_le (order_key x) (order_key y)).
Proof.
  intros x y Hx Hy. unfold F32.leb, SFleb.
  rewrite (compare_key x y Hx Hy), <- lex_compare_le.
  destruct (lex_compare _ _); split; congruence.
Qed.

Lemma not_after_key : forall x y,
  not_nan x -> not_nan y ->
  (not_after x y <-> lex_le (order_key x) (order_key y)).
Proof.
  intros x y Hx Hy. unfold not_after, F32.ltb, SFltb.
  rewrite (compare_key y x Hy Hx), <- lex_compare_ge.
  destruct (lex_compare _ _); split; congruence.
Qed.

Lemma ordered_refl : forall x, not_nan x -> ordered x x.
Proof.
  intros x Hx. split; [exact Hx|]. split; [exact Hx|].
  apply leb_key; auto. unfold lex_le. lia.
Qed.

Lemma ordered_trans : forall x y z, ordered x y -> ordered y z -> ordered x z.
Proof.
  intros x y z (Hx & Hy & Hxy) (_ & Hz & Hyz).
  split; [exact Hx|]. split; [exact Hz|].
  apply leb_key in Hxy; auto. apply leb_key in Hyz; auto.
  apply leb_key; auto. unfold lex_le in *. lia.
Qed.

Lemma locally_sorted_ordered : forall l,
  Forall not_nan l -> LocallySorted not_after l -> StronglySorted ordered l.
Proof.
  intros l Hn Hs.
  apply Sorted_StronglySorted; [exact ordered_trans|].
  apply Sorted_LocallySorted_iff.
  induction Hs as [|a|a b l Hs IH Hab].
  - constructor.
  - constructor.
  - inversion Hn as [|? ? Ha Hn']; subst.
    inversion Hn' as [|? ? Hb _]; subst.
    constructor; [now apply IH|].
    split; [exact Ha|]. split; [exact Hb|].
    apply leb_key; auto. now apply not_after_key.
Qed.

Lemma strongly_sorted_last : forall l x,
  StronglySorted ordered l -> Forall not_nan l -> In x l ->
  forall y r, rev l = y :: r -> ordered x y.
Proof.
  intros l x Hs. induction Hs as [|a l Hs IH Ha]; intros Hn Hin y r Er.
  - destruct Hin.
  - inversion Hn as [|? ? Hna Hn']; subst.
    cbn [rev] in Er.
    destruct l as [|b l'].
    + cbn in Er. injection Er as <- <-. destruct Hin as [<-|[]].
      now apply ordered_refl.
    + assert (Hy : In y (b :: l')).
      { apply in_rev. destruct (rev (b :: l')) as [|y' r'] eqn:E.
        - apply (f_equal (@List.length _)) in E.
          rewrite length_rev in E. discriminate.
        - cbn in Er. injection Er as <- _. now left. }
      destruct Hin as [<-|Hin].
      * rewrite Forall_forall in Ha. now apply Ha.
      * destruct (rev (b :: l')) as [|y' r'] eqn:E.
        -- apply (f_equal (@List.length _)) in E.
           rewrite length_rev in E. discriminate.
        -- cbn in Er. injection Er as <- _.
           now apply (IH Hn' Hin y' r').
Qed.

(** X14. When no terminal value is a NaN the statistics are in order: the
    minimum is not above the median, the median not above the maximum, and
    every terminal value lies between the minimum and the maximum. *)
Theorem terminal_statistics_are_ordered : forall res tvs r,
  Forall not_nan tvs ->
  compute_terminal_values res tvs = Ok r ->
  F32.leb (tv_minimum r) (tv_median r) = true /\
  F32.leb (tv_median r) (tv_maximum r) = true /\
  Forall (fun v => F32.leb (tv_minimum r) v = true /\
                   F32.leb v (tv_maximum r) = true) tvs.
Proof.
  intros res tvs r Hn H.
  assert (Hin : forall x, In x tvs <-> In x (sort tvs)).
  { intros x. split; apply Permutation_in;
      [|apply Permutation_sym]; apply sort_perm. }
  assert (Hns : Forall not_nan (sort tvs)).
  { apply Forall_forall. intros x Hx. rewrite Forall_forall in Hn.
    now apply Hn, Hin. }
  pose proof (locally_sorted_ordered _ Hns (sort_locally_sorted tvs)) as Hs.
  unfold compute_terminal_values in H. cbv zeta in H.
  unfold at_index, front, back in H.
  destruct (nth_error (sort tvs) _) as [median|] eqn:Em; cbn [bind] in H;
    [|discriminate].
  apply nth_error_In in Em.
  destruct (sort tvs) as [|minimum rest] eqn:Es; cbn [bind] in H;
    [discriminate|].
  destruct (rev (minimum :: rest)) as [|maximum rest'] eqn:Er; cbn [bind] in H;
    [discriminate|].
  injection H as <-. cbn [tv_minimum tv_median tv_maximum].
  assert (Hmin : forall x, In x (minimum :: rest) -> ordered minimum x).
  { intros x [<-|Hx].
    - apply ordered_refl. now inversion Hns.
    - inversion Hs as [|? ? _ Hall]; subst.
      rewrite Forall_forall in Hall. now apply Hall. }
  assert (Hmax : forall x, In x (minimum :: rest) -> ordered x maximum).
  { intros x Hx. exact (strongly_sorted_last _ x Hs Hns Hx _ _ Er). }
  split; [exact (proj2 (proj2 (Hmin _ Em)))|].
  split; [exact (proj2 (proj2 (Hmax _ Em)))|].
  apply Forall_forall. intros v Hv. apply Hin in Hv.
  split; [exact (proj2 (proj2 (Hmin _ Hv)))|exact (proj2 (proj2 (Hmax _ Hv)))].
Qed.

(** Three terminal values. *)
Lemma terminal_statistics_are_ordered_witness :
  let res := mk_results 2 1 f100 F32.zero F32.zero F32.zero F32.zero in
  let tvs := [F32.of_Z 300; F32.zero; F32.of_Z 200] in
  let r := mk_results 2 1 f100 (F32.div (F32.of_Z 500) (F32.of_Z 3))
                      F32.zero (F32.of_Z 300) (F32.of_Z 300) in
  Forall not_nan tvs /\
  compute_terminal_values res tvs = Ok r /\
  F32.leb (tv_minimum r) (tv_median r) = true /\
  F32.leb (tv_median r) (tv_maximum r) = true /\
  Forall (fun v => F32.leb (tv_minimum r) v = true /\
                   F32.leb v (tv_maximum r) = true) tvs.
Proof.
  intros res tvs r.
  assert (Hn : Forall not_nan tvs).
  { unfold tvs. repeat (constructor; [vm_compute; discriminate|]). constructor. }
  assert (H : compute_terminal_values res tvs = Ok r)
    by (vm_compute; reflexivity).
  split; [exact Hn|]. split; [exact H|].
  exact (terminal_statistics_are_ordered res tvs r Hn H).
Defined.

(* ================================================================== *)
(** * A horizon of zero years *)

Lemma zero_horizon_end : forall cy cm,
  2 <= cm <= 12 -> 0 <= cy < SizeT.modulus ->
  trial_end_year (months 0) cy cm = cy /\
  trial_end_month (months 0) cm = (if cm <=? 9 then cm + 3 else cm - 9).
Proof.
  intros cy cm Hcm Hcy.
  assert (Hcases : cm = 2 \/ cm = 3 \/ cm = 4 \/ cm = 5 \/ cm = 6 \/ cm = 7 \/
                   cm = 8 \/ cm = 9 \/ cm = 10 \/ cm = 11 \/ cm = 12) by lia.
  assert (Hadd : SizeT.add cy 0 = cy).
  { unfold SizeT.add, SizeT.wrap. rewrite Z.add_0_r. now apply Z.mod_small. }
  unfold trial_end_year.
  destruct Hcases as [->|[->|[->|[->|[->|[->|[->|[->|[->|[->| ->]]]]]]]]]];
    (split; [exact Hadd|reflexivity]).
Qed.

(** X15. A horizon of zero years is not an empty trial: [months - 1]
    wraps around in [size_t]. A trial that starts in month 2 to 9 runs the
    month body four times, on the start month and the three that follow,
    and then the end-of-year actions; one that starts in month 10 to 12
    runs no month but the end-of-year actions once; for one that starts in
    January the end year is [(2^64 - 1) / 12] years after the start. *)
Theorem zero_horizon_is_not_empty :
  forall fuel cy cm,
    1 <= cm <= 12 -> 0 <= cy < SizeT.max_value -> (12 <= fuel)%nat ->
    let ey := trial_end_year (months 0) cy cm in
    let em := trial_end_month (months 0) cm in
    (cm = 1 -> ey = SizeT.add cy 1537228672809129301 /\ em = 4) /\
    (2 <= cm ->
     let log :=
       if cm <=? 9
       then map (MonthStep cy) [cm; cm + 1; cm + 2; cm + 3] ++ [YearEnd cy]
       else [YearEnd cy] in
     trial_trace fuel cy cm ey em = Ok log /\
     forall (S : Type) (month_body : Z -> Z -> S -> outcome S)
            (year_end : Z -> S -> outcome S) (s : S),
       trial_loops fuel cy cm ey em month_body year_end s
       = foldM (run_event month_body year_end) log s).
Proof.
  intros fuel cy cm Hcm Hcy Hf ey em. split.
  - intros ->. split; reflexivity.
  - intros H2 log.
    assert (Hcy' : 0 <= cy < SizeT.modulus)
      by (unfold SizeT.max_value in Hcy; lia).
    destruct (zero_horizon_end cy cm ltac:(lia) Hcy') as [Ey Em].
    fold ey in Ey. fold em in Em.
    assert (Hem : 1 <= em <= 12).
    { rewrite Em. destruct (cm <=? 9) eqn:E;
        [apply Z.leb_le in E|apply Z.leb_gt in E]; lia. }
    assert (Htrip : trip_count cy ey = 1%nat)
      by (rewrite Ey; unfold trip_count; lia).
    assert (Hlog : schedule cy cm ey em = log).
    { unfold schedule. rewrite Htrip. cbn [zrange flat_map].
      rewrite app_nil_r. unfold year_events. rewrite Ey, Z.eqb_refl, Em.
      unfold log, trip_count.
      destruct (cm <=? 9) eqn:E;
        [apply Z.leb_le in E|apply Z.leb_gt in E].
      - replace (Z.to_nat (cm + 3 + 1 - cm)) with 4%nat by lia.
        cbn [zrange map].
        replace (cm + 1 + 1) with (cm + 2) by lia.
        replace (cm + 2 + 1) with (cm + 3) by lia. reflexivity.
      - replace (Z.to_nat (cm - 9 + 1 - cm)) with 0%nat by lia.
        reflexivity. }
    rewrite <- Hlog. split.
    + apply trial_trace_schedule; auto; lia.
    + intros. apply trial_loops_schedule; auto; lia.
Qed.

(** A trial of zero years that starts in February or in November 2000. *)
Lemma zero_horizon_is_not_empty_witness :
  trial_trace 12 2000 2 (trial_end_year (months 0) 2000 2)
              (trial_end_month (months 0) 2)
  = Ok [MonthStep 2000 2; MonthStep 2000 3; MonthStep 2000 4;
        MonthStep 2000 5; YearEnd 2000] /\
  trial_trace 12 2000 11 (trial_end_year (months 0) 2000 11)
              (trial_end_month (months 0) 11)
  = Ok [YearEnd 2000].
Proof.
  assert (Hcy : 0 <= 2000 < SizeT.max_value) by (vm_compute; split; congruence).
  assert (Hf : (12 <= 12)%nat) by lia.
  split.
  - assert (Hcm : 1 <= 2 <= 12) by lia.
    exact (proj1 (proj2 (zero_horizon_is_not_empty 12 2000 2 Hcm Hcy Hf)
                    ltac:(lia))).
  - assert (Hcm : 1 <= 11 <= 12) by lia.
    exact (proj1 (proj2 (zero_horizon_is_not_empty 12 2000 11 Hcm Hcy Hf)
                    ltac:(lia))).
Defined.

(* ================================================================== *)
(** * Depletion *)

Lemma mul_zero_finite : forall v f,
  is_zero v -> finite_or_zero f -> is_zero (F32.mul v f).
Proof.
  intros [s| | |] f Hv Hf; try contradiction.
  destruct f as [sf|sf| |sf mf ef]; try contradiction; exact I.
Qed.

Lemma apply_returns_depleted : forall vals rets vals' rets',
  Forall is_zero vals ->
  Forall (fun c => finite_series (series c)) rets ->
  apply_returns vals rets = Ok (vals', rets') ->
  Forall is_zero vals' /\ Forall (fun c => finite_series (series c)) rets'.
Proof.
  induction vals as [|v vals IH]; intros rets vals' rets' Hv Hr H.
  - cbn in H. injection H as <- <-. split; constructor.
  - destruct rets as [|c rets]; cbn [apply_returns] in H.
    + injection H as <- <-. split; constructor.
    + inversion Hv as [|? ? Hv1 Hv2]; subst.
      inversion Hr as [|? ? Hc Hr2]; subst.
      unfold deref in H.
      destruct (nth_error (series c) (pos c)) as [d|] eqn:E; cbn [bind] in H;
        [|discriminate].
      destruct (apply_returns vals rets) as [[vs rs]| |] eqn:E'; cbn [bind] in H;
        try discriminate.
      injection H as <- <-.
      destruct (IH rets vs rs Hv2 Hr2 E') as [IH1 IH2].
      split; constructor; auto.
      apply mul_zero_finite; [exact Hv1|].
      unfold finite_series in Hc. rewrite Forall_forall in Hc.
      apply Hc. eapply nth_error_In; eauto.
Qed.

Lemma firstn_incl : forall {A : Type} n (l : list A) x,
  In x (firstn n l) -> In x l.
Proof.
  intros A n. induction n as [|n IH]; intros [|y l] x H; cbn in H;
    try contradiction.
  destruct H as [->|H]; [now left|right; now apply IH].
Qed.

Lemma shares_of_zero : forall portfolio vals total,
  Forall (fun a => finite_or_zero (target_weight a)) portfolio ->
  is_zero total ->
  Forall is_zero (shares_of total portfolio vals).
Proof.
  intros portfolio vals total Hp Ht. unfold shares_of.
  apply Forall_forall. intros x Hx. apply in_map_iff in Hx.
  destruct Hx as (a & <- & Ha). apply firstn_incl in Ha.
  rewrite Forall_forall in Hp. specialize (Hp a Ha).
  destruct total as [s| | |]; try contradiction.
  destruct (target_weight a) as [st|st| |st mt et]; try contradiction; exact I.
Qed.

Lemma rebalance_with_cost_depleted : forall cost portfolio vals,
  finite_or_zero (fee_factor cost) ->
  Forall (fun a => finite_or_zero (target_weight a)) portfolio ->
  Forall is_zero vals ->
  Forall is_zero (rebalance_with_cost cost portfolio vals).
Proof.
  intros cost portfolio vals Hc Hp Hv. unfold rebalance_with_cost. cbv zeta.
  rewrite reset_to_targets_shares.
  assert (Hpaid : Forall is_zero (pay_fees cost vals)).
  { unfold pay_fees. apply Forall_forall. intros x Hx.
    apply in_map_iff in Hx. destruct Hx as (v & <- & Hin).
    rewrite Forall_forall in Hv. apply mul_zero_finite; auto. }
  apply shares_of_zero; [exact Hp|].
  now rewrite (accumulate_zeros _ Hpaid).
Qed.

Lemma threshold_rebalance_depleted : forall threshold portfolio vals,
  Forall is_zero vals ->
  threshold_rebalance threshold portfolio vals = vals.
Proof.
  intros threshold portfolio vals Hz.
  rewrite threshold_rebalance_cases.
  now rewrite (depleted_not_reached threshold portfolio vals Hz).
Qed.

Lemma withdraw_depleted : forall amount vals,
  Forall is_zero vals -> Forall is_zero (withdraw amount vals).
Proof.
  intros amount vals Hz. unfold withdraw. cbv zeta.
  rewrite (accumulate_zeros vals Hz).
  apply Forall_forall. intros x Hx. apply in_map_iff in Hx.
  destruct Hx as (v & <- & Hin). rewrite Forall_forall in Hz.
  specialize (Hz v Hin).
  destruct v as [[]| | |]; try contradiction; exact I.
Qed.

Lemma month_step_depleted :
  forall portfolio monthly_wr rebalance threshold st st',
    Forall (fun a => finite_or_zero (target_weight a)) portfolio ->
    depleted st ->
    month_step portfolio monthly_wr rebalance threshold st = Ok st' ->
    depleted st'.
Proof.
  intros portfolio monthly_wr rebalance threshold st st' Hp [Hv Hr] H.
  unfold month_step in H.
  destruct (apply_returns (current_values st) (returns st))
    as [[vals rets]| |] eqn:E; cbn [bind] in H; try discriminate.
  destruct (apply_returns_depleted _ _ _ _ Hv Hr E) as [Hvals Hrets].
  destruct (deref (inflation st)) as [factor| |]; cbn [bind] in H;
    try discriminate.
  injection H as <-. split; cbn [current_values returns]; [|exact Hrets].
  assert (H1 : Forall is_zero
                 match rebalance with
                 | MONTHLY =>
                     rebalance_with_cost monthly_rebalancing_cost portfolio vals
                 | _ => vals
                 end).
  { destruct rebalance; auto.
    apply rebalance_with_cost_depleted; auto. exact I. }
  assert (H2 : Forall is_zero
                 match rebalance with
                 | THRESHOLD =>
                     threshold_rebalance threshold portfolio
                       match rebalance with
                       | MONTHLY =>
                           rebalance_with_cost monthly_rebalancing_cost
                             portfolio vals
                       | _ => vals
                       end
                 | _ =>
                     match rebalance with
                     | MONTHLY =>
                         rebalance_with_cost monthly_rebalancing_cost
                           portfolio vals
                     | _ => vals
                     end
                 end).
  { destruct rebalance; auto.
    now rewrite threshold_rebalance_depleted. }
  destruct monthly_wr; [apply withdraw_depleted|]; exact H2.
Qed.

Lemma year_step_depleted : forall portfolio monthly_wr rebalance st,
  Forall (fun a => finite_or_zero (target_weight a)) portfolio ->
  depleted st ->
  depleted (year_step portfolio monthly_wr rebalance st).
Proof.
  intros portfolio monthly_wr rebalance st Hp [Hv Hr].
  split; cbn [year_step current_values returns]; [|exact Hr].
  assert (H1 : Forall is_zero
                 match rebalance with
                 | YEARLY =>
                     rebalance_with_cost yearly_rebalancing_cost portfolio
                       (current_values st)
                 | _ => current_values st
                 end).
  { destruct rebalance; auto.
    apply rebalance_with_cost_depleted; auto. exact I. }
  destruct (negb monthly_wr); [apply withdraw_depleted|]; exact H1.
Qed.

(** X16. Depletion is final. Once every asset of a trial is worth zero,
    and as long as the target shares and the return factors are finite, no
    return, rebalancing or withdrawal of any later month or year end brings
    a value back: every asset stays at zero, the total is [0.0f] and the
    trial counts as a failure. *)
Theorem depletion_is_final :
  forall portfolio monthly_wr rebalance threshold log st st',
    Forall (fun a => finite_or_zero (target_weight a)) portfolio ->
    depleted st ->
    replay portfolio monthly_wr rebalance threshold log st = Ok st' ->
    Forall is_zero (current_values st') /\
    F32.accumulate (current_values st') = F32.zero /\
    is_success (F32.accumulate (current_values st')) = false.
Proof.
  intros portfolio monthly_wr rebalance threshold log st st' Hp Hst H.
  assert (Hst' : depleted st').
  { revert st Hst H. unfold replay.
    induction log as [|ev log IH]; intros st Hst H.
    - cbn in H. now injection H as <-.
    - cbn [foldM] in H. destruct ev as [y m|y]; cbn [run_event] in H.
      + destruct (month_step portfolio monthly_wr rebalance threshold st)
          as [st1| |] eqn:E; cbn [bind] in H; try discriminate.
        apply (IH st1); [|exact H].
        exact (month_step_depleted _ _ _ _ _ _ Hp Hst E).
      + cbn [bind] in H.
        apply (IH (year_step portfolio monthly_wr rebalance st)); [|exact H].
        now apply year_step_depleted. }
  destruct Hst' as [Hz _].
  split; [exact Hz|].
  rewrite (accumulate_zeros _ Hz). split; reflexivity.
Qed.

(** The 60/40 portfolio with nothing left in March 2000, over the rest of
    the year with monthly rebalancing and monthly withdrawals. *)
Lemma depletion_is_final_witness :
  let flat := flat_series (2000, 1) 12 f1 in
  let st :=
    mk_trial_state [F32.zero; F32.zero] [mk_cursor flat 2; mk_cursor flat 2]
                   (F32.of_Z 40) (mk_cursor flat 2) in
  let st' :=
    mk_trial_state [F32.zero; F32.zero] [mk_cursor flat 4; mk_cursor flat 4]
                   (F32.of_Z 40) (mk_cursor flat 4) in
  let log := [MonthStep 2000 3; MonthStep 2000 4; YearEnd 2000] in
  Forall (fun a => finite_or_zero (target_weight a)) sixty_forty /\
  depleted st /\
  replay sixty_forty true MONTHLY f1 log st = Ok st' /\
  is_success (F32.accumulate (current_values st')) = false.
Proof.
  intros flat st st' log.
  assert (Hp : Forall (fun a => finite_or_zero (target_weight a)) sixty_forty).
  { unfold sixty_forty. repeat (constructor; [vm_compute; exact I|]).
    constructor. }
  assert (Hflat : finite_series flat).
  { unfold finite_series, flat, flat_series. apply Forall_forall.
    intros d Hd. apply in_map_iff in Hd. destruct Hd as (ym & <- & _).
    exact I. }
  assert (Hst : depleted st).
  { split; cbn [current_values returns st];
      repeat (constructor; [first [exact I|exact Hflat]|]); constructor. }
  assert (H : replay sixty_forty true MONTHLY f1 log st = Ok st')
    by (vm_compute; reflexivity).
  split; [exact Hp|]. split; [exact Hst|]. split; [exact H|].
  exact (proj2 (proj2 (depletion_is_final sixty_forty true MONTHLY f1 log st st'
                         Hp Hst H))).
Defined.
